(** * LIPS-to-C: the tokenizer, parser, traverser, transformer and code
      generator of [src/index.js], embedded and verified.

    JavaScript strings are sequences of UTF-16 code units, so a string is a
    [list N] here; [js "..."] turns an ASCII literal into one.  Loops and
    recursive calls of the source take a [fuel] argument: [OutOfFuel] is the
    only outcome of a run that never finishes.  Strings and arrays are
    unbounded, as in the language itself; an engine's memory limits are not
    part of the model. *)

From Stdlib Require Import NArith Ascii String Lia.
From stdpp Require Import base tactics option numbers list strings gmap.

Set Warnings "-register-all".

Local Open Scope N_scope.
Local Open Scope nat_scope.
Local Open Scope string_scope.
Local Open Scope list_scope.

(** ** Strings and characters *)

Abbreviation jsstring := (list N).

Definition js (s : string) : jsstring :=
  map N_of_ascii (list_ascii_of_string s).

(** A value read by [input[i]]: one code unit, or [undefined] ([None]). *)
Abbreviation jschar := (option N).

(** [ToString] of such a value, as applied by [+=] and by [RegExp.test]. *)
Definition ToString (char : jschar) : jsstring :=
  match char with
  | Some c => [c]
  | None => js "undefined"
  end.

Definition lparen : N := 40%N.
Definition rparen : N := 41%N.
Definition dquote : N := 34%N.

(** The character class [\s]: WhiteSpace and LineTerminator of ECMAScript. *)
Definition is_space (c : N) : bool :=
  (N.leb 9 c && N.leb c 13) || N.eqb c 32 || N.eqb c 160 || N.eqb c 5760
  || (N.leb 8192 c && N.leb c 8202) || N.eqb c 8232 || N.eqb c 8233
  || N.eqb c 8239 || N.eqb c 8287 || N.eqb c 12288 || N.eqb c 65279.

(** [[0-9]] (the [i] flag changes nothing for digits). *)
Definition is_digit (c : N) : bool := N.leb 48 c && N.leb c 57.

(** [[a-z]] with the [i] flag and no [u] flag: exactly the ASCII letters. *)
Definition is_letter (c : N) : bool :=
  (N.leb 97 c && N.leb c 122) || (N.leb 65 c && N.leb c 90).

(** [re.test(s)] for an unanchored one-character class: some code unit of
    [s] belongs to the class. *)
Definition WS_test (char : jschar) : bool := existsb is_space (ToString char).
Definition NUMBER_test (char : jschar) : bool := existsb is_digit (ToString char).
Definition LETTER_test (char : jschar) : bool := existsb is_letter (ToString char).

(** ** Outcomes *)

Inductive error :=
| SyntaxError (message : jsstring)    (* throw new SyntaxError(message) *)
| TypeError (message : jsstring)      (* throw new TypeError(message) *)
| EngineTypeError (reading : string). (* raised by the engine: a property
                                         of undefined was read, or a
                                         non-function was called *)

Inductive outcome (A : Type) :=
| Return (a : A)
| Throw (e : error)
| OutOfFuel.
Arguments Return {A} a.
Arguments Throw {A} e.
Arguments OutOfFuel {A}.

(** ** Tokens *)

Record token := Token { type : jsstring; value : jsstring }.

(** ** TOKENIZER *)

(** The string-mode loop: while [char] is not the double quote,
    [value += char; char = input[++current]]. *)
Fixpoint string_loop (fuel : nat) (input : jsstring) (current : nat)
    (value : jsstring) (char : jschar) : option (nat * jsstring * jschar) :=
  match fuel with
  | O => None
  | S fuel =>
      if bool_decide (char ≠ Some dquote) then
        string_loop fuel input (S current) (value ++ ToString char)
                    (input !! S current)
      else Some (current, value, char)
  end.

(** [while (LETTER.test(char)) { value += char; char = input[++current]; }] *)
Fixpoint name_loop (fuel : nat) (input : jsstring) (current : nat)
    (value : jsstring) (char : jschar) : option (nat * jsstring * jschar) :=
  match fuel with
  | O => None
  | S fuel =>
      if LETTER_test char then
        name_loop fuel input (S current) (value ++ ToString char)
                  (input !! S current)
      else Some (current, value, char)
  end.

(** The body of [while (current < input.length)]; [tokens.push(t)] is
    [tokens ++ [t]]. *)
Fixpoint tokenizer_loop (fuel : nat) (input : jsstring) (current : nat)
    (tokens : list token) : outcome (list token) :=
  match fuel with
  | O => OutOfFuel
  | S fuel =>
      if bool_decide (current < length input) then
        let char := input !! current in
        (* in the branches that store [char] as a token's text it is a
           one-character string, which is what [ToString char] is there *)
        if bool_decide (char = Some lparen) || bool_decide (char = Some rparen) then
          tokenizer_loop fuel input (S current)
            (tokens ++ [Token (js "paren") (ToString char)])
        else if WS_test char then
          tokenizer_loop fuel input (S current) tokens
        else if NUMBER_test char then
          tokenizer_loop fuel input (S current)
            (tokens ++ [Token (js "number") (ToString char)])
        else if bool_decide (char = Some dquote) then
          match string_loop fuel input (S current) [] (input !! S current) with
          | None => OutOfFuel
          | Some (current, value, _) =>
              tokenizer_loop fuel input (S current)
                (tokens ++ [Token (js "string") value])
          end
        else if LETTER_test char then
          match name_loop fuel input current [] char with
          | None => OutOfFuel
          | Some (current, value, _) =>
              tokenizer_loop fuel input current
                (tokens ++ [Token (js "name") value])
          end
        else
          Throw (SyntaxError
                   (js "I dont know what this character is: " ++ ToString char))
      else Return tokens
  end.

Definition tokenizer (fuel : nat) (input : jsstring) : outcome (list token) :=
  tokenizer_loop fuel input 0 [].

(** ** Values, objects and the heap *)

Abbreviation loc := nat.

Inductive val :=
| VUndefined
| VNull
| VString (s : jsstring)
| VRef (l : loc).

(** An object is its named properties; an array is an object that also has
    indexed elements. *)
Record object := Obj { props : gmap string val; elems : option (list val) }.

Abbreviation heap := (list object).

#[global] Instance val_eq_dec : EqDecision val.
Proof. solve_decision. Defined.

(** Heap computations that may throw or run out of fuel. *)
Definition M (A : Type) : Type := heap -> outcome (A * heap).

Definition ret {A} (a : A) : M A := fun h => Return (a, h).
Definition throw {A} (e : error) : M A := fun _ => Throw e.
Definition out_of_fuel {A} : M A := fun _ => OutOfFuel.
Definition bind {A B} (m : M A) (k : A -> M B) : M B :=
  fun h =>
    match m h with
    | Return (a, h') => k a h'
    | Throw e => Throw e
    | OutOfFuel => OutOfFuel
    end.

Notation "'let*' x ':=' m 'in' k" := (bind m (fun x => k))
  (at level 10, x pattern, m at level 100, k at level 200).

(** [{ k1: v1, ... }] and [[]]: a fresh object at the end of the heap. *)
Definition new_object (p : list (string * val)) : M val :=
  fun h => Return (VRef (length h), h ++ [Obj (list_to_map p) None]).

Definition new_array : M val :=
  fun h => Return (VRef (length h), h ++ [Obj ∅ (Some [])]).

(** [v.k]: a TypeError on undefined and null, [undefined] for a property
    that is not there. *)
Definition get (v : val) (k : string) : M val :=
  fun h =>
    match v with
    | VUndefined | VNull => Throw (EngineTypeError k)
    | VString _ => Return (VUndefined, h)
    | VRef l =>
        match h !! l with
        | Some o => Return (default VUndefined (props o !! k), h)
        | None => Return (VUndefined, h)
        end
    end.

(** [v.k = x] (the file is a module, hence strict code). *)
Definition set (v : val) (k : string) (x : val) : M unit :=
  fun h =>
    match v with
    | VRef l =>
        match h !! l with
        | Some o => Return (tt, <[l := Obj (<[k := x]> (props o)) (elems o)]> h)
        | None => Return (tt, h)
        end
    | _ => Throw (EngineTypeError k)
    end.

(** [a.push(x)]. *)
Definition push (a : val) (x : val) : M unit :=
  fun h =>
    match a with
    | VRef l =>
        match h !! l with
        | Some (Obj p (Some es)) =>
            Return (tt, <[l := Obj p (Some (es ++ [x]))]> h)
        | _ => Throw (EngineTypeError "push")
        end
    | _ => Throw (EngineTypeError "push")
    end.

(** [a.length] of an array, read when [forEach] or [map] starts. *)
Definition array_length (method : string) (a : val) : M nat :=
  fun h =>
    match a with
    | VRef l =>
        match h !! l with
        | Some (Obj _ (Some es)) => Return (length es, h)
        | _ => Throw (EngineTypeError method)
        end
    | _ => Throw (EngineTypeError method)
    end.

(** [a[k]] for an index below the recorded length. *)
Definition element (a : val) (k : nat) : M (option val) :=
  fun h =>
    match a with
    | VRef l =>
        match h !! l with
        | Some (Obj _ (Some es)) => Return (es !! k, h)
        | _ => Return (None, h)
        end
    | _ => Return (None, h)
    end.

(** [a.forEach(f)]: the indices [k, k + n) in order, each element read when
    its turn comes. *)
Fixpoint forEach_from (n k : nat) (a : val) (f : val -> M unit) : M unit :=
  match n with
  | O => ret tt
  | S n =>
      let* x := element a k in
      let* _ := match x with Some v => f v | None => ret tt end in
      forEach_from n (S k) a f
  end.

Definition forEach (a : val) (f : val -> M unit) : M unit :=
  let* n := array_length "forEach" a in
  forEach_from n 0 a f.

(** [a.map(f)]; the array it returns is kept as the list of its elements. *)
Fixpoint map_from (n k : nat) (a : val) (f : val -> M val) : M (list val) :=
  match n with
  | O => ret []
  | S n =>
      let* x := element a k in
      let* y := match x with Some v => f v | None => ret VUndefined end in
      let* ys := map_from n (S k) a f in
      ret (y :: ys)
  end.

Definition array_map (a : val) (f : val -> M val) : M (list val) :=
  let* n := array_length "map" a in
  map_from n 0 a f.

(** [ToString] of a value; the program never applies it to an object. *)
Definition ToStringV (v : val) : jsstring :=
  match v with
  | VUndefined => js "undefined"
  | VNull => js "null"
  | VString s => s
  | VRef _ => js "[object Object]"
  end.

(** The message of [new TypeError(x)]: [ToString x], and no message of its
    own, so the empty one of the prototype, when [x] is [undefined]. *)
Definition error_message (x : val) : jsstring :=
  match x with
  | VUndefined => []
  | _ => ToStringV x
  end.

(** [a + b] where one operand is a string. *)
Definition concat (a b : val) : val := VString (ToStringV a ++ ToStringV b).

(** [xs.join(sep)]: undefined and null elements print as the empty string. *)
Definition join_text (v : val) : jsstring :=
  match v with
  | VUndefined | VNull => []
  | _ => ToStringV v
  end.

Fixpoint join (xs : list val) (sep : jsstring) : jsstring :=
  match xs with
  | [] => []
  | [x] => join_text x
  | x :: rest => join_text x ++ sep ++ join rest sep
  end.

(** [v === 'literal'] *)
Definition is_str (v : val) (s : string) : bool := bool_decide (v = VString (js s)).

(** ** PARSER *)

(** [walk] reads and advances the cursor [current] of [parser]; it is
    passed in and returned.  [params_loop] is the [while] loop of the call
    branch. *)
Fixpoint walk (fuel : nat) (tokens : list token) (current : nat)
    : M (val * nat) :=
  match fuel with
  | O => out_of_fuel
  | S fuel =>
      match tokens !! current with
      | None => throw (EngineTypeError "type")
      | Some token =>
          if bool_decide (type token = js "number") then
            let* node := new_object [("type", VString (js "NumberLiteral"));
                                     ("value", VString (value token))] in
            ret (node, S current)
          else if bool_decide (type token = js "string") then
            let* node := new_object [("type", VString (js "StringLiteral"));
                                     ("value", VString (value token))] in
            ret (node, S current)
          else if bool_decide (type token = js "paren")
                  && bool_decide (value token = js "(") then
            let current := S current in
            match tokens !! current with
            | None => throw (EngineTypeError "value")
            | Some token =>
                let* params := new_array in
                let* node := new_object [("type", VString (js "CallExpression"));
                                         ("name", VString (value token));
                                         ("params", params)] in
                let current := S current in
                let* current := params_loop fuel tokens current node in
                ret (node, S current)
            end
          else ret (VUndefined, current)
      end
  end
with params_loop (fuel : nat) (tokens : list token) (current : nat)
    (node : val) : M nat :=
  match fuel with
  | O => out_of_fuel
  | S fuel =>
      match tokens !! current with
      | None => throw (EngineTypeError "type")
      | Some token =>
          if bool_decide (type token ≠ js "paren")
             || (bool_decide (type token = js "paren")
                 && bool_decide (value token ≠ js ")")) then
            let* params := get node "params" in
            let* (child, current) := walk fuel tokens current in
            let* _ := push params child in
            params_loop fuel tokens current node
          else ret current
      end
  end.

(** [while (current < tokens.length) { ast.body.push(walk()); }] *)
Fixpoint parser_loop (fuel : nat) (tokens : list token) (current : nat)
    (ast : val) : M unit :=
  match fuel with
  | O => out_of_fuel
  | S fuel =>
      if bool_decide (current < length tokens) then
        let* body := get ast "body" in
        let* (child, current) := walk fuel tokens current in
        let* _ := push body child in
        parser_loop fuel tokens current ast
      else ret tt
  end.

Definition parser (fuel : nat) (tokens : list token) : M val :=
  let* body := new_array in
  let* ast := new_object [("type", VString (js "Program")); ("body", body)] in
  let* _ := parser_loop fuel tokens 0 ast in
  ret ast.

(** ** TRAVERSER *)

Definition callback := val -> val -> M unit.

Record methods := Methods { enter : option callback; exit : option callback }.

(** [visitor[node.type]] for the visitor object of a caller. *)
Definition visitor := jsstring -> option methods.

Definition call_method (m : option methods) (which : methods -> option callback)
    (node parent : val) : M unit :=
  match m with
  | Some methods =>
      match which methods with
      | Some f => f node parent
      | None => ret tt
      end
  | None => ret tt
  end.

Fixpoint traverseNode (fuel : nat) (v : visitor) (node parent : val) : M unit :=
  match fuel with
  | O => out_of_fuel
  | S fuel =>
      let* ty := get node "type" in
      let methods := v (ToStringV ty) in
      let* _ := call_method methods enter node parent in
      let* ty := get node "type" in
      let* _ :=
        (if is_str ty "Program" then
           let* body := get node "body" in
           forEach body (fun child => traverseNode fuel v child node)
         else if is_str ty "CallExpression" then
           let* params := get node "params" in
           forEach params (fun child => traverseNode fuel v child node)
         else if is_str ty "NumberLiteral" || is_str ty "StringLiteral" then
           ret tt
         else throw (TypeError (error_message ty))) in
      call_method methods exit node parent
  end.

Definition traverser (fuel : nat) (ast : val) (v : visitor) : M unit :=
  traverseNode fuel v ast VNull.

(** ** TRANSFORMER *)

(** In [parent._context.push({...})] the receiver is read before the
    object literal is built. *)
Definition NumberLiteral_enter : callback := fun node parent =>
  let* context := get parent "_context" in
  let* value := get node "value" in
  let* lit := new_object [("type", VString (js "NumberLiteral")); ("value", value)] in
  push context lit.

Definition StringLiteral_enter : callback := fun node parent =>
  let* context := get parent "_context" in
  let* value := get node "value" in
  let* lit := new_object [("type", VString (js "StringLiteral")); ("value", value)] in
  push context lit.

Definition CallExpression_enter : callback := fun node parent =>
  let* name := get node "name" in
  let* callee := new_object [("type", VString (js "Identifier")); ("name", name)] in
  let* arguments := new_array in
  let* expression := new_object [("type", VString (js "CallExpression"));
                                 ("callee", callee); ("arguments", arguments)] in
  let* arguments := get expression "arguments" in
  let* _ := set node "_context" arguments in
  let* ptype := get parent "type" in
  let* expression :=
    (if negb (is_str ptype "CallExpression") then
       new_object [("type", VString (js "ExpressionStatement"));
                   ("expression", expression)]
     else ret expression) in
  let* context := get parent "_context" in
  push context expression.

Definition transformer_visitor : visitor := fun ty =>
  if bool_decide (ty = js "NumberLiteral") then
    Some (Methods (Some NumberLiteral_enter) None)
  else if bool_decide (ty = js "StringLiteral") then
    Some (Methods (Some StringLiteral_enter) None)
  else if bool_decide (ty = js "CallExpression") then
    Some (Methods (Some CallExpression_enter) None)
  else None.

Definition transformer (fuel : nat) (ast : val) : M val :=
  let* body := new_array in
  let* newAst := new_object [("type", VString (js "Program")); ("body", body)] in
  let* body := get newAst "body" in
  let* _ := set ast "_context" body in
  let* _ := traverser fuel ast transformer_visitor in
  ret newAst.

(** ** CODE GENERATOR *)

Fixpoint codeGenerator (fuel : nat) (node : val) : M val :=
  match fuel with
  | O => out_of_fuel
  | S fuel =>
      let* ty := get node "type" in
      if is_str ty "Program" then
        let* body := get node "body" in
        let* lines := array_map body (codeGenerator fuel) in
        ret (VString (join lines [10%N]))
      else if is_str ty "ExpressionStatement" then
        let* expression := get node "expression" in
        let* s := codeGenerator fuel expression in
        ret (concat s (VString (js ";")))
      else if is_str ty "CallExpression" then
        let* callee := get node "callee" in
        let* f := codeGenerator fuel callee in
        let* arguments := get node "arguments" in
        let* args := array_map arguments (codeGenerator fuel) in
        ret (concat (concat (concat f (VString (js "(")))
                            (VString (join args (js ", "))))
                    (VString (js ")")))
      else if is_str ty "Identifier" then
        get node "name"
      else if is_str ty "NumberLiteral" then
        get node "value"
      else if is_str ty "StringLiteral" then
        let* value := get node "value" in
        ret (concat (concat (VString [dquote]) value) (VString [dquote]))
      else throw (TypeError (error_message ty))
  end.

(** ** The pipeline of lines 286 to 289 *)

Definition compile (fuel : nat) (input : jsstring) : outcome val :=
  match tokenizer fuel input with
  | Return tokens =>
      match (let* ast := parser fuel tokens in
             let* newAST := transformer fuel ast in
             codeGenerator fuel newAST) [] with
      | Return (output, _) => Return output
      | Throw e => Throw e
      | OutOfFuel => OutOfFuel
      end
  | Throw e => Throw e
  | OutOfFuel => OutOfFuel
  end.

(** A computation indexed by fuel is monotone when more fuel never changes
    a result it has reached. *)
Definition monotone {A} (f : nat -> M A) : Prop :=
  forall fuel h r, f fuel h = r -> r <> OutOfFuel -> f (S fuel) h = r.

(** ** Words of the specification *)

(** A character that is not a paren, whitespace, digit, double quote or
    ASCII letter. *)
Definition unrecognized (c : N) : bool :=
  negb (N.eqb c lparen) && negb (N.eqb c rparen) && negb (is_space c)
  && negb (is_digit c) && negb (N.eqb c dquote) && negb (is_letter c).

Definition unknown_character_message (c : N) : jsstring :=
  js "I dont know what this character is: " ++ [c].

(** The number of double quotes of a text.  The tokenizer takes the double
    quotes of its input as opening and closing a string literal in turn, and
    nothing escapes one: what comes behind [pre] is inside a string literal
    when [pre] has an odd number of double quotes. *)
Fixpoint quotes (s : jsstring) : nat :=
  match s with
  | [] => 0
  | c :: s => if N.eqb c dquote then S (quotes s) else quotes s
  end.

Definition inside_string (pre : jsstring) : bool := Nat.odd (quotes pre).

(** An error raised by a [throw] statement of the program, as opposed to
    one raised by the engine. *)
Definition thrown_by_program (e : error) : Prop :=
  match e with
  | SyntaxError _ | TypeError _ => True
  | EngineTypeError _ => False
  end.


(** A token that [walk] has no branch for: a closing paren or a name. *)
Definition no_branch (t : token) : Prop :=
  type t <> js "number" /\ type t <> js "string"
  /\ ~ (type t = js "paren" /\ value t = js "(").

(** ** Source trees in the heap *)

(** [h[l].k] and the elements of the array at [l]. *)
Definition field (h : heap) (l : loc) (k : string) : option val :=
  match h !! l with
  | Some o => props o !! k
  | None => None
  end.

Definition array_at (h : heap) (l : loc) : option (list val) :=
  match h !! l with
  | Some o => elems o
  | None => None
  end.

(** A source AST of the four node types, with the location [l] of each
    node object and the location [a] of each [body] or [params] array. *)
Inductive stree :=
| SProgram (l a : loc) (body : list stree)
| SCallExpression (l : loc) (name : jsstring) (a : loc) (params : list stree)
| SNumberLiteral (l : loc) (value : jsstring)
| SStringLiteral (l : loc) (value : jsstring).

Definition root (t : stree) : loc :=
  match t with
  | SProgram l _ _ | SCallExpression l _ _ _
  | SNumberLiteral l _ | SStringLiteral l _ => l
  end.

Definition type_of (t : stree) : jsstring :=
  match t with
  | SProgram _ _ _ => js "Program"
  | SCallExpression _ _ _ _ => js "CallExpression"
  | SNumberLiteral _ _ => js "NumberLiteral"
  | SStringLiteral _ _ => js "StringLiteral"
  end.

Definition children (t : stree) : list stree :=
  match t with
  | SProgram _ _ body => body
  | SCallExpression _ _ _ params => params
  | _ => []
  end.

Fixpoint height (t : stree) : nat :=
  match t with
  | SProgram _ _ body => S (foldr (fun c n => Nat.max (height c) n) 0 body)
  | SCallExpression _ _ _ params =>
      S (foldr (fun c n => Nat.max (height c) n) 0 params)
  | _ => 1
  end.

(** The heap holds the tree [t]: each node object has the public fields of
    its type (it may have others), each array the roots of the children. *)
Inductive repr (h : heap) : stree -> Prop :=
| repr_Program l a body :
    field h l "type" = Some (VString (js "Program")) ->
    field h l "body" = Some (VRef a) ->
    array_at h a = Some (map (fun c => VRef (root c)) body) ->
    Forall (repr h) body ->
    repr h (SProgram l a body)
| repr_CallExpression l name a params :
    field h l "type" = Some (VString (js "CallExpression")) ->
    field h l "name" = Some (VString name) ->
    field h l "params" = Some (VRef a) ->
    array_at h a = Some (map (fun c => VRef (root c)) params) ->
    Forall (repr h) params ->
    repr h (SCallExpression l name a params)
| repr_NumberLiteral l value :
    field h l "type" = Some (VString (js "NumberLiteral")) ->
    field h l "value" = Some (VString value) ->
    repr h (SNumberLiteral l value)
| repr_StringLiteral l value :
    field h l "type" = Some (VString (js "StringLiteral")) ->
    field h l "value" = Some (VString value) ->
    repr h (SStringLiteral l value).

(** ** The traversal order of the specification *)

(** A call of a visitor method: which method of which node type, and its
    two arguments. *)
Inductive event :=
| Enter (ty : jsstring) (node parent : val)
| Exit (ty : jsstring) (node parent : val).

(** Depth first: [enter] of the node, then the children from left to
    right, each with the node as its parent, then [exit] of the node. *)
Fixpoint events (parent : val) (t : stree) : list event :=
  match t with
  | SProgram l _ body =>
      Enter (js "Program") (VRef l) parent
      :: flat_map (events (VRef l)) body
      ++ [Exit (js "Program") (VRef l) parent]
  | SCallExpression l _ _ params =>
      Enter (js "CallExpression") (VRef l) parent
      :: flat_map (events (VRef l)) params
      ++ [Exit (js "CallExpression") (VRef l) parent]
  | SNumberLiteral l _ =>
      [Enter (js "NumberLiteral") (VRef l) parent;
       Exit (js "NumberLiteral") (VRef l) parent]
  | SStringLiteral l _ =>
      [Enter (js "StringLiteral") (VRef l) parent;
       Exit (js "StringLiteral") (VRef l) parent]
  end.

(** The call itself, when the visitor has that method. *)
Definition run_event (v : visitor) (e : event) : M unit :=
  match e with
  | Enter ty node parent => call_method (v ty) enter node parent
  | Exit ty node parent => call_method (v ty) exit node parent
  end.

Fixpoint run_events (v : visitor) (es : list event) : M unit :=
  match es with
  | [] => ret tt
  | e :: es => let* _ := run_event v e in run_events v es
  end.

(** The call [e] keeps the heap property [I]. *)
Definition preserves (I : heap -> Prop) (v : visitor) (e : event) : Prop :=
  forall h h', I h -> run_event v e h = Return (tt, h') -> I h'.

(** ** Target trees *)

Inductive tnode :=
| TProgram (body : list tnode)
| TExpressionStatement (expression : tnode)
| TCallExpression (callee : tnode) (arguments : list tnode)
| TIdentifier (name : jsstring)
| TNumberLiteral (value : jsstring)
| TStringLiteral (value : jsstring).

(** The target tree that the three [enter] methods build for a source
    tree: [in_call] says whether the parent is a CallExpression. *)
Fixpoint lower (in_call : bool) (t : stree) : tnode :=
  match t with
  | SProgram _ _ body => TProgram (map (lower false) body)
  | SCallExpression _ name _ params =>
      let expression :=
        TCallExpression (TIdentifier name) (map (lower true) params) in
      if in_call then expression else TExpressionStatement expression
  | SNumberLiteral _ value => TNumberLiteral value
  | SStringLiteral _ value => TStringLiteral value
  end.

(** The text that [codeGenerator] returns for a target tree. *)
Fixpoint gen (n : tnode) : jsstring :=
  match n with
  | TProgram body => join (map (fun c => VString (gen c)) body) [10%N]
  | TExpressionStatement expression => gen expression ++ js ";"
  | TCallExpression callee arguments =>
      ((gen callee ++ js "(")
       ++ join (map (fun c => VString (gen c)) arguments) (js ", "))
      ++ js ")"
  | TIdentifier name => name
  | TNumberLiteral value => value
  | TStringLiteral value => ([dquote] ++ value) ++ [dquote]
  end.

Fixpoint theight (n : tnode) : nat :=
  match n with
  | TProgram body => S (foldr (fun c n => Nat.max (theight c) n) 0 body)
  | TExpressionStatement expression => S (theight expression)
  | TCallExpression callee arguments =>
      S (Nat.max (theight callee)
                 (foldr (fun c n => Nat.max (theight c) n) 0 arguments))
  | _ => 1
  end.

(** A source tree below the root: no Program inside. *)
Inductive expression : stree -> Prop :=
| expression_call l name a params :
    Forall expression params -> expression (SCallExpression l name a params)
| expression_number l value : expression (SNumberLiteral l value)
| expression_string l value : expression (SStringLiteral l value).

(** The locations of the node objects of a tree. *)
Fixpoint nodes (t : stree) : list loc :=
  match t with
  | SProgram l _ body => l :: flat_map nodes body
  | SCallExpression l _ _ params => l :: flat_map nodes params
  | SNumberLiteral l _ | SStringLiteral l _ => [l]
  end.

(** Two states of an object with the same elements and the same
    properties, [_context] apart. *)
Definition same_public (o o' : object) : Prop :=
  elems o = elems o'
  /\ forall k, k <> "_context" -> props o !! k = props o' !! k.

(** The heap holds the target tree [n] at [v], in objects at locations
    from [lo] on that have exactly the properties of their type. *)
Inductive trepr (lo : nat) (h : heap) : val -> tnode -> Prop :=
| trepr_Program l a vs body :
    lo <= l -> lo <= a ->
    h !! l = Some (Obj (list_to_map [("type", VString (js "Program"));
                                     ("body", VRef a)]) None) ->
    h !! a = Some (Obj ∅ (Some vs)) ->
    Forall2 (trepr lo h) vs body ->
    trepr lo h (VRef l) (TProgram body)
| trepr_ExpressionStatement l e expression :
    lo <= l ->
    h !! l = Some (Obj (list_to_map [("type", VString (js "ExpressionStatement"));
                                     ("expression", e)]) None) ->
    trepr lo h e expression ->
    trepr lo h (VRef l) (TExpressionStatement expression)
| trepr_CallExpression l c a vs callee arguments :
    lo <= l -> lo <= a ->
    h !! l = Some (Obj (list_to_map [("type", VString (js "CallExpression"));
                                     ("callee", c); ("arguments", VRef a)]) None) ->
    trepr lo h c callee ->
    h !! a = Some (Obj ∅ (Some vs)) ->
    Forall2 (trepr lo h) vs arguments ->
    trepr lo h (VRef l) (TCallExpression callee arguments)
| trepr_Identifier l name :
    lo <= l ->
    h !! l = Some (Obj (list_to_map [("type", VString (js "Identifier"));
                                     ("name", VString name)]) None) ->
    trepr lo h (VRef l) (TIdentifier name)
| trepr_NumberLiteral l value :
    lo <= l ->
    h !! l = Some (Obj (list_to_map [("type", VString (js "NumberLiteral"));
                                     ("value", VString value)]) None) ->
    trepr lo h (VRef l) (TNumberLiteral value)
| trepr_StringLiteral l value :
    lo <= l ->
    h !! l = Some (Obj (list_to_map [("type", VString (js "StringLiteral"));
                                     ("value", VString value)]) None) ->
    trepr lo h (VRef l) (TStringLiteral value).

(** How the heap [h'] after the transformer has handled a subtree with
    node objects [ns] differs from the heap [h] before: it is longer; of
    what the transformer had built (from [n0] on) only the array [c] has
    changed; the older objects keep their public state, and outside [ns]
    their whole state. *)
Definition transformed (n0 : nat) (ns : list loc) (c : loc) (h h' : heap) : Prop :=
  length h <= length h'
  /\ (forall l, n0 <= l -> l < length h -> l <> c -> h' !! l = h !! l)
  /\ (forall l, l < n0 -> l ∉ ns -> h' !! l = h !! l)
  /\ (forall l o, l < n0 -> h !! l = Some o ->
                  exists o', h' !! l = Some o' /\ same_public o o').

(** Every object of [h0] is still there in [h], with its public state. *)
Definition evolved (h0 h : heap) : Prop :=
  forall l o, h0 !! l = Some o -> exists o', h !! l = Some o' /\ same_public o o'.

(** What the traversal of the subtree [t] by the transformer's visitor
    does, from any state [h] of the run on a tree of [h0], when
    [_context] of the parent [p] is the array [c]: it appends one value to
    [c], and that value is the root of the target tree of [t], built
    behind [h]. *)
Definition lowers (h0 : heap) (t : stree) : Prop :=
  forall fuel h p pty c pp ces,
    height t < fuel ->
    evolved h0 h -> p < length h0 -> p ∉ nodes t ->
    field h p "type" = Some (VString pty) ->
    field h p "_context" = Some (VRef c) ->
    length h0 <= c -> h !! c = Some (Obj pp (Some ces)) ->
    exists h' v,
      traverseNode fuel transformer_visitor (VRef (root t)) (VRef p) h
      = Return (tt, h')
      /\ h' !! c = Some (Obj pp (Some (ces ++ [v])))
      /\ trepr (length h) h' v (lower (bool_decide (pty = js "CallExpression")) t)
      /\ transformed (length h0) (nodes t) c h h'.

(** The objects that can be reached from a value through properties and
    array elements. *)
Inductive reachable (h : heap) : val -> loc -> Prop :=
| reachable_here l : reachable h (VRef l) l
| reachable_property l o k x l' :
    h !! l = Some o -> props o !! k = Some x -> reachable h x l' ->
    reachable h (VRef l) l'
| reachable_element l o es i x l' :
    h !! l = Some o -> elems o = Some es -> es !! i = Some x ->
    reachable h x l' ->
    reachable h (VRef l) l'.

(** The values found in a target tree: a node, an array of nodes, or a
    string. *)
Definition target_value (lo : nat) (h : heap) (v : val) : Prop :=
  (exists n, trepr lo h v n)
  \/ (exists a vs ns, v = VRef a /\ h !! a = Some (Obj ∅ (Some vs))
                      /\ Forall2 (trepr lo h) vs ns)
  \/ (exists s, v = VString s).

(** ** What the parser builds *)

(** The strings of a source tree: the names of its calls and the values of
    its literals. *)
Fixpoint texts (t : stree) : list jsstring :=
  match t with
  | SProgram _ _ body => flat_map texts body
  | SCallExpression _ name _ params => name :: flat_map texts params
  | SNumberLiteral _ value | SStringLiteral _ value => [value]
  end.

(** All the locations of a tree: node objects and arrays. *)
Fixpoint locs (t : stree) : list loc :=
  match t with
  | SProgram l a body => l :: a :: flat_map locs body
  | SCallExpression l _ a params => l :: a :: flat_map locs params
  | SNumberLiteral l _ | SStringLiteral l _ => [l]
  end.

(** [s] occurs in [t] as it is. *)
Definition infix (s t : jsstring) : Prop := exists pre post, t = pre ++ s ++ post.

Definition literal_token (t : token) : Prop :=
  type t = js "number" \/ type t = js "string".

(** The condition of the [while] loop of the call branch. *)
Definition not_closing (t : token) : bool :=
  bool_decide (type t ≠ js "paren")
  || (bool_decide (type t = js "paren") && bool_decide (value t ≠ js ")")).

(** [walk], started at token [current] in the heap [h], has built the
    expression [t] behind [h], has left [h] as it was, and has moved to
    [current']; the literal tokens it has passed are strings of [t]. *)
Definition parsed (tokens : list token) (current current' : nat)
    (h h' : heap) (t : stree) : Prop :=
  expression t /\ repr h' t
  /\ Forall (fun l => length h <= l) (locs t)
  /\ length h <= length h'
  /\ (forall l, l < length h -> h' !! l = h !! l)
  /\ current < current'
  /\ forall i tok, current <= i -> i < current' -> tokens !! i = Some tok ->
                   literal_token tok -> value tok ∈ texts t.

(** The loop of a call or of the program, started at token [current],
    has pushed the roots of the expressions [ts] on the array [a] and has
    changed nothing else of [h]. *)
Definition parsed_list (tokens : list token) (current current' : nat)
    (a : loc) (h h' : heap) (ts : list stree) : Prop :=
  (exists pa es, h !! a = Some (Obj pa (Some es))
     /\ h' !! a = Some (Obj pa (Some (es ++ map (fun t => VRef (root t)) ts))))
  /\ Forall expression ts /\ Forall (repr h') ts
  /\ Forall (fun t => Forall (fun l => length h <= l) (locs t)) ts
  /\ length h <= length h'
  /\ (forall l, l < length h -> l <> a -> h' !! l = h !! l)
  /\ current <= current'
  /\ forall i tok, current <= i -> i < current' -> tokens !! i = Some tok ->
                   literal_token tok -> value tok ∈ flat_map texts ts.

(** The literals of a source tree as the code generator writes them: the
    value of a NumberLiteral, the value of a StringLiteral between double
    quotes. *)
Fixpoint renderings (t : stree) : list jsstring :=
  match t with
  | SProgram _ _ body => flat_map renderings body
  | SCallExpression _ _ _ params => flat_map renderings params
  | SNumberLiteral _ value => [value]
  | SStringLiteral _ value => [([dquote] ++ value) ++ [dquote]]
  end.

(** A visitor that keeps a log in the array at [log]: [enter] pushes the
    node, [exit] pushes the parent.  It has both methods for every type. *)
Definition logging_visitor (log : loc) : visitor := fun _ =>
  Some (Methods (Some (fun node parent => push (VRef log) node))
                (Some (fun node parent => push (VRef log) parent))).

(** The AST of the one-token program [2] in a heap, with an array for the
    log behind it. *)
Definition example_heap (log : list val) : heap :=
  [ Obj ∅ (Some [VRef 2]);
    Obj (list_to_map [("type", VString (js "Program")); ("body", VRef 0)]) None;
    Obj (list_to_map [("type", VString (js "NumberLiteral"));
                      ("value", VString (js "2"))]) None;
    Obj ∅ (Some log) ].

Definition example_tree : stree := SProgram 1 0 [SNumberLiteral 2 (js "2")].

(** The AST that the parser builds for [(add 2)], in the heap it builds it
    in. *)
Definition example_call_heap : heap :=
  [ Obj ∅ (Some [VRef 3]);
    Obj (list_to_map [("type", VString (js "Program")); ("body", VRef 0)]) None;
    Obj ∅ (Some [VRef 4]);
    Obj (list_to_map [("type", VString (js "CallExpression"));
                      ("name", VString (js "add")); ("params", VRef 2)]) None;
    Obj (list_to_map [("type", VString (js "NumberLiteral"));
                      ("value", VString (js "2"))]) None ].

Definition example_call_tree : stree :=
  SProgram 1 0 [SCallExpression 3 (js "add") 2 [SNumberLiteral 4 (js "2")]].

(** ** Tokens and token lists *)

(** A token of one of the four shapes that the tokenizer builds: a paren,
    one digit, a text with no double quote in it, or a non-empty run of
    ASCII letters. *)
Definition lexeme (t : token) : Prop :=
  (type t = js "paren" /\ (value t = js "(" \/ value t = js ")"))
  \/ (type t = js "number" /\ exists d, is_digit d = true /\ value t = [d])
  \/ (type t = js "string" /\ (dquote ∉ value t))
  \/ (type t = js "name" /\ value t <> []
      /\ Forall (fun c => is_letter c = true) (value t)).

(** A token written out as source text (a string between double quotes),
    and a list of tokens written out with a space behind each. *)
Definition spell (t : token) : jsstring :=
  if bool_decide (type t = js "string") then dquote :: value t ++ [dquote]
  else value t.

Definition unlex (tokens : list token) : jsstring :=
  flat_map (fun t => spell t ++ [32%N]) tokens.

Definition lp : token := Token (js "paren") (js "(").
Definition rp : token := Token (js "paren") (js ")").

(** [spelled toks t]: the tokens [toks] are a number token or a string
    token, for a literal [t]; or an opening paren, one more token of any
    type, whose value is the name, the tokens of the parameters and a
    closing paren, for a call [t].  The locations in [t] play no part. *)
Inductive spelled : list token -> stree -> Prop :=
| spelled_number tok l :
    type tok = js "number" -> spelled [tok] (SNumberLiteral l (value tok))
| spelled_string tok l :
    type tok = js "string" -> spelled [tok] (SStringLiteral l (value tok))
| spelled_call nm toks l a params :
    spelled_all toks params ->
    spelled (lp :: nm :: toks ++ [rp]) (SCallExpression l (value nm) a params)
with spelled_all : list token -> list stree -> Prop :=
| spelled_nil : spelled_all [] []
| spelled_cons toks t rest ts :
    spelled toks t -> spelled_all rest ts -> spelled_all (toks ++ rest) (t :: ts).

(** The tokens of an expression, with a name token for the name of a
    call. *)
Fixpoint tokens_of (t : stree) : list token :=
  match t with
  | SProgram _ _ body => flat_map tokens_of body
  | SCallExpression _ name _ params =>
      lp :: Token (js "name") name :: flat_map tokens_of params ++ [rp]
  | SNumberLiteral _ value => [Token (js "number") value]
  | SStringLiteral _ value => [Token (js "string") value]
  end.

(** A tree without its locations. *)
Fixpoint shape (t : stree) : stree :=
  match t with
  | SProgram _ _ body => SProgram 0 0 (map shape body)
  | SCallExpression _ name _ params => SCallExpression 0 name 0 (map shape params)
  | SNumberLiteral _ value => SNumberLiteral 0 value
  | SStringLiteral _ value => SStringLiteral 0 value
  end.

(** On tokens that spell [t], with as much fuel as there are tokens, [walk]
    builds a tree of the shape of [t] behind the heap, leaves the heap as
    it was and moves behind the tokens. *)
Definition parses (t : stree) : Prop :=
  forall toks, spelled toks t ->
  forall tokens pre post h fuel,
    tokens = pre ++ toks ++ post -> length toks <= fuel ->
    exists t' h',
      walk fuel tokens (length pre) h
      = Return ((VRef (root t'), length pre + length toks), h')
      /\ shape t' = shape t /\ spelled toks t'
      /\ repr h' t' /\ Forall (fun l => length h <= l) (locs t')
      /\ length h <= length h' /\ (forall l, l < length h -> h' !! l = h !! l).

(** The two errors that the engine raises when the parser reads a token
    past the end of the list. *)
Definition past_the_end (e : error) : Prop :=
  e = EngineTypeError "type" \/ e = EngineTypeError "value".

(** What happens when the parser meets the tokens [rest], which run to the
    end of the token list, where it expects an expression, at the top level
    ([top]) or among the parameters of a call: it stays for ever on a token
    that [walk] has no branch for ([None]); or it reads a token past the end
    of the list, behind the parameters of a call that is not closed or
    behind an opening paren ([Some] of the error); or one of these happens
    in a call that starts here. *)
Inductive broken : bool -> list token -> option error -> Prop :=
| broken_stall top tok rest :
    no_branch tok -> (top = false -> not_closing tok = true) ->
    broken top (tok :: rest) None
| broken_end : broken false [] (Some (EngineTypeError "type"))
| broken_open top : broken top [lp] (Some (EngineTypeError "value"))
| broken_call top nm ptoks ps rest r :
    spelled_all ptoks ps -> broken false rest r ->
    broken top (lp :: nm :: ptoks ++ rest) r.

(** The outcome of a run that does not return: an error, or no end. *)
Definition failure {A} (r : option error) : outcome A :=
  match r with
  | Some e => Throw e
  | None => OutOfFuel
  end.

(** A target Program with one literal in a heap. *)
Definition example_target_heap : heap :=
  [ Obj ∅ (Some [VRef 2]);
    Obj (list_to_map [("type", VString (js "Program")); ("body", VRef 0)]) None;
    Obj (list_to_map [("type", VString (js "NumberLiteral"));
                      ("value", VString (js "7"))]) None ].

(** Two objects with a type that the traverser, or the code generator,
    does not know. *)
Definition example_unknown_heap : heap :=
  [ Obj (list_to_map [("type", VString (js "Identifier"));
                      ("name", VString (js "f"))]) None;
    Obj (list_to_map [("type", VString (js "Comment"))]) None ].

(** * Theorems *)

(** ** Tokenizer: fuel *)

Lemma string_loop_S fuel input current value char r :
  string_loop fuel input current value char = Some r ->
  string_loop (S fuel) input current value char = Some r.
Proof.
  revert current value char.
  induction fuel as [|fuel IH]; intros current value char H; [discriminate|].
  cbn [string_loop] in H. cbn [string_loop].
  destruct (bool_decide (char ≠ Some dquote)); [|exact H].
  apply IH in H. exact H.
Qed.

Lemma name_loop_S fuel input current value char r :
  name_loop fuel input current value char = Some r ->
  name_loop (S fuel) input current value char = Some r.
Proof.
  revert current value char.
  induction fuel as [|fuel IH]; intros current value char H; [discriminate|].
  cbn [name_loop] in H. cbn [name_loop].
  destruct (LETTER_test char); [|exact H].
  apply IH in H. exact H.
Qed.

(** Unfold one iteration of a loop whose fuel is a successor, in the goal. *)
Ltac unfold_once f :=
  match goal with
  | |- context [f (S ?n)] =>
      let n' := fresh "fuel'" in
      set (n' := n); cbn [f]; subst n'
  end.

Lemma tokenizer_loop_S fuel input current tokens r :
  tokenizer_loop fuel input current tokens = r -> r <> OutOfFuel ->
  tokenizer_loop (S fuel) input current tokens = r.
Proof.
  revert current tokens.
  induction fuel as [|fuel IH]; intros current tokens H Hr;
    [cbn in H; congruence|].
  cbn [tokenizer_loop] in H. unfold_once tokenizer_loop.
  destruct (bool_decide (current < length input)); [|exact H].
  destruct (_ || _); [auto|].
  destruct (WS_test _); [auto|].
  destruct (NUMBER_test _); [auto|].
  destruct (bool_decide (_ = Some dquote)).
  { destruct (string_loop fuel _ _ _ _) as [[[c v] ch]|] eqn:E; [|congruence].
    rewrite (string_loop_S _ _ _ _ _ _ E). auto. }
  destruct (LETTER_test _); [|exact H].
  destruct (name_loop fuel _ _ _ _) as [[[c v] ch]|] eqn:E; [|congruence].
  rewrite (name_loop_S _ _ _ _ _ _ E). auto.
Qed.

Lemma tokenizer_loop_mono fuel fuel' input current tokens r :
  tokenizer_loop fuel input current tokens = r -> r <> OutOfFuel ->
  fuel <= fuel' ->
  tokenizer_loop fuel' input current tokens = r.
Proof.
  intros H Hr Hle. induction Hle; [exact H|].
  apply tokenizer_loop_S; assumption.
Qed.

(** ** Tokenizer: the two inner loops past the end of the input *)

(** Past the end of the input [char] is [undefined], whose text
    [undefined] is made of letters: the name loop goes on. *)
Lemma LETTER_test_undefined : LETTER_test None = true.
Proof. reflexivity. Qed.

Lemma name_loop_diverges fuel input current value char :
  LETTER_test char = true ->
  (forall k, current < k -> LETTER_test (input !! k) = true) ->
  name_loop fuel input current value char = None.
Proof.
  revert current value char.
  induction fuel as [|fuel IH]; intros current value char Hc Hrest; [reflexivity|].
  cbn [name_loop]. rewrite Hc. apply IH.
  - apply Hrest. lia.
  - intros k Hk. apply Hrest. lia.
Qed.

Lemma string_loop_diverges fuel input current value char :
  char <> Some dquote ->
  (forall k, current < k -> input !! k <> Some dquote) ->
  string_loop fuel input current value char = None.
Proof.
  revert current value char.
  induction fuel as [|fuel IH]; intros current value char Hc Hrest; [reflexivity|].
  cbn [string_loop]. rewrite bool_decide_eq_true_2 by exact Hc. apply IH.
  - apply Hrest. lia.
  - intros k Hk. apply Hrest. lia.
Qed.

(** A loop that returns has stopped on a character of the input, and
    runs the same way on every extension of the input. *)
Lemma string_loop_prefix fuel pre suf current value r :
  string_loop fuel pre current value (pre !! current) = Some r ->
  r.1.1 < length pre /\
  string_loop fuel (pre ++ suf) current value ((pre ++ suf) !! current) = Some r.
Proof.
  revert current value.
  induction fuel as [|fuel IH]; intros current value H; [discriminate|].
  cbn [string_loop] in H. cbn [string_loop].
  destruct (pre !! current) as [c|] eqn:Ec.
  - assert (Hlt : current < length pre) by (eapply lookup_lt_Some; eauto).
    rewrite (lookup_app_l pre) by exact Hlt. rewrite Ec.
    case_bool_decide as Hq.
    + apply IH in H. exact H.
    + inversion H; subst r. split; [exact Hlt|reflexivity].
  - exfalso. apply lookup_ge_None in Ec.
    rewrite bool_decide_eq_true_2 in H by discriminate.
    rewrite string_loop_diverges in H; [discriminate| |].
    + intros E. apply lookup_lt_Some in E. lia.
    + intros k Hk E. apply lookup_lt_Some in E. lia.
Qed.

Lemma name_loop_prefix fuel pre suf current value r :
  name_loop fuel pre current value (pre !! current) = Some r ->
  r.1.1 < length pre /\
  name_loop fuel (pre ++ suf) current value ((pre ++ suf) !! current) = Some r.
Proof.
  revert current value.
  induction fuel as [|fuel IH]; intros current value H; [discriminate|].
  cbn [name_loop] in H. cbn [name_loop].
  destruct (pre !! current) as [c|] eqn:Ec.
  - assert (Hlt : current < length pre) by (eapply lookup_lt_Some; eauto).
    rewrite (lookup_app_l pre) by exact Hlt. rewrite Ec.
    destruct (LETTER_test (Some c)) eqn:Hq.
    + apply IH in H. exact H.
    + inversion H; subst r. split; [exact Hlt|reflexivity].
  - exfalso. apply lookup_ge_None in Ec.
    rewrite LETTER_test_undefined in H.
    rewrite name_loop_diverges in H; [discriminate| |].
    { rewrite (proj2 (lookup_ge_None pre (S current))) by lia. reflexivity. }
    intros k Hk. rewrite (proj2 (lookup_ge_None pre k)) by lia. reflexivity.
Qed.

Lemma string_loop_mono fuel fuel' input current value char r :
  string_loop fuel input current value char = Some r -> fuel <= fuel' ->
  string_loop fuel' input current value char = Some r.
Proof.
  intros H Hle. induction Hle; [exact H|]. apply string_loop_S. assumption.
Qed.

Lemma name_loop_mono fuel fuel' input current value char r :
  name_loop fuel input current value char = Some r -> fuel <= fuel' ->
  name_loop fuel' input current value char = Some r.
Proof.
  intros H Hle. induction Hle; [exact H|]. apply name_loop_S. assumption.
Qed.

(** With less fuel an inner loop gives the same result or none. *)
Lemma string_loop_less fuel fuel' input current value char r :
  string_loop fuel input current value char = Some r ->
  string_loop fuel' input current value char = None
  \/ string_loop fuel' input current value char = Some r.
Proof.
  intros H.
  destruct (string_loop fuel' input current value char) as [r'|] eqn:E;
    [right|left; reflexivity].
  apply (string_loop_mono _ (fuel + fuel')) in H; [|lia].
  apply (string_loop_mono _ (fuel + fuel')) in E; [|lia]. congruence.
Qed.

Lemma name_loop_less fuel fuel' input current value char r :
  name_loop fuel input current value char = Some r ->
  name_loop fuel' input current value char = None
  \/ name_loop fuel' input current value char = Some r.
Proof.
  intros H.
  destruct (name_loop fuel' input current value char) as [r'|] eqn:E;
    [right|left; reflexivity].
  apply (name_loop_mono _ (fuel + fuel')) in H; [|lia].
  apply (name_loop_mono _ (fuel + fuel')) in E; [|lia]. congruence.
Qed.

(** ** Tokenizer: a prefix that tokenizes on its own *)

(** If [pre] alone tokenizes to [toks], the tokenizer run on [pre ++ suf]
    is, with any fuel, either unfinished or the run that starts behind
    [pre] with [toks] collected. *)
Lemma tokenizer_loop_prefix fuel' fuel pre suf current tokens toks :
  tokenizer_loop fuel pre current tokens = Return toks ->
  current <= length pre ->
  tokenizer_loop fuel' (pre ++ suf) current tokens = OutOfFuel
  \/ tokenizer_loop fuel' (pre ++ suf) current tokens
     = tokenizer_loop fuel' (pre ++ suf) (length pre) toks.
Proof.
  revert fuel current tokens.
  induction fuel' as [|fuel' IH]; intros fuel current tokens H Hle;
    [left; reflexivity|].
  assert (Hstep : forall c t,
    tokenizer_loop fuel' (pre ++ suf) c t = OutOfFuel
    \/ tokenizer_loop fuel' (pre ++ suf) c t
       = tokenizer_loop fuel' (pre ++ suf) (length pre) toks ->
    tokenizer_loop fuel' (pre ++ suf) c t = OutOfFuel
    \/ tokenizer_loop fuel' (pre ++ suf) c t
       = tokenizer_loop (S fuel') (pre ++ suf) (length pre) toks).
  { intros c t [E|E]; [left; exact E|].
    destruct (tokenizer_loop fuel' (pre ++ suf) (length pre) toks) eqn:Er;
      [right|right|left; exact E];
      rewrite E; symmetry; apply tokenizer_loop_S; congruence. }
  destruct fuel as [|fuel]; [discriminate|].
  cbn [tokenizer_loop] in H.
  destruct (decide (current = length pre)) as [->|Hne].
  { rewrite bool_decide_eq_false_2 in H by lia. inversion H. right; reflexivity. }
  assert (Hlt : current < length pre) by lia.
  rewrite bool_decide_eq_true_2 in H by exact Hlt.
  match goal with |- ?a = _ \/ ?a = ?b =>
    let a' := eval cbn [tokenizer_loop] in a in change (a' = OutOfFuel \/ a' = b)
  end.
  rewrite bool_decide_eq_true_2 by (rewrite length_app; lia).
  rewrite (lookup_app_l pre) by exact Hlt.
  destruct (_ || _); [apply Hstep; eapply IH; [exact H|lia]|].
  destruct (WS_test _); [apply Hstep; eapply IH; [exact H|lia]|].
  destruct (NUMBER_test _); [apply Hstep; eapply IH; [exact H|lia]|].
  destruct (bool_decide (_ = Some dquote)).
  { destruct (string_loop fuel _ _ _ _) as [[[c v] ch]|] eqn:E; [|discriminate].
    apply (string_loop_prefix _ _ suf) in E as [Hc E].
    cbn in Hc. destruct (string_loop_less _ fuel' _ _ _ _ _ E) as [-> | ->];
      [left; reflexivity|].
    apply Hstep. eapply IH; [exact H|lia]. }
  destruct (LETTER_test _) eqn:El; [|discriminate].
  destruct (name_loop fuel _ _ _ _) as [[[c v] ch]|] eqn:E; [|discriminate].
  apply (name_loop_prefix _ _ suf) in E as [Hc E].
  cbn in Hc. rewrite (lookup_app_l pre) in E by exact Hlt.
  destruct (name_loop_less _ fuel' _ _ _ _ _ E) as [-> | ->];
    [left; reflexivity|].
  apply Hstep. eapply IH; [exact H|lia].
Qed.

(** With enough fuel the run on [pre ++ suf] does get behind [pre]. *)
Lemma tokenizer_loop_prefix_reach fuel k pre suf current tokens toks r :
  tokenizer_loop fuel pre current tokens = Return toks ->
  current <= length pre ->
  tokenizer_loop k (pre ++ suf) (length pre) toks = r -> r <> OutOfFuel ->
  tokenizer_loop (fuel + k) (pre ++ suf) current tokens = r.
Proof.
  revert current tokens.
  induction fuel as [|fuel IH]; intros current tokens H Hle Hr Hne;
    [discriminate|].
  cbn [tokenizer_loop] in H.
  destruct (decide (current = length pre)) as [->|Hcur].
  { rewrite bool_decide_eq_false_2 in H by lia. inversion H; subst tokens.
    eapply tokenizer_loop_mono; [exact Hr|exact Hne|lia]. }
  assert (Hlt : current < length pre) by lia.
  rewrite bool_decide_eq_true_2 in H by exact Hlt.
  change (S fuel + k) with (S (fuel + k)). unfold_once tokenizer_loop.
  rewrite bool_decide_eq_true_2 by (rewrite length_app; lia).
  rewrite (lookup_app_l pre) by exact Hlt.
  destruct (_ || _); [apply IH; [exact H|lia|exact Hr|exact Hne]|].
  destruct (WS_test _); [apply IH; [exact H|lia|exact Hr|exact Hne]|].
  destruct (NUMBER_test _); [apply IH; [exact H|lia|exact Hr|exact Hne]|].
  destruct (bool_decide (_ = Some dquote)).
  { destruct (string_loop fuel _ _ _ _) as [[[c v] ch]|] eqn:E; [|discriminate].
    apply (string_loop_prefix _ _ suf) in E as [Hc E]. cbn in Hc.
    rewrite (string_loop_mono _ (fuel + k) _ _ _ _ _ E) by lia.
    apply IH; [exact H|lia|exact Hr|exact Hne]. }
  destruct (LETTER_test _) eqn:El; [|discriminate].
  destruct (name_loop fuel _ _ _ _) as [[[c v] ch]|] eqn:E; [|discriminate].
  apply (name_loop_prefix _ _ suf) in E as [Hc E]. cbn in Hc.
  rewrite (lookup_app_l pre) in E by exact Hlt.
  rewrite (name_loop_mono _ (fuel + k) _ _ _ _ _ E) by lia.
  apply IH; [exact H|lia|exact Hr|exact Hne].
Qed.

(** Tokens are only ever appended. *)
Lemma tokenizer_loop_extends fuel input current tokens out :
  tokenizer_loop fuel input current tokens = Return out ->
  exists rest, out = tokens ++ rest.
Proof.
  revert current tokens.
  induction fuel as [|fuel IH]; intros current tokens H; [discriminate|].
  cbn [tokenizer_loop] in H.
  assert (Hpush : forall c t, tokenizer_loop fuel input c (tokens ++ [t]) = Return out ->
                         exists rest, out = tokens ++ rest).
  { intros c t E. apply IH in E as [rest ->]. rewrite <- app_assoc. eauto. }
  destruct (bool_decide (current < length input));
    [|inversion H; exists []; rewrite app_nil_r; reflexivity].
  destruct (_ || _); [eauto|].
  destruct (WS_test _); [eauto|].
  destruct (NUMBER_test _); [eauto|].
  destruct (bool_decide (_ = Some dquote)).
  { destruct (string_loop fuel _ _ _ _) as [[[c v] ch]|]; [eauto|discriminate]. }
  destruct (LETTER_test _); [|discriminate].
  destruct (name_loop fuel _ _ _ _) as [[[c v] ch]|]; [eauto|discriminate].
Qed.

(** ** Tokenizer: the character classes are disjoint *)

Lemma is_space_false (c : N) :
  (14 <= c)%N -> (c < 160)%N -> c <> 32%N -> is_space c = false.
Proof.
  intros H1 H2 H3. unfold is_space.
  rewrite (proj2 (N.leb_gt c 13)) by lia.
  rewrite (proj2 (N.leb_gt 8192 c)) by lia.
  rewrite !(proj2 (N.eqb_neq c _)) by lia.
  rewrite andb_false_r. reflexivity.
Qed.

Lemma is_digit_range (c : N) : is_digit c = true <-> (48 <= c <= 57)%N.
Proof.
  unfold is_digit. rewrite andb_true_iff, !N.leb_le. reflexivity.
Qed.

Lemma is_letter_range (c : N) :
  is_letter c = true <-> (97 <= c <= 122)%N \/ (65 <= c <= 90)%N.
Proof.
  unfold is_letter. rewrite orb_true_iff, !andb_true_iff, !N.leb_le. reflexivity.
Qed.

Lemma paren_test_false (c : N) :
  c <> lparen -> c <> rparen ->
  bool_decide (Some c = Some lparen) || bool_decide (Some c = Some rparen) = false.
Proof.
  intros H1 H2. rewrite !bool_decide_eq_false_2 by congruence. reflexivity.
Qed.

Lemma class_test_one (p : N -> bool) (c : N) : existsb p (ToString (Some c)) = p c.
Proof. cbn. apply orb_false_r. Qed.

(** What the main loop does on a digit, on a letter and on a character of
    no class. *)
Lemma tokenizer_loop_digit fuel input current tokens d :
  input !! current = Some d -> is_digit d = true ->
  tokenizer_loop (S fuel) input current tokens
  = tokenizer_loop fuel input (S current) (tokens ++ [Token (js "number") [d]]).
Proof.
  intros Hd Hdig. cbn [tokenizer_loop].
  rewrite bool_decide_eq_true_2 by (eapply lookup_lt_Some; eauto).
  rewrite Hd. apply is_digit_range in Hdig as Hr.
  rewrite paren_test_false by (unfold lparen, rparen; lia).
  unfold WS_test, NUMBER_test. rewrite !class_test_one.
  rewrite is_space_false by lia. rewrite Hdig. reflexivity.
Qed.

Lemma tokenizer_loop_letter fuel input current tokens c :
  input !! current = Some c -> is_letter c = true ->
  tokenizer_loop (S fuel) input current tokens
  = match name_loop fuel input current [] (Some c) with
    | None => OutOfFuel
    | Some (current, value, _) =>
        tokenizer_loop fuel input current (tokens ++ [Token (js "name") value])
    end.
Proof.
  intros Hc Hl. cbn [tokenizer_loop].
  rewrite bool_decide_eq_true_2 by (eapply lookup_lt_Some; eauto).
  rewrite Hc. apply is_letter_range in Hl as Hr.
  rewrite paren_test_false by (unfold lparen, rparen; lia).
  unfold WS_test, NUMBER_test, LETTER_test. rewrite !class_test_one.
  rewrite is_space_false by lia.
  replace (is_digit c) with false
    by (symmetry; apply not_true_is_false; rewrite is_digit_range; lia).
  rewrite bool_decide_eq_false_2 by (unfold dquote; intros [= E]; lia).
  rewrite Hl. reflexivity.
Qed.

Lemma tokenizer_loop_unrecognized fuel input current tokens c :
  input !! current = Some c -> unrecognized c = true ->
  tokenizer_loop (S fuel) input current tokens
  = Throw (SyntaxError (unknown_character_message c)).
Proof.
  intros Hc Hu. unfold unrecognized in Hu.
  rewrite !andb_true_iff, !negb_true_iff, !N.eqb_neq in Hu.
  destruct Hu as [[[[[H1 H2] H3] H4] H5] H6].
  cbn [tokenizer_loop].
  rewrite bool_decide_eq_true_2 by (eapply lookup_lt_Some; eauto).
  rewrite Hc, paren_test_false by assumption.
  unfold WS_test, NUMBER_test, LETTER_test. rewrite !class_test_one.
  rewrite H3, H4, H6. rewrite bool_decide_eq_false_2 by congruence.
  reflexivity.
Qed.

(** A run of digits is consumed one digit, one token and one unit of fuel
    at a time. *)
Lemma tokenizer_loop_digits ds fuel input current tokens :
  Forall (fun d => is_digit d = true) ds ->
  (forall i d, ds !! i = Some d -> input !! (current + i) = Some d) ->
  tokenizer_loop (length ds + fuel) input current tokens
  = tokenizer_loop fuel input (current + length ds)
      (tokens ++ map (fun d => Token (js "number") [d]) ds).
Proof.
  revert current tokens.
  induction ds as [|d ds IH]; intros current tokens Hds Hin.
  - cbn. rewrite Nat.add_0_r, app_nil_r. reflexivity.
  - inversion Hds as [|? ? Hd Hds']; subst.
    cbn [length Nat.add map].
    rewrite (tokenizer_loop_digit _ _ _ _ d);
      [|rewrite <- (Nat.add_0_r current); apply Hin; reflexivity|exact Hd].
    rewrite IH; [|exact Hds'|].
    + rewrite <- app_assoc. cbn [app]. f_equal. lia.
    + intros i x Hx. replace (S current + i) with (current + S i) by lia.
      apply Hin. exact Hx.
Qed.


(** Every error of the tokenizer is the one of line 103, for a character
    of the input that belongs to no class. *)
Lemma tokenizer_loop_throws fuel input current tokens e :
  tokenizer_loop fuel input current tokens = Throw e ->
  exists i c, input !! i = Some c /\ unrecognized c = true
              /\ e = SyntaxError (unknown_character_message c).
Proof.
  revert current tokens.
  induction fuel as [|fuel IH]; intros current tokens H; [discriminate|].
  cbn [tokenizer_loop] in H.
  destruct (bool_decide (current < length input)) eqn:Hlt; [|discriminate].
  apply bool_decide_eq_true_1 in Hlt.
  destruct (lookup_lt_is_Some_2 _ _ Hlt) as [c Hc]. rewrite Hc in H.
  destruct (_ || _) eqn:Hp; [eauto|].
  destruct (WS_test _) eqn:Hw; [eauto|].
  destruct (NUMBER_test _) eqn:Hn; [eauto|].
  destruct (bool_decide (_ = Some dquote)) eqn:Hq.
  { destruct (string_loop fuel _ _ _ _) as [[[c' v] ch]|]; [eauto|discriminate]. }
  destruct (LETTER_test _) eqn:Hl.
  { destruct (name_loop fuel _ _ _ _) as [[[c' v] ch]|]; [eauto|discriminate]. }
  inversion H; subst e. exists current, c. split; [exact Hc|]. split; [|reflexivity].
  unfold WS_test, NUMBER_test, LETTER_test in *. rewrite class_test_one in *.
  apply orb_false_iff in Hp as [Hp1 Hp2].
  apply bool_decide_eq_false_1 in Hp1, Hp2, Hq.
  unfold unrecognized. rewrite Hw, Hn, Hl.
  rewrite !(proj2 (N.eqb_neq c _)) by congruence. reflexivity.
Qed.

(** An opening double quote with no closing one after it: whatever the
    fuel, the tokenizer is still scanning. *)
Lemma tokenizer_loop_unterminated fuel input current tokens :
  input !! current = Some dquote ->
  (forall k, current < k -> input !! k <> Some dquote) ->
  tokenizer_loop fuel input current tokens = OutOfFuel.
Proof.
  intros Hq Hrest. destruct fuel as [|fuel]; [reflexivity|].
  cbn [tokenizer_loop].
  rewrite bool_decide_eq_true_2 by (eapply lookup_lt_Some; eauto).
  rewrite Hq. cbn -[string_loop js].
  rewrite string_loop_diverges; [reflexivity| |].
  - apply Hrest. lia.
  - intros k Hk. apply Hrest. lia.
Qed.

(** A name that runs to the end of the input: the same. *)
Lemma tokenizer_loop_name_at_end fuel input current tokens c :
  input !! current = Some c -> is_letter c = true ->
  (forall k x, current < k -> input !! k = Some x -> is_letter x = true) ->
  tokenizer_loop fuel input current tokens = OutOfFuel.
Proof.
  intros Hc Hl Hrest. destruct fuel as [|fuel]; [reflexivity|].
  rewrite (tokenizer_loop_letter _ _ _ _ c Hc Hl).
  rewrite name_loop_diverges; [reflexivity| |].
  - unfold LETTER_test. rewrite class_test_one. exact Hl.
  - intros k Hk. destruct (input !! k) as [x|] eqn:Ex; [|reflexivity].
    unfold LETTER_test. rewrite class_test_one. eapply Hrest; eauto.
Qed.

(** Behind a prefix that tokenizes on its own, a run of letters up to the
    end of the input keeps the tokenizer in the name loop for ever. *)
Lemma tokenizer_name_at_end pre c letters fuel0 toks fuel :
  tokenizer fuel0 pre = Return toks ->
  Forall (fun x => is_letter x = true) (c :: letters) ->
  tokenizer fuel (pre ++ c :: letters) = OutOfFuel.
Proof.
  intros Hpre Hl. unfold tokenizer in *.
  destruct (tokenizer_loop_prefix fuel fuel0 pre (c :: letters) 0 [] toks Hpre)
    as [E|E]; [lia|exact E|].
  rewrite E. inversion Hl as [|? ? Hc Hrest]; subst.
  apply (tokenizer_loop_name_at_end _ _ _ _ c).
  - rewrite lookup_app_r, Nat.sub_diag by lia. reflexivity.
  - exact Hc.
  - intros k x Hk Hx. rewrite lookup_app_r in Hx by lia.
    apply list_elem_of_lookup_2 in Hx.
    exact (proj1 (Forall_forall _ _) Hl x Hx).
Qed.

(** ** Tokenizer: claim C3 *)

(** C3.  The specification says that an opening double quote with no
    closing one makes [tokenize] fail with a LexError.  The string-mode
    loop has no end-of-input test: when the text before the quote tokenizes
    on its own and no double quote follows, the tokenizer is unfinished
    with every amount of fuel; it neither throws nor returns. *)
Theorem C3_unterminated_string_never_finishes
    (pre rest : jsstring) (fuel0 : nat) (toks : list token) (fuel : nat) :
  tokenizer fuel0 pre = Return toks ->
  dquote ∉ rest ->
  tokenizer fuel (pre ++ (dquote :: rest)) = OutOfFuel.
Proof.
  intros Hpre Hrest. unfold tokenizer in *.
  destruct (tokenizer_loop_prefix fuel fuel0 pre (dquote :: rest) 0 [] toks Hpre)
    as [E|E]; [lia|exact E|].
  rewrite E. apply tokenizer_loop_unterminated.
  - rewrite lookup_app_r, Nat.sub_diag by lia. reflexivity.
  - intros k Hk. rewrite lookup_app_r by lia.
    destruct (k - length pre) as [|j] eqn:Ej; [lia|]. cbn.
    intros Ed. apply Hrest. eapply list_elem_of_lookup_2. exact Ed.
Qed.

Lemma C3_witness :
  tokenizer 6 (js "(add ") = Return [Token (js "paren") (js "(");
                                     Token (js "name") (js "add")]
  /\ (dquote ∉ js "abc")
  /\ tokenizer 1000 (js "(add " ++ (dquote :: js "abc")) = OutOfFuel.
Proof.
  assert (H1 : tokenizer 6 (js "(add ")
               = Return [Token (js "paren") (js "("); Token (js "name") (js "add")])
    by (vm_compute; reflexivity).
  assert (H2 : dquote ∉ js "abc").
  { intros H. vm_compute in H.
    repeat (apply elem_of_cons in H as [H|H]; [discriminate|]).
    inversion H. }
  split; [exact H1|]. split; [exact H2|].
  exact (C3_unterminated_string_never_finishes _ _ _ _ 1000 H1 H2).
Defined.

(** ** Heap computations *)

Lemma bind_Return {A B} (m : M A) (k : A -> M B) h a h' :
  m h = Return (a, h') -> bind m k h = k a h'.
Proof. intros E. unfold bind. rewrite E. reflexivity. Qed.

Lemma bind_Throw {A B} (m : M A) (k : A -> M B) h e :
  m h = Throw e -> bind m k h = Throw e.
Proof. intros E. unfold bind. rewrite E. reflexivity. Qed.

Lemma bind_OutOfFuel {A B} (m : M A) (k : A -> M B) h :
  m h = OutOfFuel -> bind m k h = OutOfFuel.
Proof. intros E. unfold bind. rewrite E. reflexivity. Qed.

Lemma monotone_le {A} (f : nat -> M A) fuel fuel' h r :
  monotone f -> f fuel h = r -> r <> OutOfFuel -> fuel <= fuel' ->
  f fuel' h = r.
Proof.
  intros Hm H Hr Hle. induction Hle; [exact H|]. apply Hm; assumption.
Qed.

Lemma bind_monotone {A B} (m m' : M A) (k k' : A -> M B) h r :
  bind m k h = r -> r <> OutOfFuel ->
  (forall x, m h = x -> x <> OutOfFuel -> m' h = x) ->
  (forall a h' x, m h = Return (a, h') -> k a h' = x -> x <> OutOfFuel ->
                  k' a h' = x) ->
  bind m' k' h = r.
Proof.
  intros H Hr Hm Hk. unfold bind in *.
  destruct (m h) as [[a h']| |] eqn:E.
  - rewrite (Hm _ eq_refl) by discriminate. eapply Hk; eauto.
  - rewrite (Hm _ eq_refl) by discriminate. exact H.
  - congruence.
Qed.

(** ** Parser: fuel *)

Lemma walk_params_loop_monotone :
  forall fuel,
    (forall tokens current h r,
        walk fuel tokens current h = r -> r <> OutOfFuel ->
        walk (S fuel) tokens current h = r) /\
    (forall tokens current node h r,
        params_loop fuel tokens current node h = r -> r <> OutOfFuel ->
        params_loop (S fuel) tokens current node h = r).
Proof.
  induction fuel as [|fuel [IHw IHp]].
  { split; intros; cbn in *; unfold out_of_fuel in *; congruence. }
  split.
  - intros tokens current h r H Hr.
    cbn [walk] in H. unfold_once walk.
    destruct (tokens !! current) as [token|]; [|exact H].
    destruct (bool_decide (type token = js "number")); [exact H|].
    destruct (bool_decide (type token = js "string")); [exact H|].
    destruct (_ && _); [|exact H].
    destruct (tokens !! S current) as [token'|]; [|exact H].
    eapply bind_monotone; [exact H|exact Hr|auto|].
    intros params h1 x1 _ H1 Hx1.
    eapply bind_monotone; [exact H1|exact Hx1|auto|].
    intros node h2 x2 _ H2 Hx2.
    eapply bind_monotone; [exact H2|exact Hx2| |auto].
    intros x Hx Hne. apply IHp; assumption.
  - intros tokens current node h r H Hr.
    cbn [params_loop] in H. unfold_once params_loop.
    destruct (tokens !! current) as [token|]; [|exact H].
    destruct (_ || _); [|exact H].
    eapply bind_monotone; [exact H|exact Hr|auto|].
    intros params h1 x1 _ H1 Hx1.
    eapply bind_monotone; [exact H1|exact Hx1| |].
    { intros x Hx Hne. apply IHw; assumption. }
    intros [child current'] h2 x2 _ H2 Hx2.
    eapply bind_monotone; [exact H2|exact Hx2|auto|].
    intros [] h3 x3 _ H3 Hx3. apply IHp; assumption.
Qed.

Lemma walk_monotone tokens current :
  monotone (fun fuel => walk fuel tokens current).
Proof. intros fuel h r. apply walk_params_loop_monotone. Qed.

Lemma parser_loop_monotone tokens current ast :
  monotone (fun fuel => parser_loop fuel tokens current ast).
Proof.
  intros fuel. revert current.
  induction fuel as [|fuel IH]; intros current h r H Hr;
    [cbn in H; unfold out_of_fuel in H; congruence|].
  cbn [parser_loop] in H. unfold_once parser_loop.
  destruct (bool_decide (current < length tokens)); [|exact H].
  eapply bind_monotone; [exact H|exact Hr|auto|].
  intros body h1 x1 _ H1 Hx1.
  eapply bind_monotone; [exact H1|exact Hx1| |].
  { intros x Hx Hne. apply walk_monotone; assumption. }
  intros [child current'] h2 x2 _ H2 Hx2.
  eapply bind_monotone; [exact H2|exact Hx2|auto|].
  intros [] h3 x3 _ H3 Hx3. apply IH; assumption.
Qed.

Lemma parser_monotone tokens : monotone (fun fuel => parser fuel tokens).
Proof.
  intros fuel h r H Hr. unfold parser in *.
  eapply bind_monotone; [exact H|exact Hr|auto|].
  intros body h1 x1 _ H1 Hx1.
  eapply bind_monotone; [exact H1|exact Hx1|auto|].
  intros ast h2 x2 _ H2 Hx2.
  eapply bind_monotone; [exact H2|exact Hx2| |auto].
  intros x Hx Hne. apply parser_loop_monotone; assumption.
Qed.

(** ** Parser: a token with no branch *)

Lemma get_ref l k h o :
  h !! l = Some o -> get (VRef l) k h = Return (default VUndefined (props o !! k), h).
Proof. intros E. unfold get. rewrite E. reflexivity. Qed.

Lemma push_ref l x h p es :
  h !! l = Some (Obj p (Some es)) ->
  push (VRef l) x h = Return (tt, <[l := Obj p (Some (es ++ [x]))]> h).
Proof. intros E. unfold push. rewrite E. reflexivity. Qed.

(** On such a token [walk] returns [undefined] and leaves the cursor where
    it is. *)
Lemma walk_no_branch fuel tokens current token h :
  tokens !! current = Some token -> no_branch token ->
  walk (S fuel) tokens current h = Return ((VUndefined, current), h).
Proof.
  intros Ht (Hn & Hs & Hp). cbn [walk]. rewrite Ht.
  rewrite !bool_decide_eq_false_2 by assumption.
  destruct (bool_decide (type token = js "paren")) eqn:E1;
    destruct (bool_decide (value token = js "(")) eqn:E2; try reflexivity.
  apply bool_decide_eq_true_1 in E1, E2. tauto.
Qed.

(** The top-level loop then pushes [undefined] and calls [walk] on the same
    token again, for ever. *)
Lemma parser_loop_stuck fuel tokens current token l b o p es h :
  tokens !! current = Some token -> no_branch token ->
  h !! l = Some o -> props o !! "body" = Some (VRef b) ->
  h !! b = Some (Obj p (Some es)) ->
  parser_loop fuel tokens current (VRef l) h = OutOfFuel.
Proof.
  intros Ht Hno. revert o p es h.
  induction fuel as [|fuel IH]; intros o p es h Hl Hbody Hb; [reflexivity|].
  cbn [parser_loop].
  rewrite bool_decide_eq_true_2 by (eapply lookup_lt_Some; eauto).
  rewrite (bind_Return _ _ _ _ _ (get_ref _ _ _ _ Hl)). rewrite Hbody. cbn [default].
  destruct fuel as [|fuel]; [reflexivity|].
  rewrite (bind_Return _ _ _ _ _ (walk_no_branch _ _ _ _ _ Ht Hno)).
  rewrite (bind_Return _ _ _ _ _ (push_ref _ _ _ _ _ Hb)).
  destruct (decide (l = b)) as [->|Hne].
  - rewrite Hl in Hb. inversion Hb; subst o.
    eapply IH with (o := Obj p (Some (es ++ [VUndefined]))).
    + apply list_lookup_insert_eq. eapply lookup_lt_Some; eauto.
    + exact Hbody.
    + apply list_lookup_insert_eq. eapply lookup_lt_Some; eauto.
  - eapply IH with (o := o).
    + rewrite list_lookup_insert_ne by congruence. exact Hl.
    + exact Hbody.
    + apply list_lookup_insert_eq. eapply lookup_lt_Some; eauto.
Qed.

(** ** Traverser, transformer and code generator: fuel *)

Lemma forEach_from_monotone n k a (f f' : val -> M unit) h r :
  (forall x h r, f x h = r -> r <> OutOfFuel -> f' x h = r) ->
  forEach_from n k a f h = r -> r <> OutOfFuel ->
  forEach_from n k a f' h = r.
Proof.
  intros Hf. revert k h r.
  induction n as [|n IH]; intros k h r H Hr; [exact H|].
  cbn [forEach_from] in *.
  eapply bind_monotone; [exact H|exact Hr|auto|].
  intros x h1 x1 _ H1 Hx1.
  eapply bind_monotone; [exact H1|exact Hx1| |].
  - destruct x; auto.
  - intros [] h2 x2 _ H2 Hx2. apply IH; assumption.
Qed.

Lemma forEach_monotone a (f f' : val -> M unit) h r :
  (forall x h r, f x h = r -> r <> OutOfFuel -> f' x h = r) ->
  forEach a f h = r -> r <> OutOfFuel -> forEach a f' h = r.
Proof.
  intros Hf H Hr. unfold forEach in *.
  eapply bind_monotone; [exact H|exact Hr|auto|].
  intros n h1 x1 _ H1 Hx1. eapply forEach_from_monotone; eauto.
Qed.

Lemma map_from_monotone n k a (f f' : val -> M val) h r :
  (forall x h r, f x h = r -> r <> OutOfFuel -> f' x h = r) ->
  map_from n k a f h = r -> r <> OutOfFuel ->
  map_from n k a f' h = r.
Proof.
  intros Hf. revert k h r.
  induction n as [|n IH]; intros k h r H Hr; [exact H|].
  cbn [map_from] in *.
  eapply bind_monotone; [exact H|exact Hr|auto|].
  intros x h1 x1 _ H1 Hx1.
  eapply bind_monotone; [exact H1|exact Hx1| |].
  - destruct x; auto.
  - intros y h2 x2 _ H2 Hx2.
    eapply bind_monotone; [exact H2|exact Hx2| |auto].
    intros x3 H3 Hx3. apply IH; assumption.
Qed.

Lemma array_map_monotone a (f f' : val -> M val) h r :
  (forall x h r, f x h = r -> r <> OutOfFuel -> f' x h = r) ->
  array_map a f h = r -> r <> OutOfFuel -> array_map a f' h = r.
Proof.
  intros Hf H Hr. unfold array_map in *.
  eapply bind_monotone; [exact H|exact Hr|auto|].
  intros n h1 x1 _ H1 Hx1. eapply map_from_monotone; eauto.
Qed.

Lemma traverseNode_monotone v node parent :
  monotone (fun fuel => traverseNode fuel v node parent).
Proof.
  intros fuel. revert node parent.
  induction fuel as [|fuel IH]; intros node parent h r H Hr;
    [cbn in H; unfold out_of_fuel in H; congruence|].
  cbn [traverseNode] in H. unfold_once traverseNode.
  eapply bind_monotone; [exact H|exact Hr|auto|].
  intros ty h1 x1 _ H1 Hx1.
  eapply bind_monotone; [exact H1|exact Hx1|auto|].
  intros [] h2 x2 _ H2 Hx2.
  eapply bind_monotone; [exact H2|exact Hx2|auto|].
  intros ty' h3 x3 _ H3 Hx3.
  eapply bind_monotone; [exact H3|exact Hx3| |auto].
  intros x Hx Hne.
  destruct (is_str ty' "Program").
  { eapply bind_monotone; [exact Hx|exact Hne|auto|].
    intros body h4 x4 _ H4 Hx4. eapply forEach_monotone; [|exact H4|exact Hx4].
    intros c hc rc. apply IH. }
  destruct (is_str ty' "CallExpression"); [|exact Hx].
  eapply bind_monotone; [exact Hx|exact Hne|auto|].
  intros body h4 x4 _ H4 Hx4. eapply forEach_monotone; [|exact H4|exact Hx4].
  intros c hc rc. apply IH.
Qed.

Lemma transformer_monotone ast : monotone (fun fuel => transformer fuel ast).
Proof.
  intros fuel h r H Hr. unfold transformer in *.
  eapply bind_monotone; [exact H|exact Hr|auto|].
  intros body h1 x1 _ H1 Hx1.
  eapply bind_monotone; [exact H1|exact Hx1|auto|].
  intros newAst h2 x2 _ H2 Hx2.
  eapply bind_monotone; [exact H2|exact Hx2|auto|].
  intros body' h3 x3 _ H3 Hx3.
  eapply bind_monotone; [exact H3|exact Hx3|auto|].
  intros [] h4 x4 _ H4 Hx4.
  eapply bind_monotone; [exact H4|exact Hx4| |auto].
  intros x Hx Hne. apply traverseNode_monotone; assumption.
Qed.

Lemma codeGenerator_monotone node : monotone (fun fuel => codeGenerator fuel node).
Proof.
  intros fuel. revert node.
  induction fuel as [|fuel IH]; intros node h r H Hr;
    [cbn in H; unfold out_of_fuel in H; congruence|].
  cbn [codeGenerator] in H. unfold_once codeGenerator.
  eapply bind_monotone; [exact H|exact Hr|auto|].
  intros ty h1 x1 _ H1 Hx1. cbv beta in H1 |- *.
  destruct (is_str ty "Program").
  { eapply bind_monotone; [exact H1|exact Hx1|auto|].
    intros body h2 x2 _ H2 Hx2.
    eapply bind_monotone; [exact H2|exact Hx2| |auto].
    intros x Hx Hne. eapply array_map_monotone; [|exact Hx|exact Hne].
    intros c hc rc. apply IH. }
  destruct (is_str ty "ExpressionStatement").
  { eapply bind_monotone; [exact H1|exact Hx1|auto|].
    intros e h2 x2 _ H2 Hx2.
    eapply bind_monotone; [exact H2|exact Hx2| |auto].
    intros x Hx Hne. apply IH; assumption. }
  destruct (is_str ty "CallExpression"); [|exact H1].
  eapply bind_monotone; [exact H1|exact Hx1|auto|].
  intros callee h2 x2 _ H2 Hx2.
  eapply bind_monotone; [exact H2|exact Hx2| |].
  { intros x Hx Hne. apply IH; assumption. }
  intros f h3 x3 _ H3 Hx3.
  eapply bind_monotone; [exact H3|exact Hx3|auto|].
  intros arguments h4 x4 _ H4 Hx4.
  eapply bind_monotone; [exact H4|exact Hx4| |auto].
  intros x Hx Hne. eapply array_map_monotone; [|exact Hx|exact Hne].
  intros c hc rc. apply IH.
Qed.

Lemma stages_monotone tokens :
  monotone (fun fuel => let* ast := parser fuel tokens in
                        let* newAST := transformer fuel ast in
                        codeGenerator fuel newAST).
Proof.
  intros fuel h r H Hr.
  eapply bind_monotone; [exact H|exact Hr| |].
  - intros x Hx Hne. apply parser_monotone; assumption.
  - intros ast h1 x1 _ H1 Hx1.
    eapply bind_monotone; [exact H1|exact Hx1| |].
    + intros x Hx Hne. apply transformer_monotone; assumption.
    + intros newAST h2 x2 _ H2 Hx2. apply codeGenerator_monotone; assumption.
Qed.

Lemma compile_S fuel input r :
  compile fuel input = r -> r <> OutOfFuel -> compile (S fuel) input = r.
Proof.
  unfold compile, tokenizer. intros H Hr.
  destruct (tokenizer_loop fuel input 0 []) as [tokens| |] eqn:Et;
    [|rewrite (tokenizer_loop_S _ _ _ _ _ Et) by discriminate; exact H|congruence].
  rewrite (tokenizer_loop_S _ _ _ _ _ Et) by discriminate.
  pose proof (stages_monotone tokens fuel []) as Hm. cbv beta in Hm.
  match type of H with
  | match ?m with _ => _ end = _ => destruct m as [[out h']| |] eqn:E
  end; [| |congruence].
  - rewrite (Hm _ eq_refl) by discriminate. exact H.
  - rewrite (Hm _ eq_refl) by discriminate. exact H.
Qed.

Lemma compile_mono fuel fuel' input r :
  compile fuel input = r -> r <> OutOfFuel -> fuel <= fuel' ->
  compile fuel' input = r.
Proof.
  intros H Hr Hle. induction Hle; [exact H|]. apply compile_S; assumption.
Qed.

(** ** Concrete runs: claims C1, C2 and C4 *)

(** C1.  The four stages composed on the example input of the repository
    return exactly its C form. *)
Theorem C1_end_to_end (fuel : nat) :
  compile (30 + fuel) (js "(add 2 (subtract 4 2))")
  = Return (VString (js "add(2, subtract(4, 2));")).
Proof.
  apply (compile_mono 30); [vm_compute; reflexivity|discriminate|lia].
Qed.

Lemma tokens_of_missing_paren fuel tokens :
  tokenizer fuel (js "(add 2") = Return tokens ->
  tokens = [Token (js "paren") (js "("); Token (js "name") (js "add");
            Token (js "number") (js "2")].
Proof.
  intros H. unfold tokenizer in H.
  apply (tokenizer_loop_mono _ (fuel + 7)) in H; [|discriminate|lia].
  assert (E : tokenizer_loop 7 (js "(add 2") 0 []
              = Return [Token (js "paren") (js "("); Token (js "name") (js "add");
                        Token (js "number") (js "2")]) by (vm_compute; reflexivity).
  apply (tokenizer_loop_mono _ (fuel + 7)) in E; [|discriminate|lia].
  congruence.
Qed.

Lemma parser_of_missing_paren fuel r :
  parser fuel [Token (js "paren") (js "("); Token (js "name") (js "add");
               Token (js "number") (js "2")] [] = r ->
  r <> OutOfFuel -> r = Throw (EngineTypeError "type").
Proof.
  intros H Hr.
  apply (monotone_le _ _ (fuel + 4) _ _ (parser_monotone _)) in H;
    [|exact Hr|lia].
  assert (E : parser 4 [Token (js "paren") (js "("); Token (js "name") (js "add");
                        Token (js "number") (js "2")] []
              = Throw (EngineTypeError "type")) by (vm_compute; reflexivity).
  apply (monotone_le _ _ (fuel + 4) _ _ (parser_monotone _)) in E;
    [|discriminate|lia].
  congruence.
Qed.

(** C2, as the specification has it, is that parsing the tokens of the
    input with the missing closing paren fails with a ParseError raised by
    the parser.  The parser has no [throw] statement: whatever the fuel,
    no run of it on these tokens ends in an error thrown by the program. *)
Lemma C2_not_raised_by_the_parser :
  ~ exists fuel fuel' tokens e,
      tokenizer fuel (js "(add 2") = Return tokens
      /\ parser fuel' tokens [] = Throw e
      /\ thrown_by_program e.
Proof.
  intros (fuel & fuel' & tokens & e & Ht & Hp & He).
  apply tokens_of_missing_paren in Ht. subst tokens.
  apply parser_of_missing_paren in Hp; [|discriminate].
  inversion Hp; subst e. exact He.
Qed.

(** C2, amended.  Parsing the tokens of the input with the missing closing
    paren fails: with enough fuel the run ends in the TypeError that the
    engine raises when [token.type] is read past the end of the token
    list, and no run returns a Program. *)
Theorem C2_missing_closing_paren :
  exists tokens,
    (forall fuel, tokenizer (7 + fuel) (js "(add 2") = Return tokens)
    /\ (forall fuel, parser (4 + fuel) tokens [] = Throw (EngineTypeError "type"))
    /\ (forall fuel ast h, parser fuel tokens [] <> Return (ast, h)).
Proof.
  exists [Token (js "paren") (js "("); Token (js "name") (js "add");
          Token (js "number") (js "2")].
  split; [|split].
  - intros fuel. apply (tokenizer_loop_mono 7); [vm_compute; reflexivity|discriminate|lia].
  - intros fuel.
    apply (monotone_le _ 4 _ _ _ (parser_monotone _));
      [vm_compute; reflexivity|discriminate|lia].
  - intros fuel ast h H. apply parser_of_missing_paren in H; discriminate.
Qed.

(** C4.  The specification says that no stage runs for ever.  The name
    loop and the string-mode loop have no end-of-input test, and [walk]
    returns without advancing on a token it has no branch for: on the
    input [add], and on an input that ends inside a string, the tokenizer
    is unfinished with every amount of fuel; so is the parser on the
    tokens of a lone closing paren. *)
Theorem C4_stages_that_never_finish (fuel : nat) :
  tokenizer fuel (js "add") = OutOfFuel
  /\ tokenizer fuel (dquote :: js "add") = OutOfFuel
  /\ tokenizer (2 + fuel) (js ")") = Return [Token (js "paren") (js ")")]
  /\ parser fuel [Token (js "paren") (js ")")] [] = OutOfFuel.
Proof.
  split; [|split; [|split]].
  - apply (tokenizer_loop_name_at_end _ _ _ _ 97%N); [reflexivity|reflexivity|].
    intros [|[|[|k]]] x Hk Hx; vm_compute in Hx; inversion Hx; reflexivity.
  - apply tokenizer_loop_unterminated; [reflexivity|].
    intros [|[|[|[|k]]]] Hk; try lia; vm_compute; discriminate.
  - apply (tokenizer_loop_mono 2); [vm_compute; reflexivity|discriminate|lia].
  - unfold parser.
    erewrite bind_Return by reflexivity.
    erewrite bind_Return by reflexivity.
    erewrite bind_OutOfFuel; [reflexivity|].
    eapply parser_loop_stuck with (current := 0) (b := 0).
    + reflexivity.
    + repeat split; try discriminate. intros [_ E]. discriminate E.
    + reflexivity.
    + vm_compute. reflexivity.
    + reflexivity.
Qed.

(** ** Traverser: the order of the calls *)

Lemma stree_ind' (P : stree -> Prop) :
  (forall l a body, Forall P body -> P (SProgram l a body)) ->
  (forall l name a params, Forall P params -> P (SCallExpression l name a params)) ->
  (forall l value, P (SNumberLiteral l value)) ->
  (forall l value, P (SStringLiteral l value)) ->
  forall t, P t.
Proof.
  intros HP HC HN HS.
  fix IH 1. intros [l a body|l name a params|l value|l value].
  - apply HP. induction body as [|c body IHb]; constructor; [apply IH|exact IHb].
  - apply HC. induction params as [|c params IHb]; constructor; [apply IH|exact IHb].
  - apply HN.
  - apply HS.
Qed.

Lemma get_field l k h x :
  field h l k = Some x -> get (VRef l) k h = Return (x, h).
Proof.
  unfold field, get. intros E. destruct (h !! l); [|discriminate].
  rewrite E. reflexivity.
Qed.

Lemma array_length_at m a h es :
  array_at h a = Some es -> array_length m (VRef a) h = Return (length es, h).
Proof.
  unfold array_at, array_length. intros E.
  destruct (h !! a) as [[p e]|]; [|discriminate]. cbn in E. subst e. reflexivity.
Qed.

Lemma element_at a k h es :
  array_at h a = Some es -> element (VRef a) k h = Return (es !! k, h).
Proof.
  unfold array_at, element. intros E.
  destruct (h !! a) as [[p e]|]; [|discriminate]. cbn in E. subst e. reflexivity.
Qed.

Lemma bind_ext {A B} (m : M A) (k k' : A -> M B) h :
  (forall a h', m h = Return (a, h') -> k a h' = k' a h') ->
  bind m k h = bind m k' h.
Proof.
  intros H. unfold bind. destruct (m h) as [[a h']| |]; auto.
Qed.

Lemma bind_eq_l {A B} (m m' : M A) (k : A -> M B) h :
  m h = m' h -> bind m k h = bind m' k h.
Proof. intros E. unfold bind. rewrite E. reflexivity. Qed.

Lemma bind_ret_tt (m : M unit) h : bind m (fun _ => ret tt) h = m h.
Proof. unfold bind, ret. destruct (m h) as [[[] h']| |]; reflexivity. Qed.

Lemma bind_assoc {A B C} (m : M A) (k : A -> M B) (k' : B -> M C) h :
  bind (bind m k) k' h = bind m (fun a => bind (k a) k') h.
Proof. unfold bind. destruct (m h) as [[a h']| |]; reflexivity. Qed.

Lemma run_events_app v es es' h :
  run_events v (es ++ es') h
  = bind (run_events v es) (fun _ => run_events v es') h.
Proof.
  revert h. induction es as [|e es IH]; intros h; [reflexivity|].
  cbn [app run_events]. rewrite bind_assoc. apply bind_ext. intros _ h' _. apply IH.
Qed.

Lemma height_child c cs :
  c ∈ cs -> height c <= foldr (fun c n => Nat.max (height c) n) 0 cs.
Proof.
  induction cs as [|c' cs IH]; intros H; [inversion H|].
  cbn. apply elem_of_cons in H as [->|H]; [lia|]. apply IH in H. lia.
Qed.

Section traversal.
Variable v : visitor.
Variable I : heap -> Prop.

Lemma run_events_preserves es h h' :
  Forall (preserves I v) es ->
  I h -> run_events v es h = Return (tt, h') -> I h'.
Proof.
  intros Hes. revert h. induction Hes as [|e es He Hes IH]; intros h Hh H.
  - inversion H; subst; exact Hh.
  - cbn [run_events] in H. unfold bind in H.
    destruct (run_event v e h) as [[[] h1]| |] eqn:E; [|discriminate..].
    apply (IH h1); [|exact H]. eapply He; eauto.
Qed.

(** The loop of [forEach] over the children [cs] that follow [pre]. *)
Lemma forEach_from_events (f : val -> M unit) node a pre cs h :
  (forall h, I h ->
             array_at h a = Some (map (fun c => VRef (root c)) (pre ++ cs))) ->
  Forall (fun c => forall h, I h ->
              f (VRef (root c)) h = run_events v (events node c) h) cs ->
  Forall (preserves I v) (flat_map (events node) cs) ->
  I h ->
  forEach_from (length cs) (length pre) (VRef a) f h
  = run_events v (flat_map (events node) cs) h.
Proof.
  intros Harr. revert pre h Harr.
  induction cs as [|c cs IH]; intros pre h Harr Hf Hp Hh; [reflexivity|].
  inversion Hf as [|? ? Hc Hcs]; subst.
  cbn [flat_map] in Hp. apply Forall_app in Hp as [Hp1 Hp2].
  cbn [length forEach_from flat_map].
  rewrite (bind_Return _ _ _ _ _ (element_at _ _ _ _ (Harr h Hh))).
  rewrite list_lookup_fmap, lookup_app_r, Nat.sub_diag by lia. cbn.
  rewrite run_events_app, (bind_eq_l _ _ _ _ (Hc h Hh)). apply bind_ext.
  intros [] h1 E.
  replace (S (length pre)) with (length (pre ++ [c]))
    by (rewrite length_app; cbn; lia).
  apply IH.
  - intros h2 Hh2. rewrite <- app_assoc. apply Harr. exact Hh2.
  - exact Hcs.
  - exact Hp2.
  - eapply run_events_preserves; [exact Hp1|exact Hh|exact E].
Qed.

Lemma forEach_events (f : val -> M unit) node a cs h :
  (forall h, I h -> array_at h a = Some (map (fun c => VRef (root c)) cs)) ->
  Forall (fun c => forall h, I h ->
              f (VRef (root c)) h = run_events v (events node c) h) cs ->
  Forall (preserves I v) (flat_map (events node) cs) ->
  I h ->
  forEach (VRef a) f h = run_events v (flat_map (events node) cs) h.
Proof.
  intros Harr Hf Hp Hh. unfold forEach.
  rewrite (bind_Return _ _ _ _ _ (array_length_at _ _ _ _ (Harr h Hh))).
  rewrite length_map. apply (forEach_from_events f node a []); assumption.
Qed.

(** What is left of [traverseNode] once [enter] has returned, for a node
    with children. *)
Lemma traverse_children fuel l a cs ty key parent h :
  (forall h, I h -> field h l key = Some (VRef a)) ->
  (forall h, I h -> array_at h a = Some (map (fun c => VRef (root c)) cs)) ->
  Forall (fun c => forall h, I h ->
              traverseNode fuel v (VRef (root c)) (VRef l) h
              = run_events v (events (VRef l) c) h) cs ->
  Forall (preserves I v) (flat_map (events (VRef l)) cs) ->
  I h ->
  forall K : val -> M unit,
    (forall body, K body = forEach body (fun child => traverseNode fuel v child (VRef l))) ->
    bind (bind (get (VRef l) key) K)
         (fun _ => call_method (v ty) exit (VRef l) parent) h
    = run_events v (flat_map (events (VRef l)) cs ++ [Exit ty (VRef l) parent]) h.
Proof.
  intros Hkey Harr Hcs Hp Hh K HK.
  rewrite run_events_app. cbn [run_events run_event].
  etransitivity.
  - apply bind_eq_l. rewrite (bind_Return _ _ _ _ _ (get_field _ _ _ _ (Hkey h Hh))).
    rewrite HK. apply (forEach_events _ (VRef l) a cs); assumption.
  - apply bind_ext. intros [] h' _. symmetry. apply bind_ret_tt.
Qed.

Lemma preserves_children node cs c :
  Forall (preserves I v) (flat_map (events node) cs) -> c ∈ cs ->
  Forall (preserves I v) (events node c).
Proof.
  rewrite !Forall_forall. intros H Hc e He. apply H.
  apply list_elem_of_In, in_flat_map. exists c.
  split; apply list_elem_of_In; assumption.
Qed.

Lemma traverseNode_events t :
  forall parent,
    (forall h, I h -> repr h t) ->
    Forall (preserves I v) (events parent t) ->
    forall fuel h,
      height t < fuel -> I h ->
      traverseNode fuel v (VRef (root t)) parent h
      = run_events v (events parent t) h.
Proof.
  induction t as [l a body IH|l name a params IH|l value|l value]
    using stree_ind'; intros parent Hrepr Hp [|fuel] h Hfuel Hh; try lia;
    cbn [traverseNode root events run_events run_event height] in *;
    inversion Hp as [|? ? Henter Hrest]; subst;
    pose proof (Hrepr h Hh) as R; inversion R; subst;
    (erewrite bind_Return by (apply get_field; eassumption)); cbn [ToStringV];
    apply bind_ext; intros [] h1 E1; cbv beta;
    assert (Hh1 : I h1) by (eapply Henter; eauto);
    pose proof (Hrepr h1 Hh1) as R1; inversion R1; subst;
    (erewrite bind_Return by (apply get_field; eassumption)).
  - change (is_str (VString (js "Program")) "Program") with true. cbv iota.
    apply Forall_app in Hrest as [Hcs _].
    apply (traverse_children fuel l a body (js "Program") "body");
      try (intros h' Hh'; pose proof (Hrepr h' Hh') as R'; inversion R';
           subst; assumption); [|exact Hcs|exact Hh1|reflexivity].
    rewrite Forall_forall in IH |- *. intros c Hc h' Hh'.
    apply IH; [exact Hc| | |pose proof (height_child c body Hc); lia|exact Hh'].
    + intros h2 Hh2. pose proof (Hrepr h2 Hh2) as R'; inversion R'; subst.
      rewrite Forall_forall in *. auto.
    + eapply preserves_children; eauto.
  - change (is_str (VString (js "CallExpression")) "Program") with false.
    change (is_str (VString (js "CallExpression")) "CallExpression") with true.
    cbv iota.
    apply Forall_app in Hrest as [Hcs _].
    apply (traverse_children fuel l a params (js "CallExpression") "params");
      try (intros h' Hh'; pose proof (Hrepr h' Hh') as R'; inversion R';
           subst; assumption); [|exact Hcs|exact Hh1|reflexivity].
    rewrite Forall_forall in IH |- *. intros c Hc h' Hh'.
    apply IH; [exact Hc| | |pose proof (height_child c params Hc); lia|exact Hh'].
    + intros h2 Hh2. pose proof (Hrepr h2 Hh2) as R'; inversion R'; subst.
      rewrite Forall_forall in *. auto.
    + eapply preserves_children; eauto.
  - change (is_str (VString (js "NumberLiteral")) "Program") with false.
    change (is_str (VString (js "NumberLiteral")) "CallExpression") with false.
    change (is_str (VString (js "NumberLiteral")) "NumberLiteral") with true.
    cbv iota. cbn [orb]. rewrite bind_ret_tt.
    unfold bind, ret. reflexivity.
  - change (is_str (VString (js "StringLiteral")) "Program") with false.
    change (is_str (VString (js "StringLiteral")) "CallExpression") with false.
    change (is_str (VString (js "StringLiteral")) "NumberLiteral") with false.
    change (is_str (VString (js "StringLiteral")) "StringLiteral") with true.
    cbv iota. cbn [orb]. rewrite bind_ret_tt.
    unfold bind, ret. reflexivity.
Qed.
End traversal.


(** C8.  For an AST of the four node types held in the heap, and a visitor
    each of whose calls during the traversal leaves the AST in place (states
    are described by [I]), the traverser makes exactly the calls of
    [events], in that order: for each node [enter] with the node and its
    parent, then the children from left to right, then [exit]; a missing
    method is skipped, and a literal has no children. *)
Theorem C8_traverse_depth_first
    (v : visitor) (I : heap -> Prop) (t : stree) (fuel : nat) (h : heap) :
  (forall h, I h -> repr h t) ->
  (forall e, e ∈ events VNull t ->
             forall h h', I h -> run_event v e h = Return (tt, h') -> I h') ->
  I h -> height t < fuel ->
  traverser fuel (VRef (root t)) v h = run_events v (events VNull t) h.
Proof.
  intros Hrepr Hpres Hh Hfuel. unfold traverser.
  apply (traverseNode_events v I); try assumption.
  apply Forall_forall. exact Hpres.
Qed.

Lemma C8_witness :
  traverser 3 (VRef 1) (logging_visitor 3) (example_heap [])
  = Return (tt, example_heap [VRef 1; VRef 2; VRef 1; VNull]).
Proof.
  assert (E : run_events (logging_visitor 3) (events VNull example_tree)
                (example_heap [])
              = Return (tt, example_heap [VRef 1; VRef 2; VRef 1; VNull]))
    by (vm_compute; reflexivity).
  rewrite <- E.
  apply (C8_traverse_depth_first (logging_visitor 3)
           (fun h => exists log, h = example_heap log) example_tree 3).
  - intros h [log ->].
    apply repr_Program; [reflexivity..|].
    constructor; [|constructor]. apply repr_NumberLiteral; reflexivity.
  - intros e He h h' [log ->] H.
    assert (Hpush : forall x, push (VRef 3) x (example_heap log)
                         = Return (tt, example_heap (log ++ [x])))
      by reflexivity.
    destruct e as [ty node parent|ty node parent];
      [change (push (VRef 3) node (example_heap log) = Return (tt, h')) in H
      |change (push (VRef 3) parent (example_heap log) = Return (tt, h')) in H];
      rewrite Hpush in H; inversion H; eauto.
  - exists []. reflexivity.
  - cbn. lia.
Defined.

(** ** Transformer: the heap *)

Lemma same_public_refl o : same_public o o.
Proof. split; [reflexivity|]. intros; reflexivity. Qed.

Lemma same_public_trans o1 o2 o3 :
  same_public o1 o2 -> same_public o2 o3 -> same_public o1 o3.
Proof.
  intros [E1 P1] [E2 P2]. split; [congruence|].
  intros k Hk. rewrite P1, P2 by exact Hk. reflexivity.
Qed.

Lemma evolved_refl h : evolved h h.
Proof. intros l o H. exists o. split; [exact H|apply same_public_refl]. Qed.

Lemma evolved_trans h0 h1 h2 : evolved h0 h1 -> evolved h1 h2 -> evolved h0 h2.
Proof.
  intros H1 H2 l o Hl. destruct (H1 l o Hl) as (o1 & Hl1 & S1).
  destruct (H2 l o1 Hl1) as (o2 & Hl2 & S2).
  exists o2. split; [exact Hl2|]. eapply same_public_trans; eauto.
Qed.

Lemma evolved_length h0 h : evolved h0 h -> length h0 <= length h.
Proof.
  intros H. destruct (decide (length h0 = 0)) as [|Hn]; [lia|].
  destruct (lookup_lt_is_Some_2 h0 (length h0 - 1)) as [o Ho]; [lia|].
  destruct (H _ _ Ho) as (o' & Ho' & _). apply lookup_lt_Some in Ho'. lia.
Qed.

Lemma evolved_field h0 h l k x :
  evolved h0 h -> k <> "_context" -> field h0 l k = Some x -> field h l k = Some x.
Proof.
  unfold field. intros H Hk E. destruct (h0 !! l) as [o|] eqn:El; [|discriminate].
  destruct (H _ _ El) as (o' & Ho' & _ & P). rewrite Ho', <- P by exact Hk. exact E.
Qed.

Lemma evolved_array_at h0 h l es :
  evolved h0 h -> array_at h0 l = Some es -> array_at h l = Some es.
Proof.
  unfold array_at. intros H E. destruct (h0 !! l) as [o|] eqn:El; [|discriminate].
  destruct (H _ _ El) as (o' & Ho' & Ee & _). rewrite Ho', <- Ee. exact E.
Qed.

Lemma repr_evolved h0 h t : evolved h0 h -> repr h0 t -> repr h t.
Proof.
  intros He. induction t as [l a body IH|l name a params IH|l value|l value]
    using stree_ind'; intros R; inversion R; subst.
  - apply repr_Program;
      try (eapply evolved_field; [exact He|discriminate|eassumption]).
    + eapply evolved_array_at; eauto.
    + rewrite Forall_forall in *. auto.
  - apply repr_CallExpression;
      try (eapply evolved_field; [exact He|discriminate|eassumption]).
    + eapply evolved_array_at; eauto.
    + rewrite Forall_forall in *. auto.
  - apply repr_NumberLiteral;
      eapply evolved_field; try exact He; try discriminate; eassumption.
  - apply repr_StringLiteral;
      eapply evolved_field; try exact He; try discriminate; eassumption.
Qed.

Lemma field_lt h l k x : field h l k = Some x -> l < length h.
Proof.
  unfold field. destruct (h !! l) eqn:E; [|discriminate].
  intros _. eapply lookup_lt_Some; eauto.
Qed.

Lemma repr_children h t : repr h t -> forall c, c ∈ children t -> repr h c.
Proof.
  intros R c Hc. inversion R; subst; cbn in Hc; try (inversion Hc; fail);
    match goal with
    | H : Forall (repr h) _ |- _ => exact (proj1 (Forall_forall _ _) H c Hc)
    end.
Qed.

Lemma elem_of_flat_map {A B} (f : A -> list B) (xs : list A) (y : B) :
  y ∈ flat_map f xs <-> exists x, x ∈ xs /\ y ∈ f x.
Proof.
  rewrite list_elem_of_In, in_flat_map. split; intros (x & H1 & H2); exists x;
    split; apply list_elem_of_In; assumption.
Qed.

Lemma repr_nodes_lt h t : repr h t -> Forall (fun l => l < length h) (nodes t).
Proof.
  induction t as [l a body IH|l name a params IH|l value|l value]
    using stree_ind'; intros R; pose proof (repr_children h _ R) as Rc;
    inversion R; subst; cbn [nodes children] in *;
    (constructor; [eapply field_lt; eauto|]); try constructor;
    apply Forall_forall; intros x Hx;
    apply elem_of_flat_map in Hx as (c & Hc & Hx);
    pose proof (proj1 (Forall_forall _ _) IH c Hc (Rc c Hc)) as Hn;
    exact (proj1 (Forall_forall _ _) Hn x Hx).
Qed.

(** *** A tree in the heap has no cycle *)

Lemma map_root_heights h (cs cs' : list stree) :
  Forall (fun t => repr h t -> forall t', repr h t' -> root t = root t' ->
                   height t = height t') cs ->
  Forall (repr h) cs -> Forall (repr h) cs' ->
  map (fun c => VRef (root c)) cs = map (fun c => VRef (root c)) cs' ->
  foldr (fun c n => Nat.max (height c) n) 0 cs
  = foldr (fun c n => Nat.max (height c) n) 0 cs'.
Proof.
  revert cs'. induction cs as [|c cs IH]; intros [|c' cs'] HI R R' E;
    try discriminate; [reflexivity|].
  inversion HI; inversion R; inversion R'; subst. cbn in E. inversion E.
  cbn. f_equal; [|apply IH; assumption]. auto.
Qed.

Lemma repr_height h t :
  repr h t -> forall t', repr h t' -> root t = root t' -> height t = height t'.
Proof.
  induction t as [l a body IH|l name a params IH|l value|l value]
    using stree_ind'; intros R t' R' E; inversion R; subst;
    destruct t'; cbn in E; subst; inversion R'; subst;
    try (match goal with
         | H1 : field ?h ?l "type" = Some _, H2 : field ?h ?l "type" = Some _ |- _ =>
             rewrite H1 in H2; discriminate H2
         end); try reflexivity.
  - cbn. f_equal. apply (map_root_heights h); try assumption. congruence.
  - cbn. f_equal. apply (map_root_heights h); try assumption. congruence.
Qed.

Lemma nodes_subtree h t l :
  repr h t -> l ∈ nodes t ->
  exists s, root s = l /\ repr h s /\ height s <= height t.
Proof.
  induction t as [l' a body IH|l' name a params IH|l' value|l' value]
    using stree_ind'; intros R Hl; pose proof (repr_children h _ R) as Rc;
    cbn [nodes children] in *;
    apply elem_of_cons in Hl as [->|Hl];
    try (eexists; split; [|split]; [|exact R|]; [reflexivity|lia]);
    try (inversion Hl; fail);
    apply elem_of_flat_map in Hl as (c & Hc & Hl);
    destruct (proj1 (Forall_forall _ _) IH c Hc (Rc c Hc) Hl) as (s & Hs & Rs & Hh);
    (exists s; split; [exact Hs|]; split; [exact Rs|]);
    pose proof (height_child c _ Hc); cbn; lia.
Qed.

Lemma repr_acyclic h t c :
  repr h t -> c ∈ children t -> root t ∉ nodes c.
Proof.
  intros R Hc Hin.
  assert (Rc : repr h c) by (eapply repr_children; eauto).
  destruct (nodes_subtree h c _ Rc Hin) as (s & Hs & Rs & Hh).
  pose proof (repr_height h t R s Rs (eq_sym Hs)) as E.
  assert (height c < height t).
  { destruct t; cbn in Hc; try (inversion Hc; fail);
      pose proof (height_child c _ Hc); cbn; lia. }
  lia.
Qed.

(** *** Target trees stay where they are built *)

Lemma tnode_ind' (P : tnode -> Prop) :
  (forall body, Forall P body -> P (TProgram body)) ->
  (forall e, P e -> P (TExpressionStatement e)) ->
  (forall callee args, P callee -> Forall P args -> P (TCallExpression callee args)) ->
  (forall name, P (TIdentifier name)) ->
  (forall value, P (TNumberLiteral value)) ->
  (forall value, P (TStringLiteral value)) ->
  forall n, P n.
Proof.
  intros HP HE HC HI HN HS.
  fix IH 1. intros [body|e|callee args|name|value|value].
  - apply HP. induction body as [|c body IHb]; constructor; [apply IH|exact IHb].
  - apply HE. apply IH.
  - apply HC; [apply IH|].
    induction args as [|c args IHb]; constructor; [apply IH|exact IHb].
  - apply HI.
  - apply HN.
  - apply HS.
Qed.

Lemma Forall2_Forall_impl {A B} (R R' : A -> B -> Prop) xs ys :
  Forall (fun y => forall x, R x y -> R' x y) ys ->
  Forall2 R xs ys -> Forall2 R' xs ys.
Proof.
  intros HF H2. induction H2 as [|x y xs ys Hxy H2 IH]; [constructor|].
  inversion HF; subst. constructor; auto.
Qed.

(** A target tree built from [lo] on is still there in a heap that agrees
    with the old one from [lo] on. *)
Lemma trepr_frame lo lo' h h' :
  lo' <= lo ->
  (forall l, lo <= l -> l < length h -> h' !! l = h !! l) ->
  forall n v, trepr lo h v n -> trepr lo' h' v n.
Proof.
  intros Hlo Hframe.
  assert (Hl : forall l o, lo <= l -> h !! l = Some o -> h' !! l = Some o).
  { intros l o Hle E. rewrite Hframe; [exact E|exact Hle|].
    eapply lookup_lt_Some; eauto. }
  induction n as [body IH|e IH|callee args IHc IHa|name|value|value]
    using tnode_ind'; intros v T; inversion T; subst.
  - apply (trepr_Program lo' h' l a vs body); auto; try lia.
    eapply Forall2_Forall_impl; eauto.
  - apply (trepr_ExpressionStatement lo' h' l e0 e); auto; lia.
  - apply (trepr_CallExpression lo' h' l c a vs callee args); auto; try lia.
    eapply Forall2_Forall_impl; eauto.
  - apply trepr_Identifier; auto; lia.
  - apply trepr_NumberLiteral; auto; lia.
  - apply trepr_StringLiteral; auto; lia.
Qed.

(** *** The heap operations *)

Lemma set_ref l k x h o :
  h !! l = Some o ->
  set (VRef l) k x h = Return (tt, <[l := Obj (<[k := x]> (props o)) (elems o)]> h).
Proof. intros E. unfold set. rewrite E. reflexivity. Qed.

Lemma field_app h h2 l k x :
  field h l k = Some x -> field (h ++ h2) l k = Some x.
Proof.
  unfold field. intros E. destruct (h !! l) as [o|] eqn:El; [|discriminate].
  rewrite (lookup_app_l_Some _ _ _ _ El). exact E.
Qed.

Lemma field_insert_ne h l l' o k :
  l <> l' -> field (<[l' := o]> h) l k = field h l k.
Proof. intros Hne. unfold field. rewrite list_lookup_insert_ne by congruence. reflexivity. Qed.

Lemma field_lookup h l k x :
  field h l k = Some x -> exists o, h !! l = Some o /\ props o !! k = Some x.
Proof.
  unfold field. destruct (h !! l) as [o|]; [|discriminate]. eauto.
Qed.

Lemma lookup_field h l k o :
  h !! l = Some o -> field h l k = props o !! k.
Proof. intros E. unfold field. rewrite E. reflexivity. Qed.

(** *** The three [enter] methods *)

Lemma transformed_push n0 ns c h new pp es es' :
  n0 <= c -> h !! c = Some (Obj pp (Some es)) ->
  transformed n0 ns c h (<[c := Obj pp (Some es')]> (h ++ new)).
Proof.
  intros Hc Ec. pose proof (lookup_lt_Some _ _ _ Ec) as Hlt.
  split; [|split; [|split]].
  - rewrite length_insert, length_app. lia.
  - intros l _ Hl Hne. rewrite list_lookup_insert_ne by congruence.
    apply lookup_app_l. exact Hl.
  - intros l Hl _. rewrite list_lookup_insert_ne by lia.
    apply lookup_app_l. lia.
  - intros l o Hl E. exists o. split; [|apply same_public_refl].
    rewrite list_lookup_insert_ne by lia. apply lookup_app_l_Some. exact E.
Qed.

Lemma literal_enter_spec (ty : string) n0 l p c v pp ces h :
  field h l "value" = Some (VString v) ->
  field h p "_context" = Some (VRef c) ->
  n0 <= c -> h !! c = Some (Obj pp (Some ces)) ->
  let lit := Obj (list_to_map [("type", VString (js ty)); ("value", VString v)]) None in
  let h' := <[c := Obj pp (Some (ces ++ [VRef (length h)]))]> (h ++ [lit]) in
  (let* context := get (VRef p) "_context" in
   let* value := get (VRef l) "value" in
   let* lit := new_object [("type", VString (js ty)); ("value", value)] in
   push context lit) h = Return (tt, h')
  /\ h' !! c = Some (Obj pp (Some (ces ++ [VRef (length h)])))
  /\ h' !! length h = Some lit
  /\ transformed n0 [l] c h h'.
Proof.
  intros Hv Hctx Hc Ec lit h'. pose proof (lookup_lt_Some _ _ _ Ec) as Hlt.
  split; [|split; [|split]].
  - rewrite (bind_Return _ _ _ _ _ (get_field _ _ _ _ Hctx)).
    rewrite (bind_Return _ _ _ _ _ (get_field _ _ _ _ Hv)).
    erewrite bind_Return by reflexivity.
    apply push_ref. apply lookup_app_l_Some. exact Ec.
  - apply list_lookup_insert_eq. rewrite length_app. lia.
  - unfold h'. rewrite list_lookup_insert_ne by lia.
    apply list_lookup_middle. reflexivity.
  - eapply transformed_push; eauto.
Qed.

Lemma transformed_call n0 l c h new new2 ol ol' pp es es' :
  n0 <= c -> l < n0 -> h !! l = Some ol -> same_public ol ol' ->
  h !! c = Some (Obj pp (Some es)) ->
  transformed n0 [l] c h
    (<[c := Obj pp (Some es')]> (<[l := ol']> (h ++ new) ++ new2)).
Proof.
  intros Hc Hl El Hsame Ec.
  pose proof (lookup_lt_Some _ _ _ Ec) as Hclt.
  pose proof (lookup_lt_Some _ _ _ El) as Hllt.
  assert (Hother : forall l', l' < length h -> l' <> c -> l' <> l ->
            (<[c := Obj pp (Some es')]> (<[l := ol']> (h ++ new) ++ new2)) !! l'
            = h !! l').
  { intros l' H1 H2 H3. rewrite list_lookup_insert_ne by congruence.
    rewrite lookup_app_l by (rewrite length_insert, length_app; lia).
    rewrite list_lookup_insert_ne by congruence. apply lookup_app_l. exact H1. }
  split; [|split; [|split]].
  - rewrite length_insert, length_app, length_insert, length_app. lia.
  - intros l' H1 H2 H3. apply Hother; [exact H2|exact H3|lia].
  - intros l' H1 H2. apply Hother; [lia|lia|].
    intros ->. apply H2. constructor.
  - intros l' o H1 E. destruct (decide (l' = l)) as [->|Hne].
    + exists ol'. rewrite El in E. inversion E; subst o. split; [|exact Hsame].
      rewrite list_lookup_insert_ne by lia.
      rewrite lookup_app_l by (rewrite length_insert, length_app; lia).
      apply list_lookup_insert_eq. rewrite length_app. lia.
    + exists o. split; [|apply same_public_refl].
      rewrite Hother; [exact E| |lia|exact Hne]. eapply lookup_lt_Some; eauto.
Qed.

Lemma CallExpression_enter_spec n0 l p pty c name ol pp ces h :
  h !! l = Some ol -> props ol !! "name" = Some (VString name) ->
  l < n0 -> p <> l ->
  field h p "type" = Some (VString pty) ->
  field h p "_context" = Some (VRef c) ->
  n0 <= c -> h !! c = Some (Obj pp (Some ces)) ->
  exists h' v,
    CallExpression_enter (VRef l) (VRef p) h = Return (tt, h')
    /\ h' !! c = Some (Obj pp (Some (ces ++ [v])))
    /\ field h' l "_context" = Some (VRef (S (length h)))
    /\ h' !! S (length h) = Some (Obj ∅ (Some []))
    /\ S (length h) < length h'
    /\ transformed n0 [l] c h h'
    /\ forall h2 vs args,
         (forall l', length h <= l' -> l' < length h' -> l' <> S (length h) ->
                     h2 !! l' = h' !! l') ->
         h2 !! S (length h) = Some (Obj ∅ (Some vs)) ->
         Forall2 (trepr (length h) h2) vs args ->
         trepr (length h) h2 v
           (let expression := TCallExpression (TIdentifier name) args in
            if bool_decide (pty = js "CallExpression") then expression
            else TExpressionStatement expression).
Proof.
  intros El Hname Hl Hpl Hpty Hctx Hc Ec.
  pose proof (lookup_lt_Some _ _ _ Ec) as Hclt.
  pose proof (lookup_lt_Some _ _ _ El) as Hllt.
  set (callee := Obj (list_to_map [("type", VString (js "Identifier"));
                                   ("name", VString name)]) None).
  set (expr := Obj (list_to_map [("type", VString (js "CallExpression"));
                                 ("callee", VRef (length h));
                                 ("arguments", VRef (S (length h)))]) None).
  set (stmt := Obj (list_to_map [("type", VString (js "ExpressionStatement"));
                                 ("expression", VRef (S (S (length h))))]) None).
  set (ol' := Obj (<["_context" := VRef (S (length h))]> (props ol)) (elems ol)).
  set (base := h ++ [callee; Obj ∅ (Some []); expr]).
  set (h3 := <[l := ol']> base).
  assert (Hsame : same_public ol ol').
  { split; [reflexivity|]. intros k Hk. cbn.
    rewrite lookup_insert_ne by congruence. reflexivity. }
  assert (Hname' : field h l "name" = Some (VString name))
    by (rewrite (lookup_field _ _ _ _ El); exact Hname).
  assert (Hb0 : base !! length h = Some callee)
    by (unfold base; rewrite lookup_app_r, Nat.sub_diag by lia; reflexivity).
  assert (Hb1 : base !! S (length h) = Some (Obj ∅ (Some []))).
  { unfold base. rewrite lookup_app_r by lia.
    replace (S (length h) - length h) with 1 by lia. reflexivity. }
  assert (Hb2 : base !! S (S (length h)) = Some expr).
  { unfold base. rewrite lookup_app_r by lia.
    replace (S (S (length h)) - length h) with 2 by lia. reflexivity. }
  assert (Hbl : base !! l = Some ol) by (apply lookup_app_l_Some; exact El).
  assert (Hlen : length h3 = S (S (S (length h)))).
  { unfold h3, base. rewrite length_insert, length_app. cbn. lia. }
  assert (H3p : forall k x, field h p k = Some x -> field h3 p k = Some x).
  { intros k x E. unfold h3. rewrite field_insert_ne by exact Hpl.
    apply field_app. exact E. }
  assert (H3c : h3 !! c = Some (Obj pp (Some ces))).
  { unfold h3. rewrite list_lookup_insert_ne by lia.
    apply lookup_app_l_Some. exact Ec. }
  assert (Hstart :
    CallExpression_enter (VRef l) (VRef p) h
    = (let* expression :=
         (if negb (is_str (VString pty) "CallExpression") then
            new_object [("type", VString (js "ExpressionStatement"));
                        ("expression", VRef (S (S (length h))))]
          else ret (VRef (S (S (length h))))) in
       let* context := get (VRef p) "_context" in
       push context expression) h3).
  { unfold CallExpression_enter.
    rewrite (bind_Return _ _ _ _ _ (get_field _ "name" _ _ Hname')).
    erewrite bind_Return by reflexivity.
    erewrite bind_Return by reflexivity.
    erewrite bind_Return by reflexivity.
    rewrite !length_app. cbn [length]. rewrite !Nat.add_1_r.
    rewrite <- !app_assoc. cbn [app]. fold callee expr base.
    erewrite bind_Return
      by (apply get_field; rewrite (lookup_field _ _ _ _ Hb2); reflexivity).
    rewrite (bind_Return _ _ _ _ _ (set_ref _ _ _ _ _ Hbl)).
    fold ol' h3.
    rewrite (bind_Return _ _ _ _ _ (get_field _ _ _ _ (H3p _ _ Hpty))).
    reflexivity. }
  assert (Hfinal : forall new2 v,
    let h' := <[c := Obj pp (Some (ces ++ [v]))]> (h3 ++ new2) in
    h' !! c = Some (Obj pp (Some (ces ++ [v])))
    /\ field h' l "_context" = Some (VRef (S (length h)))
    /\ h' !! S (length h) = Some (Obj ∅ (Some []))
    /\ S (length h) < length h'
    /\ transformed n0 [l] c h h'
    /\ h' !! length h = Some callee
    /\ h' !! S (S (length h)) = Some expr
    /\ forall x, new2 !! 0 = Some x -> h' !! S (S (S (length h))) = Some x).
  { intros new2 v h'. unfold h'.
    assert (Hin : forall i o, length h <= i -> base !! i = Some o ->
              (<[c := Obj pp (Some (ces ++ [v]))]> (h3 ++ new2)) !! i = Some o).
    { intros i o Hi E. rewrite list_lookup_insert_ne by lia.
      apply lookup_app_l_Some. unfold h3.
      rewrite list_lookup_insert_ne by lia. exact E. }
    split; [|split; [|split; [|split; [|split; [|split; [|split]]]]]].
    - apply list_lookup_insert_eq. rewrite length_app. lia.
    - rewrite field_insert_ne by lia.
      apply field_app. unfold h3, field.
      rewrite list_lookup_insert_eq by (unfold base; rewrite length_app; lia).
      cbn. apply lookup_insert_eq.
    - apply Hin; [lia|exact Hb1].
    - rewrite length_insert, length_app. lia.
    - unfold h3, base. eapply transformed_call; eauto.
    - apply Hin; [lia|exact Hb0].
    - apply Hin; [lia|exact Hb2].
    - intros x Hx. rewrite list_lookup_insert_ne by lia.
      rewrite lookup_app_r by lia. rewrite Hlen, Nat.sub_diag. exact Hx. }
  assert (Hcallee : forall h2 v new2 vs args,
    let h' := <[c := Obj pp (Some (ces ++ [v]))]> (h3 ++ new2) in
    (forall l', length h <= l' -> l' < length h' -> l' <> S (length h) ->
                h2 !! l' = h' !! l') ->
    h2 !! S (length h) = Some (Obj ∅ (Some vs)) ->
    Forall2 (trepr (length h) h2) vs args ->
    trepr (length h) h2 (VRef (S (S (length h))))
      (TCallExpression (TIdentifier name) args)).
  { intros h2 v new2 vs args h' Hagree Harr Hargs.
    destruct (Hfinal new2 v) as (_ & _ & _ & Hlt & _ & H0 & H2 & _).
    fold h' in Hlt, H0, H2.
    apply (trepr_CallExpression _ _ _ (VRef (length h)) (S (length h)) vs);
      try lia; try assumption.
    - rewrite Hagree; [exact H2|lia| |lia]. eapply lookup_lt_Some; eauto.
    - apply trepr_Identifier; [lia|].
      rewrite Hagree; [exact H0|lia| |lia]. eapply lookup_lt_Some; eauto. }
  rewrite Hstart. unfold is_str.
  destruct (decide (pty = js "CallExpression")) as [Epty|Epty].
  - rewrite (bool_decide_eq_true_2 (pty = _)) by exact Epty.
    rewrite bool_decide_eq_true_2 by congruence. cbn [negb].
    exists (<[c := Obj pp (Some (ces ++ [VRef (S (S (length h)))]))]> (h3 ++ [])),
      (VRef (S (S (length h)))).
    destruct (Hfinal [] (VRef (S (S (length h))))) as (F1 & F2 & F3 & F4 & F5 & _).
    split; [|split; [|split; [|split; [|split; [|split]]]]]; try assumption.
    + erewrite bind_Return by reflexivity.
      rewrite (bind_Return _ _ _ _ _ (get_field _ _ _ _ (H3p _ _ Hctx))).
      rewrite app_nil_r. apply push_ref. exact H3c.
    + intros h2 vs args. apply Hcallee.
  - rewrite (bool_decide_eq_false_2 (pty = _)) by exact Epty.
    rewrite bool_decide_eq_false_2 by congruence. cbn [negb].
    exists (<[c := Obj pp (Some (ces ++ [VRef (S (S (S (length h))))]))]> (h3 ++ [stmt])),
      (VRef (S (S (S (length h))))).
    destruct (Hfinal [stmt] (VRef (S (S (S (length h))))))
      as (F1 & F2 & F3 & F4 & F5 & _ & _ & F8).
    split; [|split; [|split; [|split; [|split; [|split]]]]]; try assumption.
    + erewrite bind_Return by reflexivity. rewrite Hlen. fold stmt.
      rewrite (bind_Return _ _ _ _ _ (get_field _ _ _ _ (field_app _ [stmt] _ _ _ (H3p _ _ Hctx)))).
      apply push_ref. apply lookup_app_l_Some. exact H3c.
    + intros h2 vs args Hagree Harr Hargs.
      apply (trepr_ExpressionStatement _ _ _ (VRef (S (S (length h))))); [lia| |].
      * rewrite Hagree; [apply F8; reflexivity|lia| |lia].
        rewrite length_insert, length_app, Hlen. cbn. lia.
      * eapply Hcallee; eauto.
Qed.

(** *** The calls for a subtree *)

Lemma transformed_refl n0 ns c h : transformed n0 ns c h h.
Proof.
  split; [lia|]. split; [reflexivity|]. split; [reflexivity|].
  intros l o _ E. exists o. split; [exact E|apply same_public_refl].
Qed.

Lemma transformed_trans n0 ns1 ns2 c c' h h1 h2 :
  transformed n0 ns1 c h h1 -> transformed n0 ns2 c' h1 h2 ->
  c' = c \/ length h <= c' ->
  transformed n0 (ns1 ++ ns2) c h h2.
Proof.
  intros (L1 & A1 & B1 & C1) (L2 & A2 & B2 & C2) Hc.
  split; [lia|]. split; [|split].
  - intros l H1 H2 H3. rewrite A2, A1; auto; lia.
  - intros l H1 H2. rewrite not_elem_of_app in H2. destruct H2.
    rewrite B2, B1; auto.
  - intros l o H1 E. destruct (C1 l o H1 E) as (o1 & E1 & S1).
    destruct (C2 l o1 H1 E1) as (o2 & E2 & S2).
    exists o2. split; [exact E2|]. eapply same_public_trans; eauto.
Qed.

Lemma evolved_transformed h0 ns c h h' :
  evolved h0 h -> transformed (length h0) ns c h h' -> evolved h0 h'.
Proof.
  intros He (_ & _ & _ & C) l o E.
  destruct (He l o E) as (o1 & E1 & S1).
  destruct (C l o1 (lookup_lt_Some _ _ _ E) E1) as (o2 & E2 & S2).
  exists o2. split; [exact E2|]. eapply same_public_trans; eauto.
Qed.

Lemma lower_children h0 cs :
  Forall (lowers h0) cs ->
  forall fuel pre a h p pty c pp ces,
    Forall (fun t => height t < fuel) cs ->
    array_at h0 a = Some (map (fun c => VRef (root c)) (pre ++ cs)) ->
    evolved h0 h -> p < length h0 -> Forall (fun t => p ∉ nodes t) cs ->
    field h p "type" = Some (VString pty) ->
    field h p "_context" = Some (VRef c) ->
    length h0 <= c -> h !! c = Some (Obj pp (Some ces)) ->
    exists h' vs,
      forEach_from (length cs) (length pre) (VRef a)
        (fun child => traverseNode fuel transformer_visitor child (VRef p)) h
      = Return (tt, h')
      /\ h' !! c = Some (Obj pp (Some (ces ++ vs)))
      /\ Forall2 (trepr (length h) h') vs
           (map (lower (bool_decide (pty = js "CallExpression"))) cs)
      /\ transformed (length h0) (flat_map nodes cs) c h h'.
Proof.
  induction 1 as [|t cs Ht Hcs IH];
    intros fuel pre a h p pty c pp ces Hfuel Harr He Hp Hnot Hty Hctx Hc Ec.
  - exists h, []. split; [reflexivity|]. rewrite app_nil_r.
    split; [exact Ec|]. split; [constructor|apply transformed_refl].
  - inversion Hnot as [|? ? Hnt Hncs]; subst.
    inversion Hfuel as [|? ? Hft Hfcs]; subst.
    destruct (Ht fuel h p pty c pp ces Hft He Hp Hnt Hty Hctx Hc Ec)
      as (h1 & v & Hrun & Ec1 & Tv & Tr1).
    pose proof (evolved_transformed _ _ _ _ _ He Tr1) as He1.
    pose proof (evolved_length _ _ He) as Hlen.
    pose proof (lookup_lt_Some _ _ _ Ec) as Hclt.
    assert (Hp1 : h1 !! p = h !! p) by (apply Tr1; assumption).
    assert (Hty1 : field h1 p "type" = Some (VString pty))
      by (unfold field in *; rewrite Hp1; exact Hty).
    assert (Hctx1 : field h1 p "_context" = Some (VRef c))
      by (unfold field in *; rewrite Hp1; exact Hctx).
    assert (Harr1 : array_at h0 a
                    = Some (map (fun c => VRef (root c)) ((pre ++ [t]) ++ cs)))
      by (rewrite <- app_assoc; exact Harr).
    destruct (IH fuel (pre ++ [t]) a h1 p pty c pp (ces ++ [v])
                Hfcs Harr1 He1 Hp Hncs Hty1 Hctx1 Hc Ec1)
      as (h2 & vs & Hrun2 & Ec2 & Tvs & Tr2).
    exists h2, (v :: vs). split; [|split; [|split]].
    + cbn [length forEach_from].
      rewrite (bind_Return _ _ _ _ _
                 (element_at _ _ _ _ (evolved_array_at _ _ _ _ He Harr))).
      rewrite list_lookup_fmap, lookup_app_r, Nat.sub_diag by lia. cbn.
      rewrite (bind_Return _ _ _ _ _ Hrun).
      replace (S (length pre)) with (length (pre ++ [t]))
        by (rewrite length_app; cbn; lia).
      exact Hrun2.
    + rewrite <- app_assoc in Ec2. exact Ec2.
    + cbn [map]. constructor.
      * apply (trepr_frame (length h) (length h) h1 h2); [lia| |exact Tv].
        intros l Hl1 Hl2. destruct Tr2 as (_ & A2 & _). apply A2; lia.
      * eapply Forall2_impl; [exact Tvs|]. intros x y T.
        apply (trepr_frame (length h1) (length h) h2 h2);
          [destruct Tr1; lia|reflexivity|exact T].
    + cbn [flat_map]. eapply transformed_trans; eauto.
Qed.

(** What [traverseNode] does with each kind of node once its type has been
    read, for the transformer's visitor. *)
Lemma traverseNode_literal (ty : string) (f : callback) fuel l p h h' :
  ty = "NumberLiteral" \/ ty = "StringLiteral" ->
  transformer_visitor (js ty) = Some (Methods (Some f) None) ->
  field h l "type" = Some (VString (js ty)) ->
  f (VRef l) p h = Return (tt, h') ->
  field h' l "type" = Some (VString (js ty)) ->
  traverseNode (S fuel) transformer_visitor (VRef l) p h = Return (tt, h').
Proof.
  intros Hty Hv Ht Hf Ht'. cbn [traverseNode].
  rewrite (bind_Return _ _ _ _ _ (get_field _ _ _ _ Ht)). cbn [ToStringV].
  rewrite Hv. cbn [call_method enter exit].
  rewrite (bind_Return _ _ _ _ _ Hf).
  rewrite (bind_Return _ _ _ _ _ (get_field _ _ _ _ Ht')).
  destruct Hty as [-> | ->]; reflexivity.
Qed.

Lemma traverseNode_call fuel l p a n h he h' :
  field h l "type" = Some (VString (js "CallExpression")) ->
  CallExpression_enter (VRef l) p h = Return (tt, he) ->
  field he l "type" = Some (VString (js "CallExpression")) ->
  field he l "params" = Some (VRef a) ->
  array_length "forEach" (VRef a) he = Return (n, he) ->
  forEach_from n 0 (VRef a)
    (fun child => traverseNode fuel transformer_visitor child (VRef l)) he
  = Return (tt, h') ->
  traverseNode (S fuel) transformer_visitor (VRef l) p h = Return (tt, h').
Proof.
  intros Ht Hf Ht' Hpar Hn Hloop. cbn [traverseNode].
  rewrite (bind_Return _ _ _ _ _ (get_field _ _ _ _ Ht)). cbn [ToStringV].
  change (transformer_visitor (js "CallExpression"))
    with (Some (Methods (Some CallExpression_enter) None)).
  cbn [call_method enter exit].
  rewrite (bind_Return _ _ _ _ _ Hf).
  rewrite (bind_Return _ _ _ _ _ (get_field _ _ _ _ Ht')).
  change (is_str (VString (js "CallExpression")) "Program") with false.
  change (is_str (VString (js "CallExpression")) "CallExpression") with true.
  cbv iota.
  erewrite (bind_Return (bind _ _)); [reflexivity|].
  rewrite (bind_Return _ _ _ _ _ (get_field _ _ _ _ Hpar)).
  unfold forEach. rewrite (bind_Return _ _ _ _ _ Hn). exact Hloop.
Qed.

Lemma traverseNode_program fuel l p a n h h' :
  field h l "type" = Some (VString (js "Program")) ->
  field h l "body" = Some (VRef a) ->
  array_length "forEach" (VRef a) h = Return (n, h) ->
  forEach_from n 0 (VRef a)
    (fun child => traverseNode fuel transformer_visitor child (VRef l)) h
  = Return (tt, h') ->
  traverseNode (S fuel) transformer_visitor (VRef l) p h = Return (tt, h').
Proof.
  intros Ht Hbody Hn Hloop. cbn [traverseNode].
  rewrite (bind_Return _ _ _ _ _ (get_field _ _ _ _ Ht)). cbn [ToStringV].
  change (transformer_visitor (js "Program")) with (@None methods).
  cbn [call_method]. erewrite bind_Return by reflexivity.
  rewrite (bind_Return _ _ _ _ _ (get_field _ _ _ _ Ht)).
  change (is_str (VString (js "Program")) "Program") with true. cbv iota.
  erewrite (bind_Return (bind _ _)); [reflexivity|].
  rewrite (bind_Return _ _ _ _ _ (get_field _ _ _ _ Hbody)).
  unfold forEach. rewrite (bind_Return _ _ _ _ _ Hn). exact Hloop.
Qed.

(** The three [enter] methods build the target tree of every expression. *)
Lemma lower_expression h0 t : expression t -> repr h0 t -> lowers h0 t.
Proof.
  induction t as [l a body IH|l name a params IH|l value|l value]
    using stree_ind'; intros Hexpr R; inversion Hexpr; subst;
    intros [|fuel] h p pty c pp ces Hfuel He Hp Hnot Hty Hctx Hc Ec;
    try (cbn in Hfuel; lia);
    pose proof (repr_evolved _ _ _ He R) as Rh; inversion Rh; subst.
  - (* CallExpression *)
    assert (Hl : l < length h0) by (inversion R; subst; eapply field_lt; eauto).
    assert (Hpl : p <> l) by (intros ->; apply Hnot; cbn; constructor).
    assert (Hn : field h l "name" = Some (VString name)) by assumption.
    destruct (field_lookup _ _ _ _ Hn) as (ol & El & Hname).
    destruct (CallExpression_enter_spec (length h0) l p pty c name ol pp ces h
                El Hname Hl Hpl Hty Hctx Hc Ec)
      as (he & v & Henter & Ece & Hctxe & Harr & Hlt & Tre & Htree).
    pose proof (evolved_transformed _ _ _ _ _ He Tre) as Hee.
    pose proof (evolved_length _ _ He) as Hlen.
    pose proof (lookup_lt_Some _ _ _ Ec) as Hclt.
    assert (Hkids : Forall (lowers h0) params).
    { apply Forall_forall. intros k Hk.
      apply (proj1 (Forall_forall _ _) IH k Hk).
      - match goal with
        | H : Forall expression params |- _ =>
            exact (proj1 (Forall_forall _ _) H k Hk)
        end.
      - apply (repr_children h0 _ R). exact Hk. }
    assert (Hacyc : Forall (fun k => l ∉ nodes k) params).
    { apply Forall_forall. intros k Hk. apply (repr_acyclic h0 _ k R). exact Hk. }
    assert (Hfk : Forall (fun k => height k < fuel) params).
    { apply Forall_forall. intros k Hk.
      pose proof (height_child k params Hk). cbn in Hfuel. lia. }
    inversion R; subst.
    assert (Htye : field he l "type" = Some (VString (js "CallExpression")))
      by (eapply evolved_field; [exact Hee|discriminate|assumption]).
    assert (Hpe : field he l "params" = Some (VRef a))
      by (eapply evolved_field; [exact Hee|discriminate|assumption]).
    assert (Ha0 : array_at h0 a = Some (map (fun c => VRef (root c)) ([] ++ params)))
      by assumption.
    destruct (lower_children h0 params Hkids fuel [] a he l (js "CallExpression")
                (S (length h)) ∅ [] Hfk Ha0 Hee Hl Hacyc Htye Hctxe
                ltac:(lia) Harr)
      as (h' & vs & Hrun & Earr' & Tvs & Tr').
    rewrite bool_decide_eq_true_2 in Tvs by reflexivity.
    exists h', v. split; [|split; [|split]].
    + eapply traverseNode_call; try eassumption.
      rewrite (array_length_at _ _ _ _ (evolved_array_at _ _ _ _ Hee Ha0)).
      rewrite length_map. reflexivity.
    + destruct Tr' as (_ & A' & _). rewrite A'; [exact Ece|lia| |lia].
      eapply lookup_lt_Some; eauto.
    + cbn [lower]. apply (Htree h' vs).
      * intros l' H1 H2 H3. destruct Tr' as (_ & A' & _). apply A'; lia.
      * exact Earr'.
      * eapply Forall2_impl; [exact Tvs|]. intros x y T.
        apply (trepr_frame (length he) (length h) h' h');
          [destruct Tre; lia|reflexivity|exact T].
    + cbn [nodes]. change (l :: flat_map nodes params)
        with ([l] ++ flat_map nodes params).
      eapply transformed_trans; [exact Tre|exact Tr'|]. right. lia.
  - (* NumberLiteral *)
    assert (Hv : field h l "value" = Some (VString value)) by assumption.
    destruct (literal_enter_spec "NumberLiteral" (length h0) l p c value pp ces h
                Hv Hctx Hc Ec) as (Hrun & Ec' & Elit & Tr).
    eexists _, (VRef (length h)). split; [|split; [|split]].
    + eapply (traverseNode_literal "NumberLiteral"); [auto|reflexivity| |exact Hrun|].
      * assumption.
      * eapply evolved_field;
          [exact (evolved_transformed _ _ _ _ _ He Tr)|discriminate|].
        inversion R; subst; assumption.
    + exact Ec'.
    + cbn [lower]. apply trepr_NumberLiteral; [lia|exact Elit].
    + exact Tr.
  - (* StringLiteral *)
    assert (Hv : field h l "value" = Some (VString value)) by assumption.
    destruct (literal_enter_spec "StringLiteral" (length h0) l p c value pp ces h
                Hv Hctx Hc Ec) as (Hrun & Ec' & Elit & Tr).
    eexists _, (VRef (length h)). split; [|split; [|split]].
    + eapply (traverseNode_literal "StringLiteral"); [auto|reflexivity| |exact Hrun|].
      * assumption.
      * eapply evolved_field;
          [exact (evolved_transformed _ _ _ _ _ He Tr)|discriminate|].
        inversion R; subst; assumption.
    + exact Ec'.
    + cbn [lower]. apply trepr_StringLiteral; [lia|exact Elit].
    + exact Tr.
Qed.

(** *** The transformer on a Program *)

(** On a Program whose body is made of expressions the transformer
    returns a new Program at the location behind the source heap; the heap
    then holds the target tree, and the objects of the source heap have
    their public state.  The [_context] of the source Program is the body
    of the new one, and the objects that are not nodes of the source tree
    are as they were. *)
Lemma transformer_program_heap fuel h0 l a body :
  repr h0 (SProgram l a body) -> Forall expression body ->
  height (SProgram l a body) < fuel ->
  exists h',
    transformer fuel (VRef l) h0 = Return (VRef (S (length h0)), h')
    /\ trepr (length h0) h' (VRef (S (length h0)))
         (lower false (SProgram l a body))
    /\ evolved h0 h'
    /\ field h' l "_context" = Some (VRef (length h0))
    /\ field h' (S (length h0)) "body" = Some (VRef (length h0))
    /\ (forall l', l' < length h0 -> l' ∉ nodes (SProgram l a body) ->
                   h' !! l' = h0 !! l').
Proof.
  intros R Hbody Hfuel. destruct fuel as [|fuel]; [lia|].
  pose proof (repr_children h0 _ R) as Rkids.
  assert (Hacyc0 : forall k, k ∈ body -> l ∉ nodes k)
    by (intros k Hk; apply (repr_acyclic h0 _ k R); exact Hk).
  inversion R; subst.
  match goal with H : field h0 l "type" = _ |- _ =>
    destruct (field_lookup _ _ _ _ H) as (ol & El & Hty) end.
  pose proof (lookup_lt_Some _ _ _ El) as Hl.
  set (prog := Obj (list_to_map [("type", VString (js "Program"));
                                 ("body", VRef (length h0))]) None).
  set (ol' := Obj (<["_context" := VRef (length h0)]> (props ol)) (elems ol)).
  set (base := h0 ++ [Obj ∅ (Some []); prog]).
  set (h3 := <[l := ol']> base).
  assert (Hb0 : base !! length h0 = Some (Obj ∅ (Some [])))
    by (unfold base; rewrite lookup_app_r, Nat.sub_diag by lia; reflexivity).
  assert (Hb1 : base !! S (length h0) = Some prog).
  { unfold base. rewrite lookup_app_r by lia.
    replace (S (length h0) - length h0) with 1 by lia. reflexivity. }
  assert (Hbl : base !! l = Some ol) by (apply lookup_app_l_Some; exact El).
  assert (Hlen3 : length h3 = S (S (length h0))).
  { unfold h3, base. rewrite length_insert, length_app. cbn. lia. }
  assert (He3 : evolved h0 h3).
  { intros l' o E. unfold h3. destruct (decide (l' = l)) as [->|Hne].
    - exists ol'. rewrite El in E. inversion E; subst o.
      split; [apply list_lookup_insert_eq; unfold base; rewrite length_app; lia|].
      split; [reflexivity|]. intros k Hk. cbn.
      rewrite lookup_insert_ne by congruence. reflexivity.
    - exists o. split; [|apply same_public_refl].
      rewrite list_lookup_insert_ne by congruence.
      apply lookup_app_l_Some. exact E. }
  assert (H30 : h3 !! length h0 = Some (Obj ∅ (Some [])))
    by (unfold h3; rewrite list_lookup_insert_ne by lia; exact Hb0).
  assert (H31 : h3 !! S (length h0) = Some prog)
    by (unfold h3; rewrite list_lookup_insert_ne by lia; exact Hb1).
  assert (Hctx3 : field h3 l "_context" = Some (VRef (length h0))).
  { unfold h3, field.
    rewrite list_lookup_insert_eq by (unfold base; rewrite length_app; lia).
    cbn. apply lookup_insert_eq. }
  assert (Hty3 : field h3 l "type" = Some (VString (js "Program")))
    by (eapply evolved_field; [exact He3|discriminate|assumption]).
  assert (Hbody3 : field h3 l "body" = Some (VRef a))
    by (eapply evolved_field; [exact He3|discriminate|assumption]).
  assert (Ha0 : array_at h0 a = Some (map (fun c => VRef (root c)) ([] ++ body)))
    by assumption.
  assert (Hkids : Forall (lowers h0) body).
  { apply Forall_forall. intros k Hk. apply lower_expression.
    - exact (proj1 (Forall_forall _ _) Hbody k Hk).
    - apply Rkids. exact Hk. }
  assert (Hacyc : Forall (fun k => l ∉ nodes k) body).
  { apply Forall_forall. intros k Hk. apply (Hacyc0 k). exact Hk. }
  assert (Hfk : Forall (fun k => height k < fuel) body).
  { apply Forall_forall. intros k Hk.
    pose proof (height_child k body Hk). cbn in Hfuel. lia. }
  destruct (lower_children h0 body Hkids fuel [] a h3 l (js "Program")
              (length h0) ∅ [] Hfk Ha0 He3 Hl Hacyc Hty3 Hctx3 ltac:(lia) H30)
    as (h' & vs & Hrun & Earr' & Tvs & Tr').
  rewrite bool_decide_eq_false_2 in Tvs by discriminate.
  exists h'. split; [|split; [|split; [|split; [|split]]]].
  - unfold transformer.
    erewrite bind_Return by reflexivity.
    erewrite bind_Return by reflexivity.
    rewrite !length_app. cbn [length]. rewrite Nat.add_1_r.
    rewrite <- !app_assoc. cbn [app]. fold prog base.
    erewrite bind_Return
      by (apply get_field; rewrite (lookup_field _ _ _ _ Hb1); reflexivity).
    rewrite (bind_Return _ _ _ _ _ (set_ref _ _ _ _ _ Hbl)). fold ol' h3.
    unfold traverser.
    erewrite bind_Return; [reflexivity|].
    eapply traverseNode_program; try eassumption.
    rewrite (array_length_at _ _ _ _ (evolved_array_at _ _ _ _ He3 Ha0)).
    rewrite length_map. reflexivity.
  - cbn [lower].
    destruct Tr' as (Lh & A' & _).
    apply (trepr_Program _ _ _ (length h0) vs); try lia.
    + rewrite A'; [exact H31|lia|lia|lia].
    + exact Earr'.
    + eapply Forall2_impl; [exact Tvs|]. intros x y T.
      apply (trepr_frame (length h3) (length h0) h' h');
        [lia|reflexivity|exact T].
  - eapply evolved_transformed; eauto.
  - destruct Tr' as (_ & _ & B' & _). unfold field.
    rewrite B'; [exact Hctx3|exact Hl|].
    intros Hin. apply elem_of_flat_map in Hin as (k & Hk & Hin).
    exact (Hacyc0 k Hk Hin).
  - destruct Tr' as (_ & A' & _). unfold field.
    rewrite A' by lia. rewrite H31. reflexivity.
  - intros l' Hl' Hnot. cbn [nodes] in Hnot.
    apply not_elem_of_cons in Hnot as [Hne Hnot].
    destruct Tr' as (_ & _ & B' & _). rewrite B' by assumption.
    unfold h3. rewrite list_lookup_insert_ne by congruence.
    unfold base. apply lookup_app_l. exact Hl'.
Qed.

Lemma transformer_program fuel h0 l a body :
  repr h0 (SProgram l a body) -> Forall expression body ->
  height (SProgram l a body) < fuel ->
  exists h',
    transformer fuel (VRef l) h0 = Return (VRef (S (length h0)), h')
    /\ trepr (length h0) h' (VRef (S (length h0)))
         (lower false (SProgram l a body))
    /\ evolved h0 h'.
Proof.
  intros R Hbody Hfuel.
  destruct (transformer_program_heap fuel h0 l a body R Hbody Hfuel)
    as (h' & Hrun & T & He & _).
  exists h'. auto.
Qed.

(** ** Code generator: the text of a target tree *)

Lemma get_known l k x h m e :
  h !! l = Some (Obj m e) -> m !! k = Some x -> get (VRef l) k h = Return (x, h).
Proof. intros E Ek. unfold get. rewrite E. cbn. rewrite Ek. reflexivity. Qed.

Lemma theight_child c cs :
  c ∈ cs -> theight c <= foldr (fun c n => Nat.max (theight c) n) 0 cs.
Proof.
  induction cs as [|c' cs IH]; intros H; [inversion H|].
  cbn. apply elem_of_cons in H as [->|H]; [lia|]. apply IH in H. lia.
Qed.

Lemma map_from_trepr lo (f : val -> M val) a h pp pre vs ns :
  h !! a = Some (Obj pp (Some (pre ++ vs))) ->
  Forall2 (fun v n => trepr lo h v n /\
                      f v h = Return (VString (gen n), h)) vs ns ->
  map_from (length vs) (length pre) (VRef a) f h
  = Return (map (fun n => VString (gen n)) ns, h).
Proof.
  intros Ea H2. revert pre Ea.
  induction H2 as [|v n vs ns [_ Hf] H2 IH]; intros pre Ea; [reflexivity|].
  cbn [length map_from map].
  assert (Harr : array_at h a = Some (pre ++ v :: vs))
    by (unfold array_at; rewrite Ea; reflexivity).
  rewrite (bind_Return _ _ _ _ _ (element_at _ _ _ _ Harr)).
  rewrite lookup_app_r, Nat.sub_diag by lia. cbn.
  rewrite (bind_Return _ _ _ _ _ Hf).
  replace (S (length pre)) with (length (pre ++ [v]))
    by (rewrite length_app; cbn; lia).
  rewrite (bind_Return _ _ _ _ _ (IH (pre ++ [v])
             ltac:(rewrite <- app_assoc; exact Ea))).
  reflexivity.
Qed.

Lemma array_map_trepr lo (f : val -> M val) a h pp vs ns :
  h !! a = Some (Obj pp (Some vs)) ->
  Forall2 (fun v n => trepr lo h v n /\
                      f v h = Return (VString (gen n), h)) vs ns ->
  array_map (VRef a) f h = Return (map (fun n => VString (gen n)) ns, h).
Proof.
  intros Ea H2. unfold array_map.
  assert (Harr : array_at h a = Some vs)
    by (unfold array_at; rewrite Ea; reflexivity).
  rewrite (bind_Return _ _ _ _ _ (array_length_at _ _ _ _ Harr)).
  apply (map_from_trepr lo f a h pp []); assumption.
Qed.

Lemma Forall2_Forall_r_impl {A B} (R R' : A -> B -> Prop) xs ys :
  Forall (fun y => forall x, R x y -> R' x y) ys ->
  Forall2 R xs ys -> Forall2 (fun x y => R x y /\ R' x y) xs ys.
Proof.
  intros HF H2. induction H2 as [|x y xs ys Hxy H2 IH]; [constructor|].
  inversion HF; subst. constructor; auto.
Qed.

Ltac known_get k x :=
  match goal with
  | H : ?h !! ?l = Some (Obj (list_to_map _) None)
    |- context [bind (get (VRef ?l) k) _ ?h] =>
      rewrite (bind_Return _ _ _ _ _ (get_known l k x h _ _ H eq_refl))
  end.

Ltac known_get_last k x :=
  match goal with
  | H : ?h !! ?l = Some (Obj (list_to_map _) None)
    |- get (VRef ?l) k ?h = _ =>
      exact (get_known l k x h _ _ H eq_refl)
  end.

(** On a target tree in the heap the code generator returns [gen] of the
    tree and leaves the heap as it is. *)
Lemma codeGenerator_trepr lo h n :
  forall v fuel,
    trepr lo h v n -> theight n < fuel ->
    codeGenerator fuel v h = Return (VString (gen n), h).
Proof.
  induction n as [body IH|e IH|callee args IHc IHa|name|value|value]
    using tnode_ind'; intros v [|fuel] T Hfuel; try lia;
    inversion T; subst; cbn [codeGenerator theight] in *.
  - known_get "type" (VString (js "Program")).
    change (is_str (VString (js "Program")) "Program") with true. cbv iota.
    known_get "body" (VRef a).
    erewrite bind_Return; [reflexivity|].
    eapply (array_map_trepr lo); [eassumption|].
    eapply Forall2_Forall_r_impl; [|eassumption].
    apply Forall_forall. intros c Hc x Tx.
    apply (proj1 (Forall_forall _ _) IH c Hc); [exact Tx|].
    pose proof (theight_child c body Hc). lia.
  - known_get "type" (VString (js "ExpressionStatement")).
    change (is_str (VString (js "ExpressionStatement")) "Program") with false.
    change (is_str (VString (js "ExpressionStatement")) "ExpressionStatement")
      with true. cbv iota.
    known_get "expression" e0.
    rewrite (bind_Return _ _ _ _ _ (IH e0 fuel ltac:(assumption) ltac:(lia))).
    reflexivity.
  - known_get "type" (VString (js "CallExpression")).
    change (is_str (VString (js "CallExpression")) "Program") with false.
    change (is_str (VString (js "CallExpression")) "ExpressionStatement")
      with false.
    change (is_str (VString (js "CallExpression")) "CallExpression") with true.
    cbv iota.
    known_get "callee" c.
    rewrite (bind_Return _ _ _ _ _ (IHc c fuel ltac:(assumption) ltac:(lia))).
    known_get "arguments" (VRef a).
    erewrite bind_Return; [reflexivity|].
    eapply (array_map_trepr lo); [eassumption|].
    eapply Forall2_Forall_r_impl; [|eassumption].
    apply Forall_forall. intros k Hk x Tx.
    apply (proj1 (Forall_forall _ _) IHa k Hk); [exact Tx|].
    pose proof (theight_child k args Hk). lia.
  - known_get "type" (VString (js "Identifier")).
    change (is_str (VString (js "Identifier")) "Program") with false.
    change (is_str (VString (js "Identifier")) "ExpressionStatement") with false.
    change (is_str (VString (js "Identifier")) "CallExpression") with false.
    change (is_str (VString (js "Identifier")) "Identifier") with true.
    cbv iota.
    known_get_last "name" (VString name).
  - known_get "type" (VString (js "NumberLiteral")).
    change (is_str (VString (js "NumberLiteral")) "Program") with false.
    change (is_str (VString (js "NumberLiteral")) "ExpressionStatement") with false.
    change (is_str (VString (js "NumberLiteral")) "CallExpression") with false.
    change (is_str (VString (js "NumberLiteral")) "Identifier") with false.
    change (is_str (VString (js "NumberLiteral")) "NumberLiteral") with true.
    cbv iota.
    known_get_last "value" (VString value).
  - known_get "type" (VString (js "StringLiteral")).
    change (is_str (VString (js "StringLiteral")) "Program") with false.
    change (is_str (VString (js "StringLiteral")) "ExpressionStatement") with false.
    change (is_str (VString (js "StringLiteral")) "CallExpression") with false.
    change (is_str (VString (js "StringLiteral")) "Identifier") with false.
    change (is_str (VString (js "StringLiteral")) "NumberLiteral") with false.
    change (is_str (VString (js "StringLiteral")) "StringLiteral") with true.
    cbv iota.
    known_get "value" (VString value).
    reflexivity.
Qed.

(** ** The target tree has no [_context] *)

Lemma target_value_here lo h l :
  target_value lo h (VRef l) ->
  exists o, h !! l = Some o /\ props o !! "_context" = None.
Proof.
  intros [(n & T)|[(a & vs & ns & E & Ea & _)|(s & E)]]; [| |discriminate].
  - inversion T; subst; eexists; (split; [eassumption|reflexivity]).
  - inversion E; subst. eexists; split; [eassumption|reflexivity].
Qed.

Lemma target_value_property lo h l o k x :
  target_value lo h (VRef l) -> h !! l = Some o -> props o !! k = Some x ->
  target_value lo h x.
Proof.
  intros [(n & T)|[(a & vs & ns & E & Ea & _)|(s & E)]] El Ek; [| |discriminate].
  - inversion T; subst;
      match goal with H : h !! l = Some _ |- _ =>
        rewrite El in H; inversion H; subst o; clear H end;
      cbn [props] in Ek;
      repeat (apply lookup_insert_Some in Ek as [[<- <-]|[_ Ek]]);
      try (rewrite lookup_empty in Ek; discriminate Ek);
      try (right; right; eexists; reflexivity);
      try (left; eexists; eassumption);
      right; left; eauto 6.
  - inversion E; subst. rewrite El in Ea. inversion Ea; subst.
    cbn in Ek. rewrite lookup_empty in Ek. discriminate.
Qed.

Lemma target_value_element lo h l o es i x :
  target_value lo h (VRef l) -> h !! l = Some o -> elems o = Some es ->
  es !! i = Some x -> target_value lo h x.
Proof.
  intros [(n & T)|[(a & vs & ns & E & Ea & F)|(s & E)]] El Ee Ei; [| |discriminate].
  - inversion T; subst;
      match goal with H : h !! l = Some _ |- _ =>
        rewrite El in H; inversion H; subst o; clear H end;
      discriminate Ee.
  - inversion E; subst. rewrite El in Ea. inversion Ea; subst.
    cbn in Ee. inversion Ee; subst.
    destruct (Forall2_lookup_l _ _ _ _ _ F Ei) as (n & _ & T).
    left. eauto.
Qed.

Lemma reachable_target lo h v l :
  reachable h v l -> target_value lo h v ->
  exists o, h !! l = Some o /\ props o !! "_context" = None.
Proof.
  induction 1 as [l|l o k x l' El Ek _ IH|l o es i x l' El Ee Ei _ IH]; intros T.
  - eapply target_value_here; eauto.
  - apply IH. eapply target_value_property; eauto.
  - apply IH. eapply target_value_element; eauto.
Qed.

Lemma example_call_repr : repr example_call_heap example_call_tree.
Proof.
  apply repr_Program; [reflexivity..|].
  constructor; [|constructor].
  apply repr_CallExpression; [reflexivity..|].
  constructor; [|constructor].
  apply repr_NumberLiteral; reflexivity.
Qed.

Lemma example_call_parsed :
  parser 4 [Token (js "paren") (js "("); Token (js "name") (js "add");
            Token (js "number") (js "2"); Token (js "paren") (js ")")] []
  = Return (VRef 1, example_call_heap).
Proof. vm_compute. reflexivity. Qed.

(** C7.  For every source Program in the heap (a Program node whose body
    is made of calls and literals), the transformer returns a target tree
    none of whose objects has a [_context] property, and every object that
    was in the heap before still has its elements and all its properties
    other than [_context]: the source tree keeps its public fields. *)
Theorem C7_transformer_frame (fuel : nat) (h0 : heap) (l a : loc) (body : list stree) :
  repr h0 (SProgram l a body) -> Forall expression body ->
  height (SProgram l a body) < fuel ->
  exists newAst h',
    transformer fuel (VRef l) h0 = Return (newAst, h')
    /\ (forall l', reachable h' newAst l' ->
                   exists o, h' !! l' = Some o /\ props o !! "_context" = None)
    /\ (forall l' o, h0 !! l' = Some o ->
                     exists o', h' !! l' = Some o' /\ elems o = elems o'
                       /\ forall k, k <> "_context" -> props o !! k = props o' !! k)
    /\ repr h' (SProgram l a body).
Proof.
  intros R Hbody Hfuel.
  destruct (transformer_program fuel h0 l a body R Hbody Hfuel) as (h' & Hrun & T & He).
  exists (VRef (S (length h0))), h'. split; [exact Hrun|]. split; [|split].
  - intros l' Hreach. apply (reachable_target (length h0) h' _ l' Hreach).
    left. eauto.
  - exact He.
  - eapply repr_evolved; eauto.
Qed.

Lemma C7_witness :
  exists newAst h',
    transformer 4 (VRef 1) example_call_heap = Return (newAst, h')
    /\ (forall l', reachable h' newAst l' ->
                   exists o, h' !! l' = Some o /\ props o !! "_context" = None)
    /\ (forall l' o, example_call_heap !! l' = Some o ->
                     exists o', h' !! l' = Some o' /\ elems o = elems o'
                       /\ forall k, k <> "_context" -> props o !! k = props o' !! k)
    /\ repr h' example_call_tree.
Proof.
  apply (C7_transformer_frame 4 example_call_heap 1 0
           [SCallExpression 3 (js "add") 2 [SNumberLiteral 4 (js "2")]]).
  - exact example_call_repr.
  - repeat constructor.
  - cbn. lia.
Defined.

(** ** Bare literals *)

(** The string-mode loop over a text [s] with no double quote in it,
    followed by one. *)
Lemma string_loop_scan s fuel input current value :
  dquote ∉ s ->
  (forall i x, s !! i = Some x -> input !! (current + i) = Some x) ->
  input !! (current + length s) = Some dquote ->
  string_loop (S (length s) + fuel) input current value (input !! current)
  = Some (current + length s, value ++ s, Some dquote).
Proof.
  revert current value.
  induction s as [|c s IH]; intros current value Hs Hin Hq.
  - cbn [length Nat.add string_loop]. rewrite Nat.add_0_r in *. rewrite Hq.
    rewrite bool_decide_eq_false_2 by (intros X; apply X; reflexivity).
    rewrite app_nil_r. reflexivity.
  - apply not_elem_of_cons in Hs as [Hc Hs].
    assert (H0 : input !! current = Some c)
      by (rewrite <- (Nat.add_0_r current); apply Hin; reflexivity).
    change (S (length (c :: s)) + fuel) with (S (S (length s) + fuel)).
    unfold_once string_loop. rewrite H0.
    rewrite bool_decide_eq_true_2 by congruence. cbn [ToString].
    rewrite IH.
    + rewrite <- app_assoc. cbn [app length].
      replace (S current + length s) with (current + S (length s)) by lia.
      reflexivity.
    + exact Hs.
    + intros i x Hx. replace (S current + i) with (current + S i) by lia.
      apply Hin. exact Hx.
    + replace (S current + length s) with (current + S (length s)) by lia.
      exact Hq.
Qed.

Lemma tokenizer_string s fuel :
  dquote ∉ s ->
  tokenizer (3 + length s + fuel) (dquote :: s ++ [dquote])
  = Return [Token (js "string") s].
Proof.
  intros Hs. unfold tokenizer.
  replace (3 + length s + fuel) with (S (S (length s) + S fuel)) by lia.
  unfold_once tokenizer_loop.
  rewrite bool_decide_eq_true_2 by (cbn; lia).
  change ((dquote :: s ++ [dquote]) !! 0) with (Some dquote).
  change (bool_decide (Some dquote = Some lparen)
          || bool_decide (Some dquote = Some rparen)) with false.
  change (WS_test (Some dquote)) with false.
  change (NUMBER_test (Some dquote)) with false.
  change (bool_decide (Some dquote = Some dquote)) with true. cbv iota.
  rewrite string_loop_scan; [|exact Hs| |].
  - change (S (length s) + S fuel) with (S (length s + S fuel)).
    unfold_once tokenizer_loop.
    rewrite bool_decide_eq_false_2; [reflexivity|].
    cbn [length]. rewrite length_app. cbn. lia.
  - intros i x Hx. cbn. apply lookup_app_l_Some. exact Hx.
  - exact (list_lookup_middle (dquote :: s) [] dquote _ eq_refl).
Qed.

Lemma tokenizer_digit d fuel :
  is_digit d = true ->
  tokenizer (2 + fuel) [d] = Return [Token (js "number") [d]].
Proof.
  intros Hd. unfold tokenizer. change (2 + fuel) with (S (S fuel)).
  rewrite (tokenizer_loop_digit (S fuel) [d] 0 [] d eq_refl Hd). reflexivity.
Qed.

(** C10.  A bare literal at top level goes into the body of the target
    Program as it is, and only calls are wrapped: the output for a digit is
    the digit, the output for a string literal is the literal, neither
    with a semicolon; and for every source Program the transformer builds
    the target Program whose body holds, for each top-level node in order,
    [lower false] of it, which is the literal itself for a literal and an
    ExpressionStatement around the call for a call. *)
Theorem C10_bare_literals :
  (forall d fuel, is_digit d = true ->
      compile (4 + fuel) [d] = Return (VString [d]))
  /\ (forall s fuel, dquote ∉ s ->
        compile (4 + length s + fuel) (dquote :: s ++ [dquote])
        = Return (VString (dquote :: s ++ [dquote])))
  /\ (forall fuel h0 l a body,
        repr h0 (SProgram l a body) -> Forall expression body ->
        height (SProgram l a body) < fuel ->
        exists h',
          transformer fuel (VRef l) h0 = Return (VRef (S (length h0)), h')
          /\ trepr (length h0) h' (VRef (S (length h0)))
               (TProgram (map (lower false) body)))
  /\ (forall l value, lower false (SNumberLiteral l value) = TNumberLiteral value)
  /\ (forall l value, lower false (SStringLiteral l value) = TStringLiteral value)
  /\ (forall l name a params,
        lower false (SCallExpression l name a params)
        = TExpressionStatement
            (TCallExpression (TIdentifier name) (map (lower true) params))).
Proof.
  split; [|split; [|split; [|split; [|split]]]]; try reflexivity.
  - intros d fuel Hd. apply (compile_mono 4); [|discriminate|lia].
    unfold compile. change (tokenizer 4 [d]) with (tokenizer (2 + 2) [d]).
    rewrite (tokenizer_digit d 2 Hd).
    vm_compute. reflexivity.
  - intros s fuel Hs. apply (compile_mono (4 + length s)); [|discriminate|lia].
    unfold compile.
    replace (tokenizer (4 + length s) (dquote :: s ++ [dquote]))
      with (tokenizer (3 + length s + 1) (dquote :: s ++ [dquote]))
      by (f_equal; lia).
    rewrite (tokenizer_string s 1 Hs).
    vm_compute. reflexivity.
  - intros fuel h0 l a body R Hbody Hfuel.
    destruct (transformer_program fuel h0 l a body R Hbody Hfuel)
      as (h' & Hrun & T & _). eauto.
Qed.

Lemma C10_witness :
  compile 4 (js "7") = Return (VString (js "7"))
  /\ compile 6 (dquote :: js "hi" ++ [dquote])
     = Return (VString (dquote :: js "hi" ++ [dquote])).
Proof.
  split.
  - refine (proj1 C10_bare_literals 55%N 0 _). reflexivity.
  - refine (proj1 (proj2 C10_bare_literals) (js "hi") 0 _).
    intros H. vm_compute in H.
    repeat (apply elem_of_cons in H as [H|H]; [discriminate|]).
    inversion H.
Defined.

(** ** Runs that return *)

Lemma bind_inv {A B} (m : M A) (k : A -> M B) h r :
  bind m k h = Return r -> exists a h1, m h = Return (a, h1) /\ k a h1 = Return r.
Proof.
  unfold bind. destruct (m h) as [[a h1]| |]; [eauto|discriminate..].
Qed.

Lemma get_inv v k h x h' : get v k h = Return (x, h') -> h' = h.
Proof.
  unfold get. destruct v; try discriminate; [congruence|].
  destruct (h !! l); congruence.
Qed.

Lemma push_inv a y h r :
  push a y h = Return r ->
  exists c pp es, a = VRef c /\ h !! c = Some (Obj pp (Some es))
                  /\ r = (tt, <[c := Obj pp (Some (es ++ [y]))]> h).
Proof.
  unfold push. destruct a; try discriminate.
  destruct (h !! l) as [[pp [es|]]|] eqn:El; try discriminate.
  intros E. inversion E. eauto 6.
Qed.

(** ** Parser: the tree it builds *)

Lemma repr_frame lo h h' t :
  repr h t -> Forall (fun l => lo <= l) (locs t) ->
  (forall l, lo <= l -> l < length h -> h' !! l = h !! l) ->
  repr h' t.
Proof.
  intros R Hlo Hframe.
  assert (Hf : forall l k x, lo <= l -> field h l k = Some x -> field h' l k = Some x).
  { intros l k x Hl E. pose proof (field_lt _ _ _ _ E). unfold field in *.
    rewrite Hframe by assumption. exact E. }
  assert (Ha : forall l es, lo <= l -> array_at h l = Some es -> array_at h' l = Some es).
  { intros l es Hl E. unfold array_at in *.
    destruct (h !! l) eqn:El; [|discriminate].
    rewrite Hframe, El; [exact E|exact Hl|]. eapply lookup_lt_Some; eauto. }
  revert R Hlo.
  induction t as [l a body IH|l name a params IH|l value|l value]
    using stree_ind'; intros R Hlo; inversion R; subst; cbn [locs] in Hlo;
    inversion Hlo as [|? ? Hl Hlo']; subst.
  - inversion Hlo' as [|? ? Hal Hlo'']; subst.
    apply repr_Program; auto.
    apply Forall_forall. intros c Hc.
    apply (proj1 (Forall_forall _ _) IH c Hc).
    + match goal with H : Forall (repr h) _ |- _ =>
        exact (proj1 (Forall_forall _ _) H c Hc) end.
    + apply Forall_forall. intros x Hx.
      apply (proj1 (Forall_forall _ _) Hlo'' x).
      apply elem_of_flat_map. eauto.
  - inversion Hlo' as [|? ? Hal Hlo'']; subst.
    apply repr_CallExpression; auto.
    apply Forall_forall. intros c Hc.
    apply (proj1 (Forall_forall _ _) IH c Hc).
    + match goal with H : Forall (repr h) _ |- _ =>
        exact (proj1 (Forall_forall _ _) H c Hc) end.
    + apply Forall_forall. intros x Hx.
      apply (proj1 (Forall_forall _ _) Hlo'' x).
      apply elem_of_flat_map. eauto.
  - apply repr_NumberLiteral; auto.
  - apply repr_StringLiteral; auto.
Qed.

(** A token with no branch that is not the closing paren: the loop of the
    call branch never returns. *)
Lemma params_loop_stuck tokens current token :
  tokens !! current = Some token -> no_branch token -> not_closing token = true ->
  forall fuel node h r, params_loop fuel tokens current node h <> Return r.
Proof.
  intros Ht Hno Hnc. induction fuel as [|fuel IH]; intros node h r H; [discriminate|].
  cbn [params_loop] in H. rewrite Ht in H. fold (not_closing token) in H.
  rewrite Hnc in H.
  apply bind_inv in H as (params & h1 & Hg & H). apply get_inv in Hg as ->.
  apply bind_inv in H as ([child current'] & h2 & Hw & H).
  destruct fuel as [|fuel]; [discriminate|].
  rewrite (walk_no_branch _ _ _ _ _ Ht Hno) in Hw. inversion Hw; subst.
  apply bind_inv in H as ([] & h3 & _ & H).
  exact (IH _ _ _ H).
Qed.

Lemma parser_loop_never_returns tokens current token :
  tokens !! current = Some token -> no_branch token ->
  forall fuel ast h r, parser_loop fuel tokens current ast h <> Return r.
Proof.
  intros Ht Hno. induction fuel as [|fuel IH]; intros ast h r H; [discriminate|].
  cbn [parser_loop] in H.
  rewrite bool_decide_eq_true_2 in H by (eapply lookup_lt_Some; eauto).
  apply bind_inv in H as (body & h1 & Hg & H). apply get_inv in Hg as ->.
  apply bind_inv in H as ([child current'] & h2 & Hw & H).
  destruct fuel as [|fuel]; [discriminate|].
  rewrite (walk_no_branch _ _ _ _ _ Ht Hno) in Hw. inversion Hw; subst.
  apply bind_inv in H as ([] & h3 & _ & H).
  exact (IH _ _ _ H).
Qed.

Lemma new_object_inv p h v h' :
  new_object p h = Return (v, h') ->
  v = VRef (length h) /\ h' = h ++ [Obj (list_to_map p) None].
Proof. unfold new_object. intros E. inversion E. auto. Qed.

Lemma new_array_inv h v h' :
  new_array h = Return (v, h') ->
  v = VRef (length h) /\ h' = h ++ [Obj ∅ (Some [])].
Proof. unfold new_array. intros E. inversion E. auto. Qed.

Lemma ret_inv {A} (a : A) h r : ret a h = Return r -> r = (a, h).
Proof. unfold ret. intros E. inversion E. reflexivity. Qed.

Lemma field_last m e k h : field (h ++ [Obj m e]) (length h) k = m !! k.
Proof. unfold field. rewrite list_lookup_middle by reflexivity. reflexivity. Qed.

(** A literal token becomes a literal node. *)
Lemma parsed_literal (ty : string) (mk : loc -> jsstring -> stree)
    tokens current token h :
  (mk = SNumberLiteral /\ ty = "NumberLiteral")
  \/ (mk = SStringLiteral /\ ty = "StringLiteral") ->
  tokens !! current = Some token ->
  parsed tokens current (S current) h
    (h ++ [Obj (list_to_map [("type", VString (js ty));
                             ("value", VString (value token))]) None])
    (mk (length h) (value token)).
Proof.
  intros Hmk Ht.
  assert (Hframe : forall l, l < length h ->
            (h ++ [Obj (list_to_map [("type", VString (js ty));
                                     ("value", VString (value token))]) None]) !! l
            = h !! l) by (intros l Hl; apply lookup_app_l; exact Hl).
  assert (Htok : forall i tok, current <= i -> i < S current ->
            tokens !! i = Some tok -> value tok = value token).
  { intros i tok H1 H2 E. assert (i = current) as -> by lia. congruence. }
  destruct Hmk as [[-> ->]|[-> ->]].
  - split; [constructor|]. split; [|split; [|split; [|split; [|split]]]].
    + apply repr_NumberLiteral; rewrite field_last; reflexivity.
    + cbn. constructor; [lia|constructor].
    + rewrite length_app. lia.
    + exact Hframe.
    + lia.
    + intros i tok H1 H2 E _. rewrite (Htok i tok H1 H2 E). cbn. constructor.
  - split; [constructor|]. split; [|split; [|split; [|split; [|split]]]].
    + apply repr_StringLiteral; rewrite field_last; reflexivity.
    + cbn. constructor; [lia|constructor].
    + rewrite length_app. lia.
    + exact Hframe.
    + lia.
    + intros i tok H1 H2 E _. rewrite (Htok i tok H1 H2 E). cbn. constructor.
Qed.

Lemma paren_not_literal tok : type tok = js "paren" -> ~ literal_token tok.
Proof. intros E [H|H]; rewrite E in H; discriminate H. Qed.

Lemma not_closing_false tok : not_closing tok = false -> type tok = js "paren".
Proof.
  unfold not_closing. intros H. apply orb_false_iff in H as [H _].
  apply bool_decide_eq_false_1 in H. destruct (decide (type tok = js "paren")); tauto.
Qed.

Lemma parse_spec fuel :
  (forall tokens current h v current' h',
      walk fuel tokens current h = Return ((v, current'), h') ->
      (v = VUndefined /\ current' = current /\ h' = h
       /\ exists tok, tokens !! current = Some tok /\ no_branch tok)
      \/ exists t, v = VRef (root t) /\ parsed tokens current current' h h' t)
  /\ (forall tokens current node h current' h' a pa es,
      params_loop fuel tokens current (VRef node) h = Return (current', h') ->
      field h node "params" = Some (VRef a) ->
      h !! a = Some (Obj pa (Some es)) ->
      exists ts, parsed_list tokens current current' a h h' ts
        /\ exists tok, tokens !! current' = Some tok /\ type tok = js "paren").
Proof.
  induction fuel as [|fuel [IHw IHp]]; [split; intros; discriminate|]. split.
  - (* walk *)
    intros tokens current h v current' h' H. cbn [walk] in H.
    destruct (tokens !! current) as [token|] eqn:Ht; [|discriminate].
    destruct (bool_decide (type token = js "number")) eqn:E1.
    { apply bind_inv in H as (node & h1 & Hn & H).
      apply new_object_inv in Hn as [-> ->]. apply ret_inv in H. inversion H; subst.
      right. exists (SNumberLiteral (length h) (value token)).
      split; [reflexivity|].
      apply (parsed_literal "NumberLiteral" SNumberLiteral); auto. }
    destruct (bool_decide (type token = js "string")) eqn:E2.
    { apply bind_inv in H as (node & h1 & Hn & H).
      apply new_object_inv in Hn as [-> ->]. apply ret_inv in H. inversion H; subst.
      right. exists (SStringLiteral (length h) (value token)).
      split; [reflexivity|].
      apply (parsed_literal "StringLiteral" SStringLiteral); auto. }
    apply bool_decide_eq_false_1 in E1, E2.
    destruct (bool_decide (type token = js "paren")
              && bool_decide (value token = js "(")) eqn:E3.
    2:{ apply ret_inv in H. inversion H; subst. left.
        repeat split; try reflexivity. exists token. split; [reflexivity|].
        repeat split; try assumption. intros [Ea Eb].
        rewrite !bool_decide_eq_true_2 in E3 by assumption. discriminate. }
    apply andb_true_iff in E3 as [E3 _]. apply bool_decide_eq_true_1 in E3.
    destruct (tokens !! S current) as [token'|] eqn:Ht'; [|discriminate].
    apply bind_inv in H as (params & h1 & Hn & H).
    apply new_array_inv in Hn as [-> ->].
    apply bind_inv in H as (node & h2 & Hn & H).
    apply new_object_inv in Hn as [-> ->].
    apply bind_inv in H as (c2 & h3 & Hp & H).
    apply ret_inv in H. inversion H; subst v current' h'; clear H.
    set (arr := Obj ∅ (Some [])) in *.
    set (obj := Obj (list_to_map [("type", VString (js "CallExpression"));
                                  ("name", VString (value token'));
                                  ("params", VRef (length h))]) None) in *.
    assert (L1 : length (h ++ [arr]) = S (length h))
      by (rewrite length_app; cbn; lia).
    assert (L2 : length ((h ++ [arr]) ++ [obj]) = S (S (length h)))
      by (rewrite length_app, L1; cbn; lia).
    assert (Ha2 : ((h ++ [arr]) ++ [obj]) !! length h = Some arr)
      by (apply lookup_app_l_Some, list_lookup_middle; reflexivity).
    destruct (IHp tokens (S (S current)) (length (h ++ [arr])) _ c2 h3
                (length h) ∅ [] Hp (field_last _ _ _ _) Ha2)
      as (ts & PL & tok & Htok & Hparen).
    destruct PL as ((pa & es & Ea & Ea') & Hex & Hrepr & Hlocs & Hlen & Hframe
                    & Hcur & Htexts).
    rewrite Ha2 in Ea. inversion Ea; subst pa es; clear Ea. cbn [app] in Ea'.
    rewrite L2 in *. rewrite L1 in *.
    assert (Hnode : h3 !! S (length h) = Some obj).
    { rewrite Hframe by lia. rewrite <- L1. apply list_lookup_middle. reflexivity. }
    right. exists (SCallExpression (S (length h)) (value token') (length h) ts).
    split; [reflexivity|].
    split; [constructor; exact Hex|]. split; [|split; [|split; [|split; [|split]]]].
    + apply repr_CallExpression;
        try (rewrite (lookup_field _ _ _ _ Hnode); reflexivity);
        [|exact Hrepr].
      unfold array_at. rewrite Ea'. reflexivity.
    + cbn [locs]. constructor; [lia|]. constructor; [lia|].
      apply Forall_forall. intros x Hx.
      apply elem_of_flat_map in Hx as (t & Hin & Hx).
      pose proof (proj1 (Forall_forall _ _)
                    (proj1 (Forall_forall _ _) Hlocs t Hin) x Hx) as Hx'.
      cbn beta in Hx'. rewrite ?length_app in Hx'. cbn [length] in Hx'. lia.
    + lia.
    + intros l Hl. rewrite Hframe by lia.
      rewrite lookup_app_l by (rewrite L1; lia). apply lookup_app_l. exact Hl.
    + lia.
    + intros i tk H1 H2 Ei Hlit. cbn [texts].
      destruct (decide (i = current)) as [->|Hn0].
      { rewrite Ht in Ei. inversion Ei; subst tk.
        exfalso. exact (paren_not_literal _ E3 Hlit). }
      destruct (decide (i = S current)) as [->|Hn1].
      { rewrite Ht' in Ei. inversion Ei; subst tk. constructor. }
      destruct (decide (i = c2)) as [->|Hn2].
      { rewrite Htok in Ei. inversion Ei; subst tk.
        exfalso. exact (paren_not_literal _ Hparen Hlit). }
      apply elem_of_cons. right. apply (Htexts i tk); try assumption; lia.
  - (* the loop *)
    intros tokens current node h current' h' a pa es H Hpar Ea.
    cbn [params_loop] in H.
    destruct (tokens !! current) as [token|] eqn:Ht; [|discriminate].
    fold (not_closing token) in H. destruct (not_closing token) eqn:Hnc.
    2:{ apply ret_inv in H. inversion H; subst. exists []. split.
        - split; [exists pa, es; rewrite app_nil_r; auto|].
          split; [constructor|]. split; [constructor|]. split; [constructor|].
          split; [lia|]. split; [reflexivity|]. split; [lia|].
          intros i tok H1 H2. lia.
        - exists token. split; [exact Ht|]. apply not_closing_false. exact Hnc. }
    apply bind_inv in H as (params & h0 & Hg & H).
    rewrite (get_field _ _ _ _ Hpar) in Hg. inversion Hg; subst params h0; clear Hg.
    apply bind_inv in H as ([child c1] & h1 & Hw & H).
    apply bind_inv in H as ([] & h2 & Hpush & H).
    destruct (IHw _ _ _ _ _ _ Hw)
      as [(-> & -> & -> & tok & Ht2 & Hno)|(t & -> & P)].
    { exfalso. rewrite Ht in Ht2. inversion Ht2; subst tok.
      exact (params_loop_stuck _ _ _ Ht Hno Hnc _ _ _ _ H). }
    destruct P as (Hex & Hrepr & Hlocs & Hlen & Hframe & Hcur & Htexts).
    pose proof (lookup_lt_Some _ _ _ Ea) as Halt.
    apply push_inv in Hpush as (c & pp & es1 & [= <-] & Ea1 & E).
    inversion E; subst h2; clear E.
    rewrite Hframe, Ea in Ea1 by exact Halt. inversion Ea1; subst pp es1; clear Ea1.
    assert (Ea1 : h1 !! a = Some (Obj pa (Some es)))
      by (rewrite Hframe by exact Halt; exact Ea).
    set (h2 := <[a := Obj pa (Some (es ++ [VRef (root t)]))]> h1) in *.
    assert (L2 : length h2 = length h1) by apply length_insert.
    assert (Ea2 : h2 !! a = Some (Obj pa (Some (es ++ [VRef (root t)]))))
      by (apply list_lookup_insert_eq; lia).
    assert (Hpar2 : field h2 node "params" = Some (VRef a)).
    { pose proof (field_lt _ _ _ _ Hpar) as Hnlt.
      unfold field, h2. destruct (decide (node = a)) as [->|Hne].
      - rewrite list_lookup_insert_eq by lia. cbn.
        unfold field in Hpar. rewrite Ea in Hpar. exact Hpar.
      - rewrite list_lookup_insert_ne by congruence.
        rewrite Hframe by exact Hnlt. exact Hpar. }
    destruct (IHp _ _ _ _ _ _ a pa _ H Hpar2 Ea2)
      as (ts & PL & Hclose).
    destruct PL as ((pa' & es' & Eb & Eb') & Hex' & Hrepr' & Hlocs' & Hlen'
                    & Hframe' & Hcur' & Htexts').
    rewrite Ea2 in Eb. inversion Eb; subst pa' es'; clear Eb.
    exists (t :: ts). split; [|exact Hclose].
    split; [|split; [|split; [|split; [|split; [|split; [|split]]]]]].
    + exists pa, es. split; [exact Ea|].
      rewrite <- app_assoc in Eb'. exact Eb'.
    + constructor; assumption.
    + constructor; [|exact Hrepr'].
      apply (repr_frame (length h) h1 h' t Hrepr Hlocs).
      intros l H1 H2. rewrite Hframe' by lia. unfold h2.
      apply list_lookup_insert_ne. lia.
    + constructor; [exact Hlocs|].
      eapply Forall_impl; [exact Hlocs'|]. intros x Hx. cbn beta in Hx.
      eapply Forall_impl; [exact Hx|]. intros y Hy. cbn beta in Hy. lia.
    + lia.
    + intros l H1 H2. rewrite Hframe' by lia. unfold h2.
      rewrite list_lookup_insert_ne by congruence. apply Hframe. exact H1.
    + lia.
    + intros i tk H1 H2 Ei Hlit. cbn [flat_map]. apply elem_of_app.
      destruct (decide (i < c1)) as [Hi|Hi].
      * left. apply (Htexts i tk); assumption.
      * right. apply (Htexts' i tk); try assumption; lia.
Qed.

Lemma parser_loop_spec fuel :
  forall tokens current ast h h' a pa es,
    parser_loop fuel tokens current (VRef ast) h = Return (tt, h') ->
    field h ast "body" = Some (VRef a) ->
    h !! a = Some (Obj pa (Some es)) ->
    exists ts,
      h' !! a = Some (Obj pa (Some (es ++ map (fun t => VRef (root t)) ts)))
      /\ Forall expression ts /\ Forall (repr h') ts
      /\ length h <= length h'
      /\ (forall l, l < length h -> l <> a -> h' !! l = h !! l)
      /\ forall i tok, current <= i -> tokens !! i = Some tok ->
                       literal_token tok -> value tok ∈ flat_map texts ts.
Proof.
  induction fuel as [|fuel IH]; intros tokens current ast h h' a pa es H Hbody Ea;
    [discriminate|].
  cbn [parser_loop] in H. case_bool_decide as Hcur.
  2:{ apply ret_inv in H. inversion H; subst. exists [].
      split; [rewrite app_nil_r; exact Ea|].
      split; [constructor|]. split; [constructor|]. split; [lia|].
      split; [reflexivity|].
      intros i tok H1 Ei. apply lookup_lt_Some in Ei. lia. }
  apply bind_inv in H as (body & h0 & Hg & H).
  rewrite (get_field _ _ _ _ Hbody) in Hg. inversion Hg; subst body h0; clear Hg.
  apply bind_inv in H as ([child c1] & h1 & Hw & H).
  apply bind_inv in H as ([] & h2 & Hpush & H).
  destruct (proj1 (parse_spec fuel) _ _ _ _ _ _ Hw)
    as [(-> & -> & -> & tok & Ht2 & Hno)|(t & -> & P)].
  { exfalso. exact (parser_loop_never_returns _ _ _ Ht2 Hno _ _ _ _ H). }
  destruct P as (Hex & Hrepr & Hlocs & Hlen & Hframe & Hc1 & Htexts).
  pose proof (lookup_lt_Some _ _ _ Ea) as Halt.
  apply push_inv in Hpush as (c & pp & es1 & [= <-] & Ea1 & E).
  inversion E; subst h2; clear E.
  rewrite Hframe, Ea in Ea1 by exact Halt. inversion Ea1; subst pp es1; clear Ea1.
  set (h2 := <[a := Obj pa (Some (es ++ [VRef (root t)]))]> h1) in *.
  assert (L2 : length h2 = length h1) by apply length_insert.
  assert (Ea2 : h2 !! a = Some (Obj pa (Some (es ++ [VRef (root t)]))))
    by (apply list_lookup_insert_eq; lia).
  assert (Hbody2 : field h2 ast "body" = Some (VRef a)).
  { pose proof (field_lt _ _ _ _ Hbody) as Hnlt.
    unfold field, h2. destruct (decide (ast = a)) as [->|Hne].
    - rewrite list_lookup_insert_eq by lia. cbn.
      unfold field in Hbody. rewrite Ea in Hbody. exact Hbody.
    - rewrite list_lookup_insert_ne by congruence.
      rewrite Hframe by exact Hnlt. exact Hbody. }
  destruct (IH _ _ _ _ _ a pa _ H Hbody2 Ea2)
    as (ts & Eb' & Hex' & Hrepr' & Hlen' & Hframe' & Htexts').
  exists (t :: ts).
  split; [rewrite <- app_assoc in Eb'; exact Eb'|].
  split; [constructor; assumption|]. split; [|split; [|split]].
  - constructor; [|exact Hrepr'].
    apply (repr_frame (length h) h1 h' t Hrepr Hlocs).
    intros l H1 H2. rewrite Hframe' by lia. unfold h2.
    apply list_lookup_insert_ne. lia.
  - lia.
  - intros l H1 H2. rewrite Hframe' by lia. unfold h2.
    rewrite list_lookup_insert_ne by congruence. apply Hframe. exact H1.
  - intros i tk H1 Ei Hlit. cbn [flat_map]. apply elem_of_app.
    destruct (decide (i < c1)) as [Hi|Hi].
    + left. apply (Htexts i tk); assumption.
    + right. apply (Htexts' i tk); try assumption; lia.
Qed.

(** When the parser returns, it returns a Program whose body is made of
    expressions, and every number and string token is a string of it. *)
Lemma parser_spec fuel tokens h0 v h' :
  parser fuel tokens h0 = Return (v, h') ->
  exists l a body,
    v = VRef l /\ repr h' (SProgram l a body) /\ Forall expression body
    /\ forall tok, tok ∈ tokens -> literal_token tok ->
                   value tok ∈ flat_map texts body.
Proof.
  intros H. unfold parser in H.
  apply bind_inv in H as (body & h1 & Hn & H). apply new_array_inv in Hn as [-> ->].
  apply bind_inv in H as (ast & h2 & Hn & H). apply new_object_inv in Hn as [-> ->].
  apply bind_inv in H as ([] & h3 & Hloop & H).
  apply ret_inv in H. inversion H; subst v h'; clear H.
  set (arr := Obj ∅ (Some [])) in *.
  set (obj := Obj (list_to_map [("type", VString (js "Program"));
                                ("body", VRef (length h0))]) None) in *.
  assert (L1 : length (h0 ++ [arr]) = S (length h0))
    by (rewrite length_app; cbn; lia).
  assert (Ha2 : ((h0 ++ [arr]) ++ [obj]) !! length h0 = Some arr)
    by (apply lookup_app_l_Some, list_lookup_middle; reflexivity).
  destruct (parser_loop_spec fuel tokens 0 _ _ _ (length h0) ∅ [] Hloop
              (field_last _ _ _ _) Ha2)
    as (ts & Ea' & Hex & Hrepr & Hlen & Hframe & Htexts).
  cbn [app] in Ea'.
  assert (Hnode : h3 !! length (h0 ++ [arr]) = Some obj).
  { rewrite Hframe; [apply list_lookup_middle; reflexivity| |rewrite L1; lia].
    rewrite !length_app. cbn. lia. }
  exists (length (h0 ++ [arr])), (length h0), ts.
  split; [reflexivity|]. split; [|split; [exact Hex|]].
  - apply repr_Program;
      try (rewrite (lookup_field _ _ _ _ Hnode); reflexivity); [|exact Hrepr].
    unfold array_at. rewrite Ea'. reflexivity.
  - intros tok Hin Hlit. apply list_elem_of_lookup in Hin as [i Hi].
    apply (Htexts i tok); [lia|exact Hi|exact Hlit].
Qed.

(** ** The strings of the tree in the output *)

Lemma infix_refl s : infix s s.
Proof. exists [], []. rewrite app_nil_r. reflexivity. Qed.

Lemma infix_app_l s t u : infix s t -> infix s (u ++ t).
Proof.
  intros (pre & post & ->). exists (u ++ pre), post.
  rewrite <- app_assoc. reflexivity.
Qed.

Lemma infix_app_r s t u : infix s t -> infix s (t ++ u).
Proof.
  intros (pre & post & ->). exists pre, (post ++ u).
  rewrite <- !app_assoc. reflexivity.
Qed.

Lemma infix_trans s t u : infix s t -> infix t u -> infix s u.
Proof.
  intros (pre & post & ->) (pre' & post' & ->).
  exists (pre' ++ pre), (post ++ post'). rewrite <- !app_assoc. reflexivity.
Qed.

Lemma infix_join sep xs x : VString x ∈ xs -> infix x (join xs sep).
Proof.
  induction xs as [|y xs IH]; intros H; [inversion H|].
  apply elem_of_cons in H as [<-|H].
  - destruct xs; cbn [join join_text ToStringV];
      [apply infix_refl|apply infix_app_r, infix_refl].
  - specialize (IH H). destruct xs as [|z xs]; [inversion H|].
    change (join (y :: z :: xs) sep)
      with (join_text y ++ sep ++ join (z :: xs) sep).
    apply infix_app_l, infix_app_l. exact IH.
Qed.

Lemma gen_texts t :
  forall in_call s, s ∈ texts t -> infix s (gen (lower in_call t)).
Proof.
  induction t as [l a body IH|l name a params IH|l value|l value]
    using stree_ind'; intros in_call s Hs; cbn [texts lower gen] in *.
  - apply elem_of_flat_map in Hs as (c & Hc & Hs).
    eapply infix_trans; [apply (proj1 (Forall_forall _ _) IH c Hc false s Hs)|].
    apply infix_join. rewrite map_map.
    apply (list_elem_of_fmap_2 (fun c => VString (gen (lower false c)))). exact Hc.
  - assert (Hcall : infix s (gen (TCallExpression (TIdentifier name)
                                    (map (lower true) params)))).
    { cbn [gen]. apply elem_of_cons in Hs as [->|Hs].
      - apply infix_app_r, infix_app_r, infix_app_r, infix_refl.
      - apply elem_of_flat_map in Hs as (c & Hc & Hs).
        apply infix_app_r, infix_app_l.
        eapply infix_trans; [apply (proj1 (Forall_forall _ _) IH c Hc true s Hs)|].
        apply infix_join. rewrite map_map.
        apply (list_elem_of_fmap_2 (fun c => VString (gen (lower true c)))).
        exact Hc. }
    destruct in_call; [exact Hcall|]. cbn [gen]. apply infix_app_r. exact Hcall.
  - apply list_elem_of_singleton in Hs as ->. apply infix_refl.
  - apply list_elem_of_singleton in Hs as ->.
    apply infix_app_r, infix_app_l, infix_refl.
Qed.

Lemma gen_renderings t :
  forall in_call s, s ∈ renderings t -> infix s (gen (lower in_call t)).
Proof.
  induction t as [l a body IH|l name a params IH|l value|l value]
    using stree_ind'; intros in_call s Hs; cbn [renderings lower gen] in *.
  - apply elem_of_flat_map in Hs as (c & Hc & Hs).
    eapply infix_trans; [apply (proj1 (Forall_forall _ _) IH c Hc false s Hs)|].
    apply infix_join. rewrite map_map.
    apply (list_elem_of_fmap_2 (fun c => VString (gen (lower false c)))). exact Hc.
  - assert (Hcall : infix s (gen (TCallExpression (TIdentifier name)
                                    (map (lower true) params)))).
    { cbn [gen]. apply elem_of_flat_map in Hs as (c & Hc & Hs).
      apply infix_app_r, infix_app_l.
      eapply infix_trans; [apply (proj1 (Forall_forall _ _) IH c Hc true s Hs)|].
      apply infix_join. rewrite map_map.
      apply (list_elem_of_fmap_2 (fun c => VString (gen (lower true c)))).
      exact Hc. }
    destruct in_call; [exact Hcall|]. cbn [gen]. apply infix_app_r. exact Hcall.
  - apply list_elem_of_singleton in Hs as ->. apply infix_refl.
  - apply list_elem_of_singleton in Hs as ->. apply infix_refl.
Qed.

(** ** The whole pipeline on an input it accepts *)

Lemma compile_stages fuel input out :
  compile fuel input = Return out ->
  exists tokens ast h1 newAST h2 h3,
    tokenizer fuel input = Return tokens
    /\ parser fuel tokens [] = Return (ast, h1)
    /\ transformer fuel ast h1 = Return (newAST, h2)
    /\ codeGenerator fuel newAST h2 = Return (out, h3).
Proof.
  unfold compile. intros H.
  destruct (tokenizer fuel input) as [tokens| |]; [|discriminate..].
  match type of H with match ?m with _ => _ end = _ =>
    destruct m as [[out' h3]| |] eqn:E end; [|discriminate..].
  inversion H; subst out'; clear H.
  apply bind_inv in E as (ast & h1 & Hp & E).
  apply bind_inv in E as (newAST & h2 & Ht & E).
  exists tokens, ast, h1, newAST, h2, h3. auto.
Qed.

(** The output of an accepted input is the text of the target tree of the
    Program that the parser has built. *)
Lemma compile_spec fuel input out :
  compile fuel input = Return out ->
  exists tokens l a body h,
    tokenizer fuel input = Return tokens
    /\ parser fuel tokens [] = Return (VRef l, h)
    /\ repr h (SProgram l a body) /\ Forall expression body
    /\ (forall tok, tok ∈ tokens -> literal_token tok ->
                    value tok ∈ flat_map texts body)
    /\ out = VString (gen (lower false (SProgram l a body))).
Proof.
  intros H.
  destruct (compile_stages _ _ _ H) as (tokens & ast & h1 & newAST & h2 & h3
                                        & Htok & Hp & Ht & Hc).
  destruct (parser_spec _ _ _ _ _ Hp) as (l & a & body & -> & R & Hbody & Htexts).
  exists tokens, l, a, body, h1. repeat (split; [assumption|]).
  destruct (transformer_program (S (height (SProgram l a body)) + fuel) h1 l a body
              R Hbody ltac:(lia)) as (h2' & Ht' & T & _).
  apply (monotone_le _ _ (S (height (SProgram l a body)) + fuel) _ _
           (transformer_monotone _)) in Ht; [|discriminate|lia].
  rewrite Ht' in Ht. inversion Ht; subst newAST h2'; clear Ht.
  pose proof (codeGenerator_trepr _ _ _ _
                (S (theight (lower false (SProgram l a body))) + fuel) T
                ltac:(lia)) as Hc'.
  apply (monotone_le _ _ (S (theight (lower false (SProgram l a body))) + fuel)
           _ _ (codeGenerator_monotone _)) in Hc; [|discriminate|lia].
  rewrite Hc' in Hc. inversion Hc. reflexivity.
Qed.

(** * Further properties of the code *)

(** ** Tokenizer: two inputs in a row *)

(** The inner loops behind a prefix run as on the rest alone, with the
    positions moved. *)
Lemma string_loop_shift fuel pre suf i value char :
  string_loop fuel (pre ++ suf) (length pre + i) value char
  = (fun r => (length pre + r.1.1, r.1.2, r.2)) <$> string_loop fuel suf i value char.
Proof.
  revert i value char.
  induction fuel as [|fuel IH]; intros i value char; [reflexivity|].
  cbn [string_loop]. case_bool_decide; [|reflexivity].
  replace (S (length pre + i)) with (length pre + S i) by lia.
  rewrite lookup_app_r by lia.
  replace (length pre + S i - length pre) with (S i) by lia. apply IH.
Qed.

Lemma name_loop_shift fuel pre suf i value char :
  name_loop fuel (pre ++ suf) (length pre + i) value char
  = (fun r => (length pre + r.1.1, r.1.2, r.2)) <$> name_loop fuel suf i value char.
Proof.
  revert i value char.
  induction fuel as [|fuel IH]; intros i value char; [reflexivity|].
  cbn [name_loop]. destruct (LETTER_test char); [|reflexivity].
  replace (S (length pre + i)) with (length pre + S i) by lia.
  rewrite lookup_app_r by lia.
  replace (length pre + S i - length pre) with (S i) by lia. apply IH.
Qed.

(** The run behind a prefix is the run on the rest alone, with the
    positions moved and the tokens of the prefix in front. *)
Lemma tokenizer_loop_shift fuel pre suf i toks ts :
  tokenizer_loop fuel (pre ++ suf) (length pre + i) (toks ++ ts)
  = match tokenizer_loop fuel suf i ts with
    | Return out => Return (toks ++ out)
    | r => r
    end.
Proof.
  revert i ts.
  induction fuel as [|fuel IH]; intros i ts; [reflexivity|].
  cbn [tokenizer_loop].
  rewrite lookup_app_r by lia.
  replace (length pre + i - length pre) with i by lia.
  assert (Hnext : forall j t,
    tokenizer_loop fuel (pre ++ suf) (S (length pre + j)) ((toks ++ ts) ++ [t])
    = match tokenizer_loop fuel suf (S j) (ts ++ [t]) with
      | Return out => Return (toks ++ out)
      | r => r
      end).
  { intros j t. replace (S (length pre + j)) with (length pre + S j) by lia.
    rewrite <- app_assoc. apply IH. }
  assert (Hskip : forall j,
    tokenizer_loop fuel (pre ++ suf) (S (length pre + j)) (toks ++ ts)
    = match tokenizer_loop fuel suf (S j) ts with
      | Return out => Return (toks ++ out)
      | r => r
      end).
  { intros j. replace (S (length pre + j)) with (length pre + S j) by lia.
    apply IH. }
  rewrite length_app.
  destruct (decide (i < length suf)) as [Hi|Hi].
  2:{ rewrite (bool_decide_eq_false_2 (i < length suf)) by lia.
      rewrite bool_decide_eq_false_2 by lia. reflexivity. }
  rewrite (bool_decide_eq_true_2 (i < length suf)) by lia.
  rewrite bool_decide_eq_true_2 by lia.
  destruct (_ || _); [apply Hnext|].
  destruct (WS_test _); [apply Hskip|].
  destruct (NUMBER_test _); [apply Hnext|].
  destruct (bool_decide (_ = Some dquote)).
  { replace (S (length pre + i)) with (length pre + S i) by lia.
    rewrite lookup_app_r by lia.
    replace (length pre + S i - length pre) with (S i) by lia.
    rewrite string_loop_shift.
    destruct (string_loop fuel suf (S i) [] (suf !! S i)) as [[[c v] ch]|];
      [|reflexivity].
    cbn. apply Hnext. }
  destruct (LETTER_test _); [|reflexivity].
  rewrite name_loop_shift.
  destruct (name_loop fuel suf i [] (suf !! i)) as [[[c v] ch]|]; [|reflexivity].
  cbn. rewrite <- app_assoc. apply IH.
Qed.

Lemma tokenizer_app_run f1 f2 a b ta r :
  tokenizer f1 a = Return ta ->
  tokenizer f2 b = r -> r <> OutOfFuel ->
  tokenizer (f1 + f2) (a ++ b)
  = match r with
    | Return tb => Return (ta ++ tb)
    | r => r
    end.
Proof.
  intros Ha Hb Hr. unfold tokenizer in *.
  eapply tokenizer_loop_prefix_reach; [exact Ha|lia| |].
  - pose proof (tokenizer_loop_shift f2 a b 0 ta []) as E.
    rewrite Nat.add_0_r, app_nil_r in E. rewrite E, Hb. destruct r; reflexivity.
  - destruct r; congruence.
Qed.

(** X1.  The tokenizer on two inputs in a row: when [a] alone tokenizes to
    [ta], the run on [a ++ b] returns [ta] followed by the tokens of [b]
    alone when [b] alone tokenizes, throws the error of [b] alone when [b]
    alone throws, and never finishes when [b] alone never finishes. *)
Theorem tokenizer_app (f1 : nat) (a b : jsstring) (ta : list token) :
  tokenizer f1 a = Return ta ->
  (forall f2 tb, tokenizer f2 b = Return tb ->
                 tokenizer (f1 + f2) (a ++ b) = Return (ta ++ tb))
  /\ (forall f2 e, tokenizer f2 b = Throw e ->
                   tokenizer (f1 + f2) (a ++ b) = Throw e)
  /\ ((forall fuel, tokenizer fuel b = OutOfFuel) ->
      forall fuel, tokenizer fuel (a ++ b) = OutOfFuel).
Proof.
  intros Ha. split; [|split].
  - intros f2 tb Hb.
    exact (tokenizer_app_run f1 f2 a b ta (Return tb) Ha Hb ltac:(discriminate)).
  - intros f2 e Hb.
    exact (tokenizer_app_run f1 f2 a b ta (Throw e) Ha Hb ltac:(discriminate)).
  - intros Hb fuel. unfold tokenizer in *.
    destruct (tokenizer_loop_prefix fuel f1 a b 0 [] ta Ha) as [E|E];
      [lia|exact E|].
    rewrite E. pose proof (tokenizer_loop_shift fuel a b 0 ta []) as S.
    rewrite Nat.add_0_r, app_nil_r in S. rewrite S, (Hb fuel). reflexivity.
Qed.

Lemma tokenizer_app_witness :
  tokenizer (6 + 4) (js "(add " ++ js "2)")
  = Return ([Token (js "paren") (js "("); Token (js "name") (js "add")]
            ++ [Token (js "number") (js "2"); Token (js "paren") (js ")")]).
Proof.
  refine (proj1 (tokenizer_app 6 (js "(add ") (js "2)") _ _) 4 _ _).
  - vm_compute. reflexivity.
  - vm_compute. reflexivity.
Defined.

(** ** Tokenizer: whitespace *)

Lemma is_space_not_paren c :
  is_space c = true ->
  bool_decide (Some c = Some lparen) || bool_decide (Some c = Some rparen) = false.
Proof.
  intros H. apply paren_test_false; intros ->; discriminate H.
Qed.

Lemma tokenizer_loop_space fuel input current tokens c :
  input !! current = Some c -> is_space c = true ->
  tokenizer_loop (S fuel) input current tokens
  = tokenizer_loop fuel input (S current) tokens.
Proof.
  intros Hc Hs. cbn [tokenizer_loop].
  rewrite bool_decide_eq_true_2 by (eapply lookup_lt_Some; eauto).
  rewrite Hc, is_space_not_paren by exact Hs.
  unfold WS_test. rewrite class_test_one, Hs. reflexivity.
Qed.

(** An input made of whitespace gives no token. *)
Lemma tokenizer_blank ws fuel :
  Forall (fun c => is_space c = true) ws ->
  tokenizer (S (length ws) + fuel) ws = Return [].
Proof.
  intros Hws. unfold tokenizer.
  assert (H : forall k current, current + k = length ws ->
            tokenizer_loop (S k + fuel) ws current [] = Return []).
  { induction k as [|k IH]; intros current Hk.
    - cbn [Nat.add tokenizer_loop].
      rewrite bool_decide_eq_false_2 by lia. reflexivity.
    - destruct (lookup_lt_is_Some_2 ws current ltac:(lia)) as [c Hc].
      change (S (S k) + fuel) with (S (S k + fuel)).
      rewrite (tokenizer_loop_space _ _ _ _ c Hc).
      + apply IH. lia.
      + apply (proj1 (Forall_forall _ _) Hws).
        eapply list_elem_of_lookup_2. exact Hc. }
  apply H. reflexivity.
Qed.

(** X2.  Whitespace makes no token and separates nothing that was not
    separate: between two inputs that tokenize on their own, a run of
    characters of the class [\s] (possibly empty) leaves the tokens as they
    are. *)
Theorem whitespace_is_skipped (f1 f2 : nat) (a ws b : jsstring)
    (ta tb : list token) :
  Forall (fun c => is_space c = true) ws ->
  tokenizer f1 a = Return ta ->
  tokenizer f2 b = Return tb ->
  tokenizer (f1 + (S (length ws) + f2)) (a ++ ws ++ b) = Return (ta ++ tb).
Proof.
  intros Hws Ha Hb.
  apply (tokenizer_app_run f1 _ a (ws ++ b) ta (Return tb) Ha); [|discriminate].
  apply (tokenizer_app_run (S (length ws)) f2 ws b [] (Return tb));
    [|exact Hb|discriminate].
  rewrite <- (Nat.add_0_r (S (length ws))). apply tokenizer_blank. exact Hws.
Qed.

Lemma whitespace_is_skipped_witness :
  tokenizer (4 + (S 3 + 3)) (js "(a " ++ [9%N; 10%N; 160%N] ++ js "1)")
  = Return ([Token (js "paren") (js "("); Token (js "name") (js "a")]
            ++ [Token (js "number") (js "1"); Token (js "paren") (js ")")]).
Proof.
  refine (whitespace_is_skipped 4 3 (js "(a ") [9%N; 10%N; 160%N] (js "1)") _ _ _ _ _).
  - repeat constructor.
  - vm_compute. reflexivity.
  - vm_compute. reflexivity.
Defined.

(** ** Tokenizer: what the inner loops have read when they return *)

(** A string-mode loop that returns has read characters of the input up
    to the next double quote; a name loop that returns has read letters of
    the input up to a character of the input that is not a letter. *)
Lemma string_loop_chars fuel input current value r :
  string_loop fuel input current value (input !! current) = Some r ->
  exists s, r = (current + length s, value ++ s, Some dquote)
    /\ (dquote ∉ s)
    /\ (forall i x, s !! i = Some x -> input !! (current + i) = Some x)
    /\ input !! (current + length s) = Some dquote.
Proof.
  revert current value.
  induction fuel as [|fuel IH]; intros current value H; [discriminate|].
  cbn [string_loop] in H.
  destruct (input !! current) as [c|] eqn:Ec.
  - case_bool_decide as Hq.
    + apply IH in H as (s & -> & Hs & Hseg & Hend). exists (c :: s).
      cbn [length ToString]. rewrite <- app_assoc.
      replace (current + S (length s)) with (S current + length s) by lia.
      split; [reflexivity|]. split; [|split; [|exact Hend]].
      * apply not_elem_of_cons. split; [congruence|exact Hs].
      * intros [|i] x Hx; cbn in Hx.
        -- rewrite Nat.add_0_r. congruence.
        -- replace (current + S i) with (S current + i) by lia. apply Hseg, Hx.
    + inversion H; subst r. exists [].
      rewrite app_nil_r, Nat.add_0_r. cbn [length].
      assert (c = dquote) as -> by congruence.
      split; [reflexivity|]. split; [apply not_elem_of_nil|].
      split; [intros i x Hx; discriminate Hx|exact Ec].
  - exfalso. apply lookup_ge_None in Ec.
    rewrite bool_decide_eq_true_2 in H by discriminate.
    rewrite string_loop_diverges in H; [discriminate| |].
    + intros E. apply lookup_lt_Some in E. lia.
    + intros k Hk E. apply lookup_lt_Some in E. lia.
Qed.

Lemma name_loop_chars fuel input current value r :
  name_loop fuel input current value (input !! current) = Some r ->
  exists s x, r = (current + length s, value ++ s, Some x)
    /\ Forall (fun c => is_letter c = true) s
    /\ (forall i y, s !! i = Some y -> input !! (current + i) = Some y)
    /\ input !! (current + length s) = Some x /\ is_letter x = false.
Proof.
  revert current value.
  induction fuel as [|fuel IH]; intros current value H; [discriminate|].
  cbn [name_loop] in H.
  destruct (input !! current) as [c|] eqn:Ec.
  - unfold LETTER_test in H. rewrite class_test_one in H.
    destruct (is_letter c) eqn:Hl.
    + apply IH in H as (s & x & -> & Hs & Hseg & Hend & Hx). exists (c :: s), x.
      cbn [length ToString]. rewrite <- app_assoc.
      replace (current + S (length s)) with (S current + length s) by lia.
      split; [reflexivity|]. split; [|split; [|split; [exact Hend|exact Hx]]].
      * constructor; assumption.
      * intros [|i] y Hy; cbn in Hy.
        -- rewrite Nat.add_0_r. congruence.
        -- replace (current + S i) with (S current + i) by lia. apply Hseg, Hy.
    + inversion H; subst r. exists [], c.
      rewrite app_nil_r, Nat.add_0_r. cbn [length].
      split; [reflexivity|]. split; [constructor|].
      split; [intros i y Hy; discriminate Hy|]. split; [exact Ec|exact Hl].
  - exfalso. apply lookup_ge_None in Ec.
    rewrite LETTER_test_undefined in H.
    rewrite name_loop_diverges in H; [discriminate| |].
    { rewrite (proj2 (lookup_ge_None input (S current))) by lia. reflexivity. }
    intros k Hk. rewrite (proj2 (lookup_ge_None input k)) by lia. reflexivity.
Qed.

Lemma tokenizer_loop_lexemes fuel input current tokens out :
  Forall lexeme tokens ->
  tokenizer_loop fuel input current tokens = Return out ->
  Forall lexeme out.
Proof.
  revert current tokens.
  induction fuel as [|fuel IH]; intros current tokens Htok H; [discriminate|].
  cbn [tokenizer_loop] in H.
  assert (Hpush : forall t, lexeme t -> Forall lexeme (tokens ++ [t])).
  { intros t Ht. apply Forall_app. split; [exact Htok|]. constructor; [exact Ht|constructor]. }
  destruct (bool_decide (current < length input)) eqn:Hlt;
    [|inversion H; subst; exact Htok].
  apply bool_decide_eq_true_1 in Hlt.
  destruct (lookup_lt_is_Some_2 _ _ Hlt) as [c Hc]. rewrite Hc in H.
  destruct (_ || _) eqn:Hp.
  { eapply IH; [|exact H]. apply Hpush. left. split; [reflexivity|].
    apply orb_true_iff in Hp as [Hp|Hp]; apply bool_decide_eq_true_1 in Hp;
      inversion Hp; [left|right]; reflexivity. }
  destruct (WS_test _); [eapply IH; [|exact H]; exact Htok|].
  destruct (NUMBER_test _) eqn:Hn.
  { eapply IH; [|exact H]. apply Hpush. right; left. split; [reflexivity|].
    exists c. split; [|reflexivity].
    unfold NUMBER_test in Hn. rewrite class_test_one in Hn. exact Hn. }
  destruct (bool_decide (_ = Some dquote)).
  { destruct (string_loop fuel _ _ _ _) as [[[c' v] ch]|] eqn:E; [|discriminate].
    apply string_loop_chars in E as (s & [= -> -> ->] & Hs & _).
    eapply IH; [|exact H]. apply Hpush. right; right; left.
    split; [reflexivity|exact Hs]. }
  destruct (LETTER_test _) eqn:Hl; [|discriminate].
  destruct (name_loop fuel _ _ _ _) as [[[c' v] ch]|] eqn:E; [|discriminate].
  rewrite <- Hc in E.
  apply name_loop_chars in E as (s & x & [= -> -> ->] & Hs & Hseg & Hend & Hx).
  eapply IH; [|exact H]. apply Hpush. right; right; right.
  split; [reflexivity|]. cbn [value app]. split; [|exact Hs].
  intros ->. cbn in Hend. rewrite Nat.add_0_r, Hc in Hend. inversion Hend; subst x.
  unfold LETTER_test in Hl. rewrite class_test_one in Hl. congruence.
Qed.

(** X3.  Every token that the tokenizer returns has one of four shapes: a
    paren token whose value is one paren, a number token whose value is one
    digit, a string token whose value has no double quote in it, or a name
    token whose value is a non-empty run of ASCII letters (the text
    [undefined] that the loops append past the end of the input never
    reaches a returned token). *)
Theorem tokens_are_lexemes (fuel : nat) (input : jsstring) (out : list token) :
  tokenizer fuel input = Return out -> Forall lexeme out.
Proof. apply tokenizer_loop_lexemes. constructor. Qed.

Lemma tokens_are_lexemes_witness :
  Forall lexeme [Token (js "paren") (js "("); Token (js "name") (js "add");
                 Token (js "number") (js "2"); Token (js "string") (js "a b");
                 Token (js "paren") (js ")")].
Proof.
  apply (tokens_are_lexemes 12 (js "(add 2 " ++ dquote :: js "a b" ++ dquote :: js ")")).
  vm_compute. reflexivity.
Defined.

(** ** Tokenizer: the tokens keep the characters of the input in order *)

Lemma take_segment (s input : jsstring) k :
  (forall i x, s !! i = Some x -> input !! (k + i) = Some x) ->
  take (k + length s) input = take k input ++ s.
Proof.
  revert k. induction s as [|c s IH]; intros k Hseg.
  - cbn. rewrite Nat.add_0_r, app_nil_r. reflexivity.
  - cbn [length]. replace (k + S (length s)) with (S k + length s) by lia.
    rewrite IH.
    + rewrite (take_S_r input k c); [rewrite <- app_assoc; reflexivity|].
      rewrite <- (Nat.add_0_r k). apply Hseg. reflexivity.
    + intros i x Hx. replace (S k + i) with (k + S i) by lia. apply Hseg, Hx.
Qed.

Lemma flat_map_snoc {A B} (f : A -> list B) xs x :
  flat_map f (xs ++ [x]) = flat_map f xs ++ f x.
Proof. rewrite flat_map_app. cbn. rewrite app_nil_r. reflexivity. Qed.

Lemma tokenizer_loop_sublist fuel input current tokens out :
  current <= length input ->
  sublist (flat_map value tokens) (take current input) ->
  tokenizer_loop fuel input current tokens = Return out ->
  sublist (flat_map value out) input.
Proof.
  revert current tokens.
  induction fuel as [|fuel IH]; intros current tokens Hle Hsub H; [discriminate|].
  cbn [tokenizer_loop] in H.
  case_bool_decide as Hlt.
  2:{ inversion H; subst out. rewrite take_ge in Hsub by lia. exact Hsub. }
  destruct (lookup_lt_is_Some_2 _ _ Hlt) as [c Hc]. rewrite Hc in H.
  pose proof (take_S_r input current c Hc) as Etake.
  assert (Hone : forall ty, sublist (flat_map value (tokens ++ [Token ty [c]]))
                                    (take (S current) input)).
  { intros ty. rewrite flat_map_snoc, Etake. apply sublist_app; [exact Hsub|reflexivity]. }
  destruct (_ || _); [eapply IH; [| |exact H]; [lia|apply Hone]|].
  destruct (WS_test _).
  { eapply IH; [| |exact H]; [lia|]. rewrite Etake. apply sublist_inserts_r, Hsub. }
  destruct (NUMBER_test _); [eapply IH; [| |exact H]; [lia|apply Hone]|].
  destruct (bool_decide (_ = Some dquote)) eqn:Hq.
  { apply bool_decide_eq_true_1 in Hq. inversion Hq; subst c.
    destruct (string_loop fuel _ _ _ _) as [[[c' v] ch]|] eqn:E; [|discriminate].
    apply string_loop_chars in E as (s & [= -> -> ->] & Hs & Hseg & Hend).
    pose proof (lookup_lt_Some _ _ _ Hend) as Hend_lt.
    eapply IH; [| |exact H]; [lia|].
    rewrite flat_map_snoc. cbn [value app].
    change (S (S (current + length s))) with (S (S current + length s)).
    rewrite (take_S_r input _ dquote Hend), (take_segment s input (S current) Hseg).
    rewrite Etake, <- !app_assoc.
    apply sublist_app; [exact Hsub|]. cbn [app]. apply sublist_cons.
    apply sublist_inserts_r. reflexivity. }
  destruct (LETTER_test _); [|discriminate].
  destruct (name_loop fuel _ _ _ _) as [[[c' v] ch]|] eqn:E; [|discriminate].
  rewrite <- Hc in E.
  apply name_loop_chars in E as (s & x & [= -> -> ->] & Hs & Hseg & Hend & Hx).
  pose proof (lookup_lt_Some _ _ _ Hend) as Hend_lt.
  eapply IH; [| |exact H]; [lia|].
  rewrite flat_map_snoc. cbn [value app].
  rewrite (take_segment s input current Hseg).
  apply sublist_app; [exact Hsub|reflexivity].
Qed.

Lemma tokenizer_loop_count fuel input current tokens out :
  current <= length input -> length tokens <= current ->
  tokenizer_loop fuel input current tokens = Return out ->
  length out <= length input.
Proof.
  revert current tokens.
  induction fuel as [|fuel IH]; intros current tokens Hle Hcount H; [discriminate|].
  cbn [tokenizer_loop] in H.
  case_bool_decide as Hlt; [|inversion H; subst out; lia].
  assert (Hpush : forall t, length (tokens ++ [t]) <= S current)
    by (intros t; rewrite length_app; cbn; lia).
  destruct (_ || _); [eapply IH; [| |exact H]; [lia|apply Hpush]|].
  destruct (WS_test _); [eapply IH; [| |exact H]; lia|].
  destruct (NUMBER_test _); [eapply IH; [| |exact H]; [lia|apply Hpush]|].
  destruct (bool_decide (_ = Some dquote)).
  { destruct (string_loop fuel _ _ _ _) as [[[c' v] ch]|] eqn:E; [|discriminate].
    apply string_loop_chars in E as (s & [= -> -> ->] & _ & _ & Hend).
    pose proof (lookup_lt_Some _ _ _ Hend) as Hend_lt.
    eapply IH; [| |exact H]; [lia|]. rewrite length_app. cbn. lia. }
  destruct (LETTER_test _) eqn:Hl; [|discriminate].
  destruct (name_loop fuel _ _ _ _) as [[[c' v] ch]|] eqn:E; [|discriminate].
  destruct (lookup_lt_is_Some_2 _ _ Hlt) as [c Hc]. rewrite Hc in Hl.
  rewrite Hc in E. rewrite <- Hc in E.
  apply name_loop_chars in E as (s & x & [= -> -> ->] & Hs & Hseg & Hend & Hx).
  pose proof (lookup_lt_Some _ _ _ Hend) as Hend_lt.
  destruct s as [|c0 s].
  { exfalso. cbn in Hend. rewrite Nat.add_0_r, Hc in Hend. inversion Hend; subst x.
    unfold LETTER_test in Hl. rewrite class_test_one in Hl. congruence. }
  eapply IH; [| |exact H]; [lia|]. rewrite length_app. cbn [length] in *. lia.
Qed.

(** X4.  The tokenizer only drops characters: the values of the returned
    tokens, one after the other, are the input with some characters left
    out (whitespace and double quotes), none added and none moved; and
    there are at most as many tokens as characters. *)
Theorem tokens_keep_the_input_order (fuel : nat) (input : jsstring)
    (out : list token) :
  tokenizer fuel input = Return out ->
  sublist (flat_map value out) input /\ length out <= length input.
Proof.
  intros H. split.
  - revert H. apply tokenizer_loop_sublist; [lia|]. cbn. apply sublist_nil_l.
  - revert H. apply tokenizer_loop_count; cbn; lia.
Qed.

Lemma tokens_keep_the_input_order_witness :
  sublist (js "(" ++ js "add" ++ js "2" ++ js "a b" ++ js ")")
          (js "(add 2 " ++ dquote :: js "a b" ++ dquote :: js ")")
  /\ 5 <= 13.
Proof.
  apply (tokens_keep_the_input_order 12
           (js "(add 2 " ++ dquote :: js "a b" ++ dquote :: js ")")
           [Token (js "paren") (js "("); Token (js "name") (js "add");
            Token (js "number") (js "2"); Token (js "string") (js "a b");
            Token (js "paren") (js ")")]).
  vm_compute. reflexivity.
Defined.

(** ** Tokenizer: tokens written out and read back *)

(** The name loop over a run of letters [s] followed by a character that
    is not a letter. *)
Lemma name_loop_scan s x fuel input current value :
  Forall (fun c => is_letter c = true) s ->
  (forall i y, s !! i = Some y -> input !! (current + i) = Some y) ->
  input !! (current + length s) = Some x -> is_letter x = false ->
  name_loop (S (length s) + fuel) input current value (input !! current)
  = Some (current + length s, value ++ s, Some x).
Proof.
  revert current value.
  induction s as [|c s IH]; intros current value Hs Hin Hend Hx.
  - cbn [length Nat.add name_loop]. rewrite Nat.add_0_r in *. rewrite Hend.
    unfold LETTER_test. rewrite class_test_one, Hx, app_nil_r. reflexivity.
  - inversion Hs as [|? ? Hc Hs']; subst.
    assert (H0 : input !! current = Some c)
      by (rewrite <- (Nat.add_0_r current); apply Hin; reflexivity).
    change (S (length (c :: s)) + fuel) with (S (S (length s) + fuel)).
    unfold_once name_loop. rewrite H0.
    unfold LETTER_test at 1. rewrite class_test_one, Hc. cbn [ToString].
    rewrite IH.
    + rewrite <- app_assoc. cbn [app length].
      replace (S current + length s) with (current + S (length s)) by lia.
      reflexivity.
    + exact Hs'.
    + intros i y Hy. replace (S current + i) with (current + S i) by lia.
      apply Hin. exact Hy.
    + replace (S current + length s) with (current + S (length s)) by lia.
      exact Hend.
    + exact Hx.
Qed.

Lemma tokenizer_name s fuel :
  s <> [] -> Forall (fun c => is_letter c = true) s ->
  tokenizer (3 + length s + fuel) (s ++ [32%N]) = Return [Token (js "name") s].
Proof.
  intros Hne Hs. destruct s as [|c s]; [congruence|].
  inversion Hs as [|? ? Hc Hs']; subst.
  unfold tokenizer.
  replace (3 + length (c :: s) + fuel) with (S (S (length (c :: s)) + S fuel)) by lia.
  rewrite (tokenizer_loop_letter _ ((c :: s) ++ [32%N]) 0 [] c eq_refl Hc).
  change (Some c) with (((c :: s) ++ [32%N]) !! 0).
  rewrite (name_loop_scan (c :: s) 32%N); [| exact Hs | | | reflexivity].
  - cbn [Nat.add app]. change (S (length (c :: s)) + S fuel) with (S (length (c :: s) + S fuel)).
    rewrite (tokenizer_loop_space _ _ _ _ 32%N);
      [|apply (list_lookup_middle (c :: s) [] 32%N); reflexivity|reflexivity].
    replace (length (c :: s) + S fuel) with (S (length (c :: s) + fuel)) by lia.
    cbn [tokenizer_loop].
    rewrite bool_decide_eq_false_2; [reflexivity|].
    cbn [length]. rewrite length_app. cbn. lia.
  - intros i y Hy. apply lookup_app_l_Some. exact Hy.
  - apply (list_lookup_middle (c :: s) [] 32%N). reflexivity.
Qed.

Lemma tokenizer_spell t fuel :
  lexeme t ->
  tokenizer (length (spell t) + 3 + fuel) (spell t ++ [32%N]) = Return [t].
Proof.
  destruct t as [ty v]. unfold lexeme, spell. cbn [type value].
  intros [[-> Hv]|[[-> (d & Hd & ->)]|[[-> Hv]|[-> [Hne Hv]]]]].
  - rewrite bool_decide_eq_false_2 by discriminate.
    eapply tokenizer_loop_mono with (fuel := 3); [|discriminate|lia].
    destruct Hv as [-> | ->]; vm_compute; reflexivity.
  - rewrite bool_decide_eq_false_2 by discriminate.
    eapply tokenizer_loop_mono with (fuel := 3); [|discriminate|cbn; lia].
    change 3 with (S 2).
    rewrite (tokenizer_loop_digit 2 ([d] ++ [32%N]) 0 [] d eq_refl Hd).
    reflexivity.
  - rewrite bool_decide_eq_true_2 by reflexivity.
    eapply tokenizer_loop_mono with (fuel := (3 + length v + 0) + 2);
      [|discriminate|cbn [length]; rewrite length_app; cbn; lia].
    exact (tokenizer_app_run _ 2 _ [32%N] _ (Return [])
             (tokenizer_string v 0 Hv) eq_refl ltac:(discriminate)).
  - rewrite bool_decide_eq_false_2 by discriminate.
    eapply tokenizer_loop_mono with (fuel := 3 + length v + 0);
      [|discriminate|lia].
    apply tokenizer_name; assumption.
Qed.

Lemma lexeme_spell_length t : lexeme t -> 1 <= length (spell t).
Proof.
  destruct t as [ty v]. unfold lexeme, spell. cbn [type value].
  intros [[-> Hv]|[[-> (d & Hd & ->)]|[[-> Hv]|[-> [Hne Hv]]]]].
  - rewrite bool_decide_eq_false_2 by discriminate.
    destruct Hv as [-> | ->]; cbn; lia.
  - rewrite bool_decide_eq_false_2 by discriminate. cbn. lia.
  - rewrite bool_decide_eq_true_2 by reflexivity. cbn. lia.
  - rewrite bool_decide_eq_false_2 by discriminate.
    destruct v; [congruence|cbn; lia].
Qed.

(** X5.  Tokens written out and read back: for every list of tokens of the
    four shapes, the tokenizer run on the tokens written out, each followed
    by a space and a string between double quotes, returns that list.  So
    every such list is the tokens of some input. *)
Theorem tokens_round_trip tokens fuel :
  Forall lexeme tokens ->
  tokenizer (1 + 2 * length (unlex tokens) + fuel) (unlex tokens) = Return tokens.
Proof.
  intros Htok. revert fuel.
  induction Htok as [|t tokens Ht Htok IH]; intros fuel.
  - unfold tokenizer. cbn. reflexivity.
  - unfold unlex in *. cbn [flat_map]. rewrite <- app_assoc.
    pose proof (lexeme_spell_length t Ht) as Hlen.
    pose proof (tokenizer_app_run _ _ _ _ _ _
                  (tokenizer_spell t 0 Ht) (IH fuel) ltac:(discriminate)) as E.
    cbn iota beta in E. rewrite <- app_assoc in E.
    eapply tokenizer_loop_mono; [exact E|discriminate|].
    rewrite !length_app. cbn [length]. lia.
Qed.

Lemma tokens_round_trip_witness :
  tokenizer (1 + 2 * 16 + 0) (js "( add 2 " ++ dquote :: js "a b" ++ dquote :: js " ) ")
  = Return [Token (js "paren") (js "("); Token (js "name") (js "add");
            Token (js "number") (js "2"); Token (js "string") (js "a b");
            Token (js "paren") (js ")")].
Proof.
  refine (tokens_round_trip
            [Token (js "paren") (js "("); Token (js "name") (js "add");
             Token (js "number") (js "2"); Token (js "string") (js "a b");
             Token (js "paren") (js ")")] 0 _).
  apply (tokenizer_loop_lexemes 12
           (js "(add 2 " ++ dquote :: js "a b" ++ dquote :: js ")") 0 []);
    [constructor|vm_compute; reflexivity].
Defined.

(** ** Tokenizer: runs that never finish *)

(** X6.  A name that runs to the end of the input: behind a prefix that
    tokenizes on its own, a non-empty run of ASCII letters up to the end of
    the input keeps the tokenizer in the name loop for ever (past the end
    [char] is [undefined], which [LETTER.test] accepts); it neither returns
    nor throws. *)
Theorem name_at_the_end_never_finishes
    (pre : jsstring) (c : N) (letters : jsstring) (fuel0 : nat)
    (toks : list token) (fuel : nat) :
  tokenizer fuel0 pre = Return toks ->
  Forall (fun x => is_letter x = true) (c :: letters) ->
  tokenizer fuel (pre ++ c :: letters) = OutOfFuel.
Proof.
  intros Hpre Hl. unfold tokenizer in *.
  destruct (tokenizer_loop_prefix fuel fuel0 pre (c :: letters) 0 [] toks Hpre)
    as [E|E]; [lia|exact E|].
  rewrite E. inversion Hl as [|? ? Hc Hrest]; subst.
  apply (tokenizer_loop_name_at_end _ _ _ _ c).
  - rewrite lookup_app_r, Nat.sub_diag by lia. reflexivity.
  - exact Hc.
  - intros k x Hk Hx. rewrite lookup_app_r in Hx by lia.
    apply list_elem_of_lookup_2 in Hx.
    exact (proj1 (Forall_forall _ _) Hl x Hx).
Qed.

Lemma name_at_the_end_never_finishes_witness :
  tokenizer 1000 (js "(add 2 " ++ js "x") = OutOfFuel.
Proof.
  apply (name_at_the_end_never_finishes (js "(add 2 ") _ [] 8
           [Token (js "paren") (js "("); Token (js "name") (js "add");
            Token (js "number") (js "2")]).
  - vm_compute. reflexivity.
  - repeat constructor.
Defined.

(** A loop that has not stopped after as many rounds as there are
    characters left never stops. *)
Lemma string_loop_forever fuel input :
  forall c value,
    string_loop fuel input c value (input !! c) = None ->
    length input - c <= fuel ->
    forall fuel', string_loop fuel' input c value (input !! c) = None.
Proof.
  induction fuel as [|fuel IH]; intros c value H Hfuel;
    destruct (input !! c) as [ch|] eqn:Ec;
    try (intros fuel'; apply string_loop_diverges; [discriminate|];
         apply lookup_ge_None in Ec;
         intros k Hk E; apply lookup_lt_Some in E; lia);
    pose proof (lookup_lt_Some _ _ _ Ec) as Hc; [lia|].
  cbn [string_loop] in H. intros [|fuel']; [reflexivity|]. cbn [string_loop].
  case_bool_decide; [|discriminate].
  apply IH; [exact H|lia].
Qed.

Lemma name_loop_forever fuel input :
  forall c value,
    name_loop fuel input c value (input !! c) = None ->
    length input - c <= fuel ->
    forall fuel', name_loop fuel' input c value (input !! c) = None.
Proof.
  induction fuel as [|fuel IH]; intros c value H Hfuel;
    destruct (input !! c) as [ch|] eqn:Ec;
    try (intros fuel'; apply lookup_ge_None in Ec;
         apply name_loop_diverges; [reflexivity|];
         intros k Hk; rewrite (proj2 (lookup_ge_None input k)) by lia;
         reflexivity);
    pose proof (lookup_lt_Some _ _ _ Ec) as Hc; [lia|].
  cbn [name_loop] in H. intros [|fuel']; [reflexivity|]. cbn [name_loop].
  destruct (LETTER_test (Some ch)); [|discriminate].
  apply IH; [exact H|lia].
Qed.

Lemma tokenizer_loop_forever fuel input :
  forall current tokens,
    tokenizer_loop fuel input current tokens = OutOfFuel ->
    length input - current < fuel ->
    forall fuel', tokenizer_loop fuel' input current tokens = OutOfFuel.
Proof.
  induction fuel as [|fuel IH]; intros current tokens H Hfuel; [lia|].
  intros [|fuel']; [reflexivity|].
  cbn [tokenizer_loop] in *.
  case_bool_decide as Hlt; [|discriminate].
  destruct (lookup_lt_is_Some_2 _ _ Hlt) as [c Hc].
  destruct (_ || _); [apply IH; [exact H|lia]|].
  destruct (WS_test _); [apply IH; [exact H|lia]|].
  destruct (NUMBER_test _); [apply IH; [exact H|lia]|].
  destruct (bool_decide (_ = Some dquote)).
  { destruct (string_loop fuel _ _ _ _) as [[[c' v] ch]|] eqn:E.
    - destruct (string_loop_less _ fuel' _ _ _ _ _ E) as [-> | ->]; [reflexivity|].
      apply string_loop_chars in E as (s & [= -> -> ->] & _).
      apply IH; [exact H|lia].
    - rewrite (string_loop_forever _ _ _ _ E) by lia. reflexivity. }
  destruct (LETTER_test _) eqn:Hl; [|discriminate].
  rewrite Hc in Hl.
  destruct (name_loop fuel _ _ _ _) as [[[c' v] ch]|] eqn:E.
  - destruct (name_loop_less _ fuel' _ _ _ _ _ E) as [-> | ->]; [reflexivity|].
    apply name_loop_chars in E as (s & x & [= -> -> ->] & Hs & Hseg & Hend & Hx).
    destruct s as [|c0 s].
    { exfalso. cbn in Hend. rewrite Nat.add_0_r, Hc in Hend. inversion Hend; subst x.
      unfold LETTER_test in Hl. rewrite class_test_one in Hl. congruence. }
    apply IH; [exact H|cbn [length]; lia].
  - rewrite (name_loop_forever _ _ _ _ E) by lia. reflexivity.
Qed.

(** X7.  The three outcomes of the tokenizer.  On every input, either the
    tokenizer returns, with any fuel above the length of the input; or it
    throws the SyntaxError for an unrecognized character of the input, with
    any such fuel; or it never finishes, whatever the fuel: a run that is
    not over after [length input + 1] rounds of each loop is never over. *)
Theorem tokenizer_outcomes (input : jsstring) :
  (exists out, forall fuel, length input < fuel -> tokenizer fuel input = Return out)
  \/ (exists c, c ∈ input /\ unrecognized c = true
        /\ forall fuel, length input < fuel ->
             tokenizer fuel input
             = Throw (SyntaxError (js "I dont know what this character is: " ++ [c])))
  \/ (forall fuel, tokenizer fuel input = OutOfFuel).
Proof.
  destruct (tokenizer (S (length input)) input) as [out|e|] eqn:E.
  - left. exists out. intros fuel Hfuel.
    exact (tokenizer_loop_mono _ _ _ _ _ _ E ltac:(discriminate) Hfuel).
  - right; left. pose proof E as E'.
    apply tokenizer_loop_throws in E' as (i & c & Hi & Hc & ->).
    exists c. split; [eapply list_elem_of_lookup_2; exact Hi|]. split; [exact Hc|].
    intros fuel Hfuel.
    exact (tokenizer_loop_mono _ _ _ _ _ _ E ltac:(discriminate) Hfuel).
  - right; right. apply (tokenizer_loop_forever _ _ _ _ E). lia.
Qed.

(** ** Tokenizer: the text before a character *)

Lemma quotes_app a b : quotes (a ++ b) = quotes a + quotes b.
Proof.
  induction a as [|c a IH]; [reflexivity|].
  cbn [app quotes]. destruct (N.eqb c dquote); rewrite IH; reflexivity.
Qed.

Lemma quotes_cons_other c s : c <> dquote -> quotes (c :: s) = quotes s.
Proof. intros H. cbn [quotes]. rewrite (proj2 (N.eqb_neq _ _) H). reflexivity. Qed.

Lemma quotes_none s : dquote ∉ s -> quotes s = 0.
Proof.
  induction s as [|c s IH]; intros H; [reflexivity|].
  apply not_elem_of_cons in H as [Hc Hs].
  rewrite quotes_cons_other by congruence. apply IH, Hs.
Qed.

Lemma quotes_letters s : Forall (fun c => is_letter c = true) s -> quotes s = 0.
Proof.
  intros H. apply quotes_none. intros Hin.
  apply (proj1 (Forall_forall _ _) H) in Hin. discriminate Hin.
Qed.

(** The run behind a text [a] that has given the tokens [toks] is the run
    on the rest alone, with [toks] in front of its tokens. *)
Lemma tokenizer_loop_behind f a b toks :
  tokenizer_loop f (a ++ b) (length a) toks
  = match tokenizer f b with
    | Return out => Return (toks ++ out)
    | r => r
    end.
Proof.
  pose proof (tokenizer_loop_shift f a b 0 toks []) as E.
  rewrite Nat.add_0_r, app_nil_r in E. exact E.
Qed.

(** One round of the main loop at the head of the input, for each kind of
    token. *)
Lemma tokenizer_paren x rest f :
  x = lparen \/ x = rparen ->
  tokenizer (S f) (x :: rest)
  = match tokenizer f rest with
    | Return out => Return ([Token (js "paren") [x]] ++ out)
    | r => r
    end.
Proof.
  intros Hx. unfold tokenizer at 1. cbn [tokenizer_loop].
  rewrite bool_decide_eq_true_2 by (cbn; lia).
  change ((x :: rest) !! 0) with (Some x).
  replace (bool_decide (Some x = Some lparen) || bool_decide (Some x = Some rparen))
    with true.
  2:{ symmetry. apply orb_true_iff.
      destruct Hx as [-> | ->]; [left|right]; apply bool_decide_eq_true_2; reflexivity. }
  exact (tokenizer_loop_behind f [x] rest _).
Qed.

Lemma tokenizer_space x rest f :
  is_space x = true ->
  tokenizer (S f) (x :: rest)
  = match tokenizer f rest with
    | Return out => Return ([] ++ out)
    | r => r
    end.
Proof.
  intros Hx. unfold tokenizer at 1.
  rewrite (tokenizer_loop_space _ (x :: rest) 0 [] x eq_refl Hx).
  exact (tokenizer_loop_behind f [x] rest _).
Qed.

Lemma tokenizer_number x rest f :
  is_digit x = true ->
  tokenizer (S f) (x :: rest)
  = match tokenizer f rest with
    | Return out => Return ([Token (js "number") [x]] ++ out)
    | r => r
    end.
Proof.
  intros Hx. unfold tokenizer at 1.
  rewrite (tokenizer_loop_digit _ (x :: rest) 0 [] x eq_refl Hx).
  exact (tokenizer_loop_behind f [x] rest _).
Qed.

Lemma tokenizer_quoted v rest f :
  dquote ∉ v -> length v < f ->
  tokenizer (S f) (dquote :: v ++ dquote :: rest)
  = match tokenizer f rest with
    | Return out => Return ([Token (js "string") v] ++ out)
    | r => r
    end.
Proof.
  intros Hv Hf. unfold tokenizer at 1. cbn [tokenizer_loop].
  rewrite bool_decide_eq_true_2 by (cbn; lia).
  change ((dquote :: v ++ dquote :: rest) !! 0) with (Some dquote).
  change (bool_decide (Some dquote = Some lparen)
          || bool_decide (Some dquote = Some rparen)) with false.
  change (WS_test (Some dquote)) with false.
  change (NUMBER_test (Some dquote)) with false.
  change (bool_decide (Some dquote = Some dquote)) with true. cbv iota.
  replace f with (S (length v) + (f - S (length v))) at 1 by lia.
  rewrite string_loop_scan; [|exact Hv| |].
  - pose proof (tokenizer_loop_behind f (dquote :: v ++ [dquote]) rest
                  [Token (js "string") v]) as E.
    cbn [app length] in E. rewrite <- app_assoc in E. cbn [app] in E.
    rewrite length_app in E. cbn [length] in E.
    replace (S (length v + 1)) with (S (1 + length v)) in E by lia. exact E.
  - intros i x Hx. cbn. apply lookup_app_l_Some. exact Hx.
  - exact (list_lookup_middle (dquote :: v) rest dquote _ eq_refl).
Qed.

Lemma tokenizer_letters c s y rest f :
  Forall (fun x => is_letter x = true) (c :: s) -> is_letter y = false ->
  S (length s) < f ->
  tokenizer (S f) ((c :: s) ++ y :: rest)
  = match tokenizer f (y :: rest) with
    | Return out => Return ([Token (js "name") (c :: s)] ++ out)
    | r => r
    end.
Proof.
  intros Hs Hy Hf. inversion Hs as [|? ? Hc Hs']; subst. unfold tokenizer at 1.
  rewrite (tokenizer_loop_letter _ ((c :: s) ++ y :: rest) 0 [] c eq_refl Hc).
  change (Some c) with (((c :: s) ++ y :: rest) !! 0).
  replace f with (S (length (c :: s)) + (f - S (length (c :: s))))
    at 1 by (cbn [length]; lia).
  rewrite (name_loop_scan (c :: s) y); [| exact Hs | | | exact Hy].
  - exact (tokenizer_loop_behind f (c :: s) (y :: rest) _).
  - intros i x Hx. apply lookup_app_l_Some. exact Hx.
  - apply (list_lookup_middle (c :: s) rest y). reflexivity.
Qed.

Lemma tokenizer_other x rest f :
  unrecognized x = true ->
  tokenizer (S f) (x :: rest) = Throw (SyntaxError (unknown_character_message x)).
Proof.
  intros Hx. apply tokenizer_loop_unrecognized; [reflexivity|exact Hx].
Qed.

(** A text is a run of letters followed by nothing or by a character that
    is not a letter. *)
Lemma letters_split (s : jsstring) :
  exists l r, s = l ++ r /\ Forall (fun x => is_letter x = true) l
    /\ (r = [] \/ exists y p, r = y :: p /\ is_letter y = false).
Proof.
  induction s as [|c s (l & r & -> & Hl & Hr)].
  - exists [], []. split; [reflexivity|]. split; [constructor|left; reflexivity].
  - destruct (is_letter c) eqn:Hc.
    + exists (c :: l), r. split; [reflexivity|]. split; [constructor; assumption|exact Hr].
    + exists [], (c :: l ++ r). split; [reflexivity|]. split; [constructor|].
      right. exists c, (l ++ r). split; [reflexivity|exact Hc].
Qed.

(** The six kinds of characters. *)
Lemma character_cases x :
  (x = lparen \/ x = rparen) \/ is_space x = true \/ is_digit x = true
  \/ x = dquote \/ is_letter x = true \/ unrecognized x = true.
Proof.
  unfold unrecognized.
  destruct (N.eqb_spec x lparen); [tauto|].
  destruct (N.eqb_spec x rparen); [tauto|].
  destruct (is_space x); [tauto|].
  destruct (is_digit x); [tauto|].
  destruct (N.eqb_spec x dquote); [tauto|].
  destruct (is_letter x); [tauto|].
  right; right; right; right; right. reflexivity.
Qed.

Lemma is_space_not_dquote x : is_space x = true -> x <> dquote.
Proof. intros H ->. discriminate H. Qed.

Lemma is_digit_not_dquote x : is_digit x = true -> x <> dquote.
Proof. intros H ->. discriminate H. Qed.

Lemma paren_not_dquote x : x = lparen \/ x = rparen -> x <> dquote.
Proof. intros [-> | ->]; discriminate. Qed.

(** What the tokenizer does with a text [pre], whatever comes behind it.
    Either it gets behind [pre] in its main loop, with tokens [toks] that
    depend on [pre] only, provided that the next character is not a letter
    (which would go on a name at the end of [pre]); or it throws at an
    unrecognized character of [pre] outside the string literals; or [pre]
    ends inside a string literal, which no text without a double quote
    closes. *)
Lemma tokenizer_text n :
  forall pre, length pre <= n ->
    (exists k toks, k <= length pre /\
       forall c suf fuel, is_letter c = false -> length pre + 2 <= fuel ->
         tokenizer fuel (pre ++ c :: suf)
         = match tokenizer (fuel - k) (c :: suf) with
           | Return out => Return (toks ++ out)
           | r => r
           end)
    \/ (exists i x, pre !! i = Some x /\ unrecognized x = true
          /\ inside_string (take i pre) = false
          /\ forall suf fuel, length pre + 2 <= fuel ->
               tokenizer fuel (pre ++ suf)
               = Throw (SyntaxError (unknown_character_message x)))
    \/ (inside_string pre = true
        /\ forall suf fuel, (dquote ∉ suf) -> length pre + 2 <= fuel ->
             tokenizer fuel (pre ++ suf) = OutOfFuel).
Proof.
  induction n as [n IH] using lt_wf_ind. intros pre Hn.
  destruct pre as [|x pre].
  { left. exists 0, []. split; [reflexivity|]. intros c suf fuel _ _.
    rewrite Nat.sub_0_r. cbn [app]. destruct (tokenizer fuel (c :: suf)); reflexivity. }
  cbn [length] in Hn.
  (* one character that is a token or a space *)
  assert (Hone : forall tok : list token,
    x <> dquote ->
    (forall rest f, tokenizer (S f) (x :: rest)
                    = match tokenizer f rest with
                      | Return out => Return (tok ++ out)
                      | r => r
                      end) ->
    (exists k toks, k <= length (x :: pre) /\
       forall c suf fuel, is_letter c = false -> length (x :: pre) + 2 <= fuel ->
         tokenizer fuel ((x :: pre) ++ c :: suf)
         = match tokenizer (fuel - k) (c :: suf) with
           | Return out => Return (toks ++ out)
           | r => r
           end)
    \/ (exists i y, (x :: pre) !! i = Some y /\ unrecognized y = true
          /\ inside_string (take i (x :: pre)) = false
          /\ forall suf fuel, length (x :: pre) + 2 <= fuel ->
               tokenizer fuel ((x :: pre) ++ suf)
               = Throw (SyntaxError (unknown_character_message y)))
    \/ (inside_string (x :: pre) = true
        /\ forall suf fuel, (dquote ∉ suf) -> length (x :: pre) + 2 <= fuel ->
             tokenizer fuel ((x :: pre) ++ suf) = OutOfFuel)).
  { intros tok Hx Hstep.
    destruct (IH (length pre) ltac:(lia) pre (le_n _))
      as [(k & toks & Hk & Hrun)|[(i & y & Hi & Hy & Hin & Hrun)|[Hin Hrun]]].
    - left. exists (S k), (tok ++ toks). split; [cbn [length]; lia|].
      intros c suf fuel Hc Hfuel. cbn [length] in Hfuel.
      destruct fuel as [|fuel]; [lia|]. cbn [app].
      rewrite Hstep, (Hrun c suf fuel Hc) by lia. cbn [Nat.sub].
      destruct (tokenizer (fuel - k) (c :: suf)); [|reflexivity..].
      rewrite app_assoc. reflexivity.
    - right; left. exists (S i), y. split; [exact Hi|]. split; [exact Hy|].
      split.
      + cbn [take]. unfold inside_string in *. rewrite quotes_cons_other by exact Hx.
        exact Hin.
      + intros suf fuel Hfuel. cbn [length] in Hfuel.
        destruct fuel as [|fuel]; [lia|]. cbn [app].
        rewrite Hstep, (Hrun suf fuel) by lia. reflexivity.
    - right; right. split.
      + unfold inside_string in *. rewrite quotes_cons_other by exact Hx. exact Hin.
      + intros suf fuel Hsuf Hfuel. cbn [length] in Hfuel.
        destruct fuel as [|fuel]; [lia|]. cbn [app].
        rewrite Hstep, (Hrun suf fuel Hsuf) by lia. reflexivity. }
  destruct (character_cases x) as [Hx|[Hx|[Hx|[Hx|[Hx|Hx]]]]].
  - apply (Hone [Token (js "paren") [x]] (paren_not_dquote _ Hx)).
    intros rest f. apply tokenizer_paren, Hx.
  - apply (Hone [] (is_space_not_dquote _ Hx)).
    intros rest f. apply tokenizer_space, Hx.
  - apply (Hone [Token (js "number") [x]] (is_digit_not_dquote _ Hx)).
    intros rest f. apply tokenizer_number, Hx.
  - (* a string literal *)
    subst x. destruct (decide (dquote ∈ pre)) as [Hq|Hq].
    2:{ right; right. split.
        - unfold inside_string. cbn [quotes].
          change (N.eqb dquote dquote) with true. cbv iota.
          rewrite (quotes_none _ Hq). reflexivity.
        - intros suf fuel Hsuf _. apply tokenizer_loop_unterminated; [reflexivity|].
          intros k Hk E. destruct k as [|k]; [lia|]. cbn in E.
          apply list_elem_of_lookup_2, elem_of_app in E as [E|E]; contradiction. }
    apply list_elem_of_split_l in Hq as (v & rest & -> & Hv).
    rewrite length_app in Hn. cbn [length] in Hn.
    assert (Hq2 : forall s, quotes (dquote :: v ++ dquote :: s) = S (S (quotes s))).
    { intros s. cbn [quotes]. change (N.eqb dquote dquote) with true. cbv iota.
      rewrite quotes_app, (quotes_none _ Hv). cbn [quotes Nat.add].
      change (N.eqb dquote dquote) with true. reflexivity. }
    destruct (IH (length rest) ltac:(lia) rest (le_n _))
      as [(k & toks & Hk & Hrun)|[(i & y & Hi & Hy & Hin & Hrun)|[Hin Hrun]]].
    + left. exists (S k), ([Token (js "string") v] ++ toks).
      split; [cbn [length]; rewrite length_app; cbn [length]; lia|].
      intros c suf fuel Hc Hfuel. cbn [length] in Hfuel.
      rewrite length_app in Hfuel. cbn [length] in Hfuel.
      destruct fuel as [|fuel]; [lia|]. cbn [app]. rewrite <- app_assoc. cbn [app].
      rewrite tokenizer_quoted, (Hrun c suf fuel Hc) by (assumption || lia).
      cbn [Nat.sub].
      destruct (tokenizer (fuel - k) (c :: suf)); [|reflexivity..].
      rewrite app_assoc. reflexivity.
    + right; left. exists (S (length v + S i)), y. split.
      { change ((v ++ dquote :: rest) !! (length v + S i) = Some y).
        rewrite lookup_app_r by lia.
        replace (length v + S i - length v) with (S i) by lia. exact Hi. }
      split; [exact Hy|]. split.
      * cbn [take]. rewrite take_app_add' by reflexivity.
        cbn [take]. unfold inside_string in *. rewrite Hq2. exact Hin.
      * intros suf fuel Hfuel. cbn [length] in Hfuel.
        rewrite length_app in Hfuel. cbn [length] in Hfuel.
        destruct fuel as [|fuel]; [lia|]. cbn [app]. rewrite <- app_assoc. cbn [app].
        rewrite tokenizer_quoted, (Hrun suf fuel) by (assumption || lia).
        reflexivity.
    + right; right. split.
      * unfold inside_string in *. rewrite Hq2. exact Hin.
      * intros suf fuel Hsuf Hfuel. cbn [length] in Hfuel.
        rewrite length_app in Hfuel. cbn [length] in Hfuel.
        destruct fuel as [|fuel]; [lia|]. cbn [app]. rewrite <- app_assoc. cbn [app].
        rewrite tokenizer_quoted, (Hrun suf fuel Hsuf) by (assumption || lia).
        reflexivity.
  - (* a name *)
    destruct (letters_split pre) as (l & r & -> & Hl & Hr).
    assert (Hxl : Forall (fun c => is_letter c = true) (x :: l))
      by (constructor; assumption).
    rewrite length_app in Hn.
    destruct Hr as [-> | (y & p & -> & Hy)].
    + left. exists 1, [Token (js "name") (x :: l)].
      split; [cbn [length]; lia|].
      intros c suf fuel Hc Hfuel. rewrite app_nil_r in *. cbn [length] in Hfuel.
      destruct fuel as [|fuel]; [lia|].
      rewrite tokenizer_letters by (assumption || lia).
      replace (S fuel - 1) with fuel by lia. reflexivity.
    + cbn [length] in Hn.
      assert (Hq0 : forall s, quotes ((x :: l) ++ s) = quotes s).
      { intros s. rewrite quotes_app, (quotes_letters _ Hxl). reflexivity. }
      destruct (IH (length (y :: p)) ltac:(cbn [length]; lia) (y :: p) (le_n _))
        as [(k & toks & Hk & Hrun)|[(i & z & Hi & Hz & Hin & Hrun)|[Hin Hrun]]].
      * left. exists (S k), ([Token (js "name") (x :: l)] ++ toks).
        split; [cbn [length] in *; rewrite length_app; cbn [length]; lia|].
        intros c suf fuel Hc Hfuel. cbn [length] in Hfuel.
        rewrite length_app in Hfuel. cbn [length] in Hfuel.
        destruct fuel as [|fuel]; [lia|].
        replace ((x :: l ++ y :: p) ++ c :: suf)
          with ((x :: l) ++ y :: (p ++ c :: suf))
          by (cbn [app]; rewrite <- app_assoc; reflexivity).
        rewrite tokenizer_letters by (assumption || lia).
        change (y :: p ++ c :: suf) with ((y :: p) ++ c :: suf).
        rewrite (Hrun c suf fuel Hc) by (cbn [length]; lia).
        cbn [Nat.sub].
        destruct (tokenizer (fuel - k) (c :: suf)); [|reflexivity..].
        rewrite app_assoc. reflexivity.
      * right; left. exists (length (x :: l) + i), z. split.
        { change (x :: l ++ y :: p) with ((x :: l) ++ y :: p).
          rewrite lookup_app_r by lia.
          replace (length (x :: l) + i - length (x :: l)) with i by lia. exact Hi. }
        split; [exact Hz|]. split.
        -- change (x :: l ++ y :: p) with ((x :: l) ++ y :: p).
           rewrite take_app_add' by reflexivity.
           unfold inside_string in *. rewrite Hq0. exact Hin.
        -- intros suf fuel Hfuel. cbn [length] in Hfuel.
           rewrite length_app in Hfuel. cbn [length] in Hfuel.
           destruct fuel as [|fuel]; [lia|].
           replace ((x :: l ++ y :: p) ++ suf) with ((x :: l) ++ y :: (p ++ suf))
             by (cbn [app]; rewrite <- app_assoc; reflexivity).
           rewrite tokenizer_letters by (assumption || lia).
           change (y :: p ++ suf) with ((y :: p) ++ suf).
           rewrite (Hrun suf fuel) by (cbn [length]; lia). reflexivity.
      * right; right. split.
        -- unfold inside_string in *.
           change (x :: l ++ y :: p) with ((x :: l) ++ y :: p).
           rewrite Hq0. exact Hin.
        -- intros suf fuel Hsuf Hfuel. cbn [length] in Hfuel.
           rewrite length_app in Hfuel. cbn [length] in Hfuel.
           destruct fuel as [|fuel]; [lia|].
           replace ((x :: l ++ y :: p) ++ suf) with ((x :: l) ++ y :: (p ++ suf))
             by (cbn [app]; rewrite <- app_assoc; reflexivity).
           rewrite tokenizer_letters by (assumption || lia).
           change (y :: p ++ suf) with ((y :: p) ++ suf).
           rewrite (Hrun suf fuel Hsuf) by (cbn [length]; lia). reflexivity.
  - (* an unrecognized character *)
    right; left. exists 0, x. split; [reflexivity|]. split; [exact Hx|].
    split; [reflexivity|].
    intros suf fuel Hfuel. destruct fuel as [|fuel]; [lia|].
    apply tokenizer_other, Hx.
Qed.

(** Behind a text that ends outside the string literals and has no
    unrecognized character outside them, the tokenizer is in its main
    loop. *)
Lemma tokenizer_text_clean pre :
  inside_string pre = false ->
  (forall i x, pre !! i = Some x -> unrecognized x = true ->
               inside_string (take i pre) = true) ->
  exists k toks, k <= length pre /\
    forall c suf fuel, is_letter c = false -> length pre + 2 <= fuel ->
      tokenizer fuel (pre ++ c :: suf)
      = match tokenizer (fuel - k) (c :: suf) with
        | Return out => Return (toks ++ out)
        | r => r
        end.
Proof.
  intros Hout Hclean.
  destruct (tokenizer_text (length pre) pre (le_n _))
    as [H|[(i & x & Hi & Hx & Hin & _)|[Hin _]]]; [exact H| |congruence].
  rewrite (Hclean i x Hi Hx) in Hin. discriminate.
Qed.


Lemma unrecognized_not_letter c : unrecognized c = true -> is_letter c = false.
Proof.
  unfold unrecognized. rewrite !andb_true_iff, !negb_true_iff. tauto.
Qed.





(** ** Tokenizer: claims C5 and C6 *)




(** An error of the tokenizer stays when the input goes on. *)
Lemma tokenizer_loop_prefix_throws fuel pre suf current tokens e :
  tokenizer_loop fuel pre current tokens = Throw e ->
  tokenizer_loop fuel (pre ++ suf) current tokens = Throw e.
Proof.
  revert current tokens.
  induction fuel as [|fuel IH]; intros current tokens H; [discriminate|].
  cbn [tokenizer_loop] in H.
  destruct (decide (current < length pre)) as [Hlt|Hge].
  2:{ rewrite bool_decide_eq_false_2 in H by lia. discriminate. }
  rewrite bool_decide_eq_true_2 in H by exact Hlt.
  unfold_once tokenizer_loop.
  rewrite bool_decide_eq_true_2 by (rewrite length_app; lia).
  rewrite (lookup_app_l pre) by exact Hlt.
  destruct (_ || _); [apply IH; exact H|].
  destruct (WS_test _); [apply IH; exact H|].
  destruct (NUMBER_test _); [apply IH; exact H|].
  destruct (bool_decide (_ = Some dquote)).
  { destruct (string_loop fuel _ _ _ _) as [[[c v] ch]|] eqn:E; [|discriminate].
    apply (string_loop_prefix _ _ suf) in E as [Hc E]. rewrite E.
    apply IH; exact H. }
  destruct (LETTER_test _) eqn:El; [|exact H].
  destruct (name_loop fuel _ _ _ _) as [[[c v] ch]|] eqn:E; [|discriminate].
  apply (name_loop_prefix _ _ suf) in E as [Hc E].
  rewrite (lookup_app_l pre) in E by exact Hlt. rewrite E.
  apply IH; exact H.
Qed.

(** The first of the unrecognized characters of a text that are outside
    the string literals. *)
Lemma first_unrecognized (input : jsstring) i x :
  input !! i = Some x -> unrecognized x = true ->
  inside_string (take i input) = false ->
  exists i0 x0,
    input !! i0 = Some x0 /\ unrecognized x0 = true
    /\ inside_string (take i0 input) = false
    /\ forall j y, j < i0 -> input !! j = Some y -> unrecognized y = true ->
                   inside_string (take j input) = true.
Proof.
  revert x. induction i as [i IH] using lt_wf_ind. intros x Hi Hx Hout.
  assert (Hdec : forall n,
    (forall j y, j < n -> input !! j = Some y -> unrecognized y = true ->
                 inside_string (take j input) = true)
    \/ exists j y, j < n /\ input !! j = Some y /\ unrecognized y = true
                   /\ inside_string (take j input) = false).
  { induction n as [|n [Hall|(j & y & Hj & Hy)]].
    - left. intros j y Hj. lia.
    - destruct (input !! n) as [y|] eqn:En.
      + destruct (unrecognized y) eqn:Hy.
        * destruct (inside_string (take n input)) eqn:Hn.
          -- left. intros j z Hj Hz Hu.
             destruct (decide (j = n)) as [->|Hne]; [exact Hn|].
             apply (Hall j z); [lia|assumption..].
          -- right. exists n, y. split; [lia|]. auto.
        * left. intros j z Hj Hz Hu.
          destruct (decide (j = n)) as [->|Hne]; [congruence|].
          apply (Hall j z); [lia|assumption..].
      + left. intros j z Hj Hz Hu.
        destruct (decide (j = n)) as [->|Hne]; [congruence|].
        apply (Hall j z); [lia|assumption..].
    - right. exists j, y. split; [lia|exact Hy]. }
  destruct (Hdec i) as [Hall|(j & y & Hj & Hy & Hu & Ho)].
  - exists i, x. auto.
  - exact (IH j Hj y Hy Hu Ho).
Qed.

(** Every error of the tokenizer is thrown at the first unrecognized
    character outside the string literals. *)
Lemma tokenizer_throws_first fuel input e :
  tokenizer fuel input = Throw e ->
  exists pre c suf,
    input = pre ++ c :: suf /\ unrecognized c = true
    /\ inside_string pre = false
    /\ (forall i x, pre !! i = Some x -> unrecognized x = true ->
                    inside_string (take i pre) = true)
    /\ e = SyntaxError (unknown_character_message c).
Proof.
  intros H.
  assert (Hbig : forall suf, tokenizer (length input + 2 + fuel) (input ++ suf) = Throw e).
  { intros suf. apply tokenizer_loop_prefix_throws.
    apply (tokenizer_loop_mono fuel); [exact H|discriminate|lia]. }
  destruct (tokenizer_text (length input) input (le_n _))
    as [(k & toks & Hk & Hrun)|[(i & x & Hi & Hx & Hout & _)|[_ Hloop]]].
  - exfalso. specialize (Hrun 32%N [] _ eq_refl (Nat.le_add_r _ fuel)).
    rewrite Hbig in Hrun.
    replace (length input + 2 + fuel - k) with (S (S (length input + fuel - k)))
      in Hrun by lia.
    change (tokenizer (S (S (length input + fuel - k))) [32%N])
      with (@Return (list token) []) in Hrun.
    discriminate Hrun.
  - destruct (first_unrecognized input i x Hi Hx Hout)
      as (i0 & x0 & Hi0 & Hx0 & Hout0 & Hfirst).
    pose proof (lookup_lt_Some _ _ _ Hi0) as Hlt.
    assert (Hclean : forall j y, take i0 input !! j = Some y -> unrecognized y = true ->
                       inside_string (take j (take i0 input)) = true).
    { intros j y Hj Hy. apply lookup_take_Some in Hj as [Hj Hlt'].
      rewrite take_take, Nat.min_l by lia. exact (Hfirst j y Hlt' Hj Hy). }
    exists (take i0 input), x0, (drop (S i0) input).
    split; [symmetry; apply take_drop_middle; exact Hi0|].
    split; [exact Hx0|]. split; [exact Hout0|]. split; [exact Hclean|].
    destruct (tokenizer_text_clean _ Hout0 Hclean) as (k & toks & Hk & Hrun).
    specialize (Hrun x0 (drop (S i0) input) (length input + 2 + fuel)
                  (unrecognized_not_letter _ Hx0)).
    rewrite (take_drop_middle _ _ _ Hi0) in Hrun.
    rewrite length_take in Hrun. specialize (Hrun ltac:(lia)).
    specialize (Hbig []). rewrite app_nil_r in Hbig. rewrite Hbig in Hrun.
    replace (length input + 2 + fuel - k)
      with (S (length input + 1 + fuel - k)) in Hrun by (rewrite length_take in Hk; lia).
    rewrite tokenizer_other in Hrun by exact Hx0. congruence.
  - exfalso.
    specialize (Hloop [] (length input + 2 + fuel) (not_elem_of_nil _) ltac:(lia)).
    rewrite Hbig in Hloop. discriminate Hloop.
Qed.

(** C6, as the specification has it, is that the LexError identifies the
    offending character and its position.  The error carries the
    character only: the one-character input [#] and the input made of a
    space and [#] throw the same error, so no function of the error gives
    a position at which the input has an unrecognized character. *)
Lemma C6_position_not_identified :
  ~ exists position_of : error -> nat,
      forall fuel input e,
        tokenizer fuel input = Throw e ->
        exists c, input !! position_of e = Some c /\ unrecognized c = true.
Proof.
  intros [position_of H].
  destruct (H 1 (js "#") _ eq_refl) as (c1 & H1 & _).
  destruct (H 2 (js " #") _ eq_refl) as (c2 & H2 & U2).
  change (unknown_character_message 35)
    with (js "I dont know what this character is: #") in *.
  change (js "I dont know what this character is: " ++ ToString (js " #" !! 1%nat))
    with (js "I dont know what this character is: #") in *.
  change (js "I dont know what this character is: " ++ ToString (js "#" !! 0%nat))
    with (js "I dont know what this character is: #") in *.
  destruct (position_of _) as [|[|n]]; cbn in H1, H2.
  - inversion H2; subst c2. discriminate U2.
  - discriminate H1.
  - discriminate H1.
Qed.

(** C6, amended.  When the tokenizer meets, outside a string literal, a
    character that is not a paren, whitespace, digit, double quote or ASCII
    letter, it throws the SyntaxError whose message is the fixed text
    followed by that character.  It meets the first such character: the
    character [c] behind a text [pre] that has an even number of double
    quotes and whose own unrecognized characters are all inside string
    literals; what the text ends with, a name for one, makes no difference.
    And every error the tokenizer throws is this one, for the first
    unrecognized character of the input outside the string literals.  The
    position is not part of the error. *)
Theorem C6_unrecognized_character :
  (forall pre c suf fuel,
      unrecognized c = true ->
      inside_string pre = false ->
      (forall i x, pre !! i = Some x -> unrecognized x = true ->
                   inside_string (take i pre) = true) ->
      length pre + 2 <= fuel ->
      tokenizer fuel (pre ++ (c :: suf))
      = Throw (SyntaxError (js "I dont know what this character is: " ++ [c])))
  /\ (forall fuel input e,
        tokenizer fuel input = Throw e ->
        exists pre c suf,
          input = pre ++ (c :: suf) /\ unrecognized c = true
          /\ inside_string pre = false
          /\ (forall i x, pre !! i = Some x -> unrecognized x = true ->
                          inside_string (take i pre) = true)
          /\ e = SyntaxError (js "I dont know what this character is: " ++ [c])).
Proof.
  split.
  - intros pre c suf fuel Hc Hout Hclean Hfuel.
    destruct (tokenizer_text_clean pre Hout Hclean) as (k & toks & Hk & Hrun).
    rewrite (Hrun c suf fuel (unrecognized_not_letter _ Hc) Hfuel).
    replace (fuel - k) with (S (fuel - k - 1)) by lia.
    rewrite tokenizer_other by exact Hc. reflexivity.
  - intros fuel input e H. exact (tokenizer_throws_first fuel input e H).
Qed.

Lemma C6_witness :
  tokenizer 20 (js "(add " ++ dquote :: js "a#b" ++ dquote :: js " x" ++ (35%N :: js ")"))
  = Throw (SyntaxError (js "I dont know what this character is: #")).
Proof.
  refine (proj1 C6_unrecognized_character
            (js "(add " ++ dquote :: js "a#b" ++ dquote :: js " x") 35%N (js ")") 20
            _ _ _ _).
  - vm_compute. reflexivity.
  - vm_compute. reflexivity.
  - intros i x Hi Hx.
    do 12 (destruct i as [|i];
           [vm_compute in Hi; inversion Hi; subst x;
            first [discriminate Hx | vm_compute; reflexivity]|]).
    vm_compute in Hi. discriminate Hi.
  - vm_compute. lia.
Defined.

(** ** Parser: the token lists it accepts *)

Lemma spelled_head toks t :
  spelled toks t ->
  exists tok rest, toks = tok :: rest /\ not_closing tok = true.
Proof.
  intros H. destruct H as [tok l Hty|tok l Hty|nm toks l a params _].
  - exists tok, []. split; [reflexivity|]. unfold not_closing.
    rewrite Hty. reflexivity.
  - exists tok, []. split; [reflexivity|]. unfold not_closing.
    rewrite Hty. reflexivity.
  - exists lp, (nm :: toks ++ [rp]). split; reflexivity.
Qed.

Lemma lookup_middle_head {A} (pre : list A) x rest :
  (pre ++ x :: rest) !! length pre = Some x.
Proof. apply list_lookup_middle. reflexivity. Qed.

(** One turn of either loop of the parser: [walk] on the tokens of [t],
    then [push]. *)
Lemma parser_turn {B} (K : nat -> M B) k t toks tokens pre post node a pa es h fuel :
  parses t -> spelled toks t ->
  tokens = pre ++ toks ++ post -> length toks <= fuel ->
  field h node k = Some (VRef a) -> h !! a = Some (Obj pa (Some es)) ->
  exists t' h2,
    (let* body := get (VRef node) k in
     let* (child, current) := walk fuel tokens (length pre) in
     let* _ := push body child in
     K current) h
    = K (length pre + length toks) h2
    /\ shape t' = shape t /\ spelled toks t'
    /\ repr h2 t' /\ Forall (fun l => length h <= l) (locs t')
    /\ length h <= length h2
    /\ (forall l, l < length h -> l <> a -> h2 !! l = h !! l)
    /\ h2 !! a = Some (Obj pa (Some (es ++ [VRef (root t')])))
    /\ field h2 node k = Some (VRef a).
Proof.
  intros IH Ht -> Hfuel Hk Ea.
  destruct (IH toks Ht _ pre post h fuel eq_refl Hfuel)
    as (t' & h1 & Hw & Hshape & Ht' & Hrepr & Hlocs & Hlen & Hframe).
  pose proof (lookup_lt_Some _ _ _ Ea) as Halt.
  assert (Ea1 : h1 !! a = Some (Obj pa (Some es)))
    by (rewrite Hframe by exact Halt; exact Ea).
  exists t', (<[a := Obj pa (Some (es ++ [VRef (root t')]))]> h1).
  split; [|split; [exact Hshape|split; [exact Ht'|]]].
  { rewrite (bind_Return _ _ _ _ _ (get_field _ _ _ _ Hk)).
    rewrite (bind_Return _ _ _ _ _ Hw).
    rewrite (bind_Return _ _ _ _ _ (push_ref _ _ _ _ _ Ea1)). reflexivity. }
  split; [|split; [exact Hlocs|split; [|split; [|split]]]].
  - apply (repr_frame (length h) h1 _ t' Hrepr Hlocs).
    intros l H1 H2. apply list_lookup_insert_ne. lia.
  - rewrite length_insert. exact Hlen.
  - intros l H1 H2. rewrite list_lookup_insert_ne by congruence. apply Hframe, H1.
  - apply list_lookup_insert_eq. lia.
  - pose proof (field_lt _ _ _ _ Hk) as Hnlt.
    unfold field. destruct (decide (node = a)) as [->|Hne].
    + rewrite list_lookup_insert_eq by lia. cbn.
      unfold field in Hk. rewrite Ea in Hk. exact Hk.
    + rewrite list_lookup_insert_ne by congruence.
      rewrite Hframe by exact Hnlt. exact Hk.
Qed.

(** The loop of the call branch on the tokens of the parameters. *)
Lemma params_loop_complete params :
  Forall parses params ->
  forall ptoks, spelled_all ptoks params ->
  forall tokens pre post node a pa es h fuel,
    tokens = pre ++ ptoks ++ rp :: post -> length ptoks < fuel ->
    field h node "params" = Some (VRef a) -> h !! a = Some (Obj pa (Some es)) ->
    exists ts h',
      params_loop fuel tokens (length pre) (VRef node) h
      = Return (length pre + length ptoks, h')
      /\ map shape ts = map shape params /\ spelled_all ptoks ts
      /\ h' !! a = Some (Obj pa (Some (es ++ map (fun t => VRef (root t)) ts)))
      /\ Forall (repr h') ts
      /\ Forall (fun t => Forall (fun l => length h <= l) (locs t)) ts
      /\ length h <= length h'
      /\ (forall l, l < length h -> l <> a -> h' !! l = h !! l).
Proof.
  induction params as [|p params IHl]; intros IH ptoks Hsp tokens pre post node a pa es
    h fuel -> Hfuel Hk Ea; inversion Hsp; subst.
  - exists [], h. destruct fuel as [|fuel]; [lia|]. cbn [params_loop app length].
    rewrite lookup_middle_head. cbn. rewrite Nat.add_0_r, app_nil_r.
    repeat split; auto.
  - inversion IH as [|? ? IHp IH']; subst.
    match goal with H : spelled _ p |- _ => rename H into Hp end.
    match goal with H : spelled_all _ params |- _ => rename H into Hps end.
    destruct (spelled_head _ _ Hp) as (tok & trest & -> & Hnc).
    destruct fuel as [|fuel]; [cbn in Hfuel; lia|].
    cbn [params_loop]. rewrite <- !app_assoc. cbn [app].
    rewrite lookup_middle_head. fold (not_closing tok). rewrite Hnc.
    rewrite length_app in Hfuel.
    destruct (parser_turn (fun c => params_loop fuel (pre ++ tok :: trest ++ rest ++ rp :: post) c (VRef node))
                "params" p (tok :: trest) (pre ++ tok :: trest ++ rest ++ rp :: post)
                pre (rest ++ rp :: post) node a pa es h fuel IHp Hp)
      as (t' & h2 & Hrun & Hshape & Ht' & Hrepr & Hlocs & Hlen & Hframe & Ea2 & Hk2);
      [reflexivity|cbn [length] in *; lia|exact Hk|exact Ea|].
    rewrite Hrun.
    destruct (IHl IH' rest Hps (pre ++ tok :: trest ++ rest ++ rp :: post)
                (pre ++ tok :: trest) post node a pa
                (es ++ [VRef (root t')]) h2 fuel)
      as (ts & h' & Hrun' & Hshape' & Hts & Ea' & Hrepr' & Hlocs' & Hlen' & Hframe');
      [rewrite <- app_assoc; reflexivity|cbn [length] in *; lia|exact Hk2|exact Ea2|].
    rewrite length_app in Hrun'. rewrite Hrun'.
    exists (t' :: ts), h'.
    split; [f_equal; f_equal; cbn [length]; rewrite length_app; lia|].
    split; [cbn [map]; congruence|].
    split; [exact (spelled_cons (tok :: trest) t' rest ts Ht' Hts)|].
    split; [rewrite <- app_assoc in Ea'; exact Ea'|].
    pose proof (lookup_lt_Some _ _ _ Ea) as Halt.
    split; [|split; [|split; [lia|]]].
    + constructor; [|exact Hrepr'].
      apply (repr_frame (length h) h2 h' t' Hrepr Hlocs).
      intros l H1 H2. apply Hframe'; lia.
    + constructor; [exact Hlocs|].
      eapply Forall_impl; [exact Hlocs'|]. intros x Hx. cbn beta in Hx.
      eapply Forall_impl; [exact Hx|]. intros y Hy. cbn beta in Hy. lia.
    + intros l H1 H2. rewrite Hframe' by lia. apply Hframe; assumption.
Qed.

Lemma spelled_all_length ptoks params :
  spelled_all ptoks params -> length params <= length ptoks.
Proof.
  revert ptoks. induction params as [|p params IH]; intros ptoks H;
    inversion H; subst; cbn [length]; [lia|].
  match goal with H : spelled _ p |- _ => destruct (spelled_head _ _ H) as (tok & r & -> & _) end.
  match goal with H : spelled_all _ params |- _ => apply IH in H end.
  cbn [length app]. rewrite length_app. lia.
Qed.

Lemma every_tree_parses t : parses t.
Proof.
  induction t as [l a body IH|l name a params IH|l value|l value]
    using stree_ind'; intros toks Hsp tokens pre post h fuel -> Hfuel;
    inversion Hsp; subst.
  - (* a call *)
    match goal with H : spelled_all _ params |- _ => rename H into Hps end.
    rename toks0 into ptoks.
    cbn [length] in Hfuel. rewrite length_app in Hfuel. cbn [length] in Hfuel.
    destruct fuel as [|fuel]; [lia|].
    cbn [walk app]. rewrite lookup_middle_head.
    change (bool_decide (type lp = js "number")) with false.
    change (bool_decide (type lp = js "string")) with false.
    change (bool_decide (type lp = js "paren") && bool_decide (value lp = js "("))
      with true. cbv iota.
    replace (S (length pre)) with (length (pre ++ [lp]))
      by (rewrite length_app; cbn; lia).
    replace (pre ++ lp :: nm :: (ptoks ++ [rp]) ++ post)
      with ((pre ++ [lp]) ++ nm :: (ptoks ++ [rp]) ++ post)
      by (rewrite <- app_assoc; reflexivity).
    rewrite lookup_middle_head.
    set (tokens := (pre ++ [lp]) ++ nm :: (ptoks ++ [rp]) ++ post).
    set (arr := Obj ∅ (Some [])).
    set (obj := Obj (list_to_map [("type", VString (js "CallExpression"));
                                  ("name", VString (value nm));
                                  ("params", VRef (length h))]) None).
    assert (L1 : length (h ++ [arr]) = S (length h))
      by (rewrite length_app; cbn; lia).
    assert (L2 : length ((h ++ [arr]) ++ [obj]) = S (S (length h)))
      by (rewrite length_app, L1; cbn; lia).
    assert (Ha2 : ((h ++ [arr]) ++ [obj]) !! length h = Some arr)
      by (apply lookup_app_l_Some, list_lookup_middle; reflexivity).
    assert (Hk2 : field ((h ++ [arr]) ++ [obj]) (length (h ++ [arr])) "params"
                  = Some (VRef (length h))) by apply field_last.
    destruct (params_loop_complete params IH ptoks Hps tokens
                ((pre ++ [lp]) ++ [nm]) post (length (h ++ [arr])) (length h) ∅ []
                ((h ++ [arr]) ++ [obj]) fuel)
      as (ts & h' & Hrun & Hshape & Hts & Ea' & Hrepr & Hlocs & Hlen & Hframe);
      [unfold tokens; rewrite <- !app_assoc; reflexivity|lia|exact Hk2|exact Ha2|].
    rewrite L2 in *. cbn [app] in Ea'.
    assert (Hnode : h' !! S (length h) = Some obj).
    { rewrite Hframe by lia. rewrite <- L1. apply list_lookup_middle. reflexivity. }
    exists (SCallExpression (S (length h)) (value nm) (length h) ts), h'.
    split; [|split; [|split; [|split; [|split; [|split]]]]].
    + unfold new_array, new_object, bind, ret. fold arr. fold obj. rewrite L1.
      replace (S (length (pre ++ [lp]))) with (length ((pre ++ [lp]) ++ [nm]))
        by (rewrite !length_app; cbn; lia).
      rewrite L1 in Hrun. rewrite Hrun. cbn [root]. f_equal. f_equal. f_equal.
      cbn [length]. rewrite !length_app. cbn [length]. lia.
    + cbn [shape]. f_equal. exact Hshape.
    + constructor. exact Hts.
    + apply repr_CallExpression;
        try (rewrite (lookup_field _ _ _ _ Hnode); reflexivity);
        [|exact Hrepr].
      unfold array_at. rewrite Ea'. reflexivity.
    + cbn [locs]. constructor; [lia|]. constructor; [lia|].
      apply Forall_forall. intros x Hx.
      apply elem_of_flat_map in Hx as (t & Hin & Hx).
      pose proof (proj1 (Forall_forall _ _)
                    (proj1 (Forall_forall _ _) Hlocs t Hin) x Hx) as Hx'.
      cbn beta in Hx'. rewrite ?length_app in Hx'. cbn [length] in Hx'. lia.
    + lia.
    + intros l0 Hl. rewrite Hframe by lia.
      rewrite lookup_app_l by (rewrite L1; lia). apply lookup_app_l. exact Hl.
  - (* a number *)
    destruct fuel as [|fuel]; [cbn in Hfuel; lia|].
    cbn [walk app]. rewrite lookup_middle_head.
    rewrite bool_decide_eq_true_2 by assumption.
    exists (SNumberLiteral (length h) (value tok)), (h ++ [Obj (list_to_map [("type", VString (js "NumberLiteral")); ("value", VString (value tok))]) None]).
    split; [|split; [reflexivity|split; [constructor; assumption|]]].
    { unfold new_object, bind, ret. cbn [root length]. repeat f_equal. lia. }
    split; [|split; [|split]].
    + apply repr_NumberLiteral; rewrite field_last; reflexivity.
    + cbn. constructor; [lia|constructor].
    + rewrite length_app. lia.
    + intros l0 Hl. apply lookup_app_l. exact Hl.
  - (* a string *)
    destruct fuel as [|fuel]; [cbn in Hfuel; lia|].
    cbn [walk app]. rewrite lookup_middle_head.
    match goal with H : type tok = js "string" |- _ => rename H into Hty end.
    rewrite bool_decide_eq_false_2 by (rewrite Hty; discriminate).
    rewrite bool_decide_eq_true_2 by assumption.
    exists (SStringLiteral (length h) (value tok)), (h ++ [Obj (list_to_map [("type", VString (js "StringLiteral")); ("value", VString (value tok))]) None]).
    split; [|split; [reflexivity|split; [constructor; assumption|]]].
    { unfold new_object, bind, ret. cbn [root length]. repeat f_equal. lia. }
    split; [|split; [|split]].
    + apply repr_StringLiteral; rewrite field_last; reflexivity.
    + cbn. constructor; [lia|constructor].
    + rewrite length_app. lia.
    + intros l0 Hl. apply lookup_app_l. exact Hl.
Qed.

(** The top-level loop on the tokens of a list of expressions. *)
Lemma parser_loop_complete body :
  forall toks, spelled_all toks body ->
  forall tokens pre ast a pa es h fuel,
    tokens = pre ++ toks -> length toks < fuel ->
    field h ast "body" = Some (VRef a) -> h !! a = Some (Obj pa (Some es)) ->
    exists ts h',
      parser_loop fuel tokens (length pre) (VRef ast) h = Return (tt, h')
      /\ map shape ts = map shape body /\ spelled_all toks ts
      /\ h' !! a = Some (Obj pa (Some (es ++ map (fun t => VRef (root t)) ts)))
      /\ Forall (repr h') ts
      /\ (forall l, l < length h -> l <> a -> h' !! l = h !! l).
Proof.
  induction body as [|p body IHl]; intros toks Hsp tokens pre ast a pa es
    h fuel -> Hfuel Hk Ea; inversion Hsp; subst.
  - exists [], h. destruct fuel as [|fuel]; [lia|]. cbn [parser_loop].
    rewrite bool_decide_eq_false_2 by (rewrite app_nil_r; lia).
    cbn. rewrite app_nil_r. repeat split; auto.
  - match goal with H : spelled _ p |- _ => rename H into Hp end.
    match goal with H : spelled_all _ body |- _ => rename H into Hps end.
    destruct (spelled_head _ _ Hp) as (tok & trest & -> & Hnc).
    destruct fuel as [|fuel]; [cbn in Hfuel; lia|].
    cbn [parser_loop].
    rewrite bool_decide_eq_true_2 by (rewrite !length_app; cbn; lia).
    rewrite length_app in Hfuel.
    destruct (parser_turn (fun c => parser_loop fuel (pre ++ (tok :: trest) ++ rest) c (VRef ast))
                "body" p (tok :: trest) (pre ++ (tok :: trest) ++ rest)
                pre rest ast a pa es h fuel (every_tree_parses p) Hp)
      as (t' & h2 & Hrun & Hshape & Ht' & Hrepr & Hlocs & Hlen & Hframe & Ea2 & Hk2);
      [reflexivity|cbn [length] in *; lia|exact Hk|exact Ea|].
    rewrite Hrun.
    destruct (IHl rest Hps (pre ++ (tok :: trest) ++ rest)
                (pre ++ tok :: trest) ast a pa
                (es ++ [VRef (root t')]) h2 fuel)
      as (ts & h' & Hrun' & Hshape' & Hts & Ea' & Hrepr' & Hframe');
      [rewrite <- app_assoc; reflexivity|cbn [length] in *; lia|exact Hk2|exact Ea2|].
    rewrite length_app in Hrun'. rewrite Hrun'.
    exists (t' :: ts), h'. split; [reflexivity|].
    split; [cbn [map]; congruence|].
    split; [exact (spelled_cons (tok :: trest) t' rest ts Ht' Hts)|].
    split; [rewrite <- app_assoc in Ea'; exact Ea'|].
    pose proof (lookup_lt_Some _ _ _ Ea) as Halt.
    split.
    + constructor; [|exact Hrepr'].
      apply (repr_frame (length h) h2 h' t' Hrepr Hlocs).
      intros l H1 H2. apply Hframe'; lia.
    + intros l H1 H2. rewrite Hframe' by lia. apply Hframe; assumption.
Qed.

Lemma parser_complete tokens body h0 fuel :
  spelled_all tokens body -> length tokens < fuel ->
  exists a body' h,
    parser fuel tokens h0 = Return (VRef (S (length h0)), h)
    /\ repr h (SProgram (S (length h0)) a body')
    /\ map shape body' = map shape body
    /\ spelled_all tokens body'
    /\ (forall l, l < length h0 -> h !! l = h0 !! l).
Proof.
  intros Hsp Hfuel. unfold parser.
  set (arr := Obj ∅ (Some [])).
  set (obj := Obj (list_to_map [("type", VString (js "Program"));
                                ("body", VRef (length h0))]) None).
  assert (L1 : length (h0 ++ [arr]) = S (length h0))
    by (rewrite length_app; cbn; lia).
  assert (L2 : length ((h0 ++ [arr]) ++ [obj]) = S (S (length h0)))
    by (rewrite length_app, L1; cbn; lia).
  assert (Ha2 : ((h0 ++ [arr]) ++ [obj]) !! length h0 = Some arr)
    by (apply lookup_app_l_Some, list_lookup_middle; reflexivity).
  assert (Hk2 : field ((h0 ++ [arr]) ++ [obj]) (length (h0 ++ [arr])) "body"
                = Some (VRef (length h0))) by apply field_last.
  destruct (parser_loop_complete body tokens Hsp tokens [] (length (h0 ++ [arr]))
              (length h0) ∅ [] ((h0 ++ [arr]) ++ [obj]) fuel eq_refl Hfuel Hk2 Ha2)
    as (ts & h' & Hrun & Hshape & Hts & Ea' & Hrepr & Hframe).
  rewrite L2 in *. cbn [app length] in *.
  assert (Hnode : h' !! S (length h0) = Some obj).
  { rewrite Hframe by lia. rewrite <- L1. apply list_lookup_middle. reflexivity. }
  exists (length h0), ts, h'.
  split; [|split; [|split; [exact Hshape|split; [exact Hts|]]]].
  - unfold new_array, new_object, bind, ret. fold arr. fold obj.
    rewrite L1 in *. rewrite Hrun. reflexivity.
  - apply repr_Program;
      try (rewrite (lookup_field _ _ _ _ Hnode); reflexivity); [|exact Hrepr].
    unfold array_at. rewrite Ea'. reflexivity.
  - intros l Hl. rewrite Hframe by lia.
    rewrite lookup_app_l by (rewrite L1; lia). apply lookup_app_l. exact Hl.
Qed.

Lemma tokens_of_spelled t : expression t -> spelled (tokens_of t) t.
Proof.
  induction t as [l a body IH|l name a params IH|l value|l value]
    using stree_ind'; intros He; inversion He; subst; cbn [tokens_of].
  - apply (spelled_call (Token (js "name") name)).
    match goal with H : Forall expression params |- _ => rename H into Hex end.
    clear He. induction IH as [|p params Hp _ IHl]; cbn [flat_map]; [constructor|].
    inversion Hex; subst. constructor; auto.
  - apply (spelled_number (Token (js "number") value)). reflexivity.
  - apply (spelled_string (Token (js "string") value)). reflexivity.
Qed.

Lemma tokens_of_spelled_all ts :
  Forall expression ts -> spelled_all (flat_map tokens_of ts) ts.
Proof.
  induction 1 as [|t ts Ht _ IH]; cbn [flat_map]; [constructor|].
  constructor; [apply tokens_of_spelled; exact Ht|exact IH].
Qed.

(** X8.  The parser accepts every token list made of expressions, where an
    expression is a number token, a string token, or an opening paren, one
    token of any type taken as the name, expressions and a closing paren:
    with more fuel than there are tokens it returns a Program, built behind
    the heap it started in, whose body is the list of the trees that the
    tokens spell. *)
Theorem parser_accepts (tokens : list token) (body : list stree) (h0 : heap)
    (fuel : nat) :
  spelled_all tokens body -> length tokens < fuel ->
  exists l a body' h,
    parser fuel tokens h0 = Return (VRef l, h)
    /\ repr h (SProgram l a body')
    /\ map shape body' = map shape body
    /\ (forall l', l' < length h0 -> h !! l' = h0 !! l').
Proof.
  intros Hsp Hfuel.
  destruct (parser_complete tokens body h0 fuel Hsp Hfuel)
    as (a & body' & h & Hrun & R & Hshape & _ & Hframe).
  eauto 8.
Qed.

Lemma parser_accepts_witness :
  exists l a body' h,
    parser 5 [lp; Token (js "number") (js "1"); Token (js "string") (js "x"); rp] []
    = Return (VRef l, h)
    /\ repr h (SProgram l a body')
    /\ map shape body'
       = map shape [SCallExpression 0 (js "1") 0 [SStringLiteral 0 (js "x")]]
    /\ (forall l', l' < length (@nil object) -> h !! l' = (@nil object) !! l').
Proof.
  apply (parser_accepts
           [lp; Token (js "number") (js "1"); Token (js "string") (js "x"); rp]
           [SCallExpression 0 (js "1") 0 [SStringLiteral 0 (js "x")]] [] 5).
  - refine (spelled_cons
              (lp :: Token (js "number") (js "1")
                  :: [Token (js "string") (js "x")] ++ [rp]) _ [] [] _ spelled_nil).
    apply (spelled_call (Token (js "number") (js "1"))).
    refine (spelled_cons [Token (js "string") (js "x")] _ [] [] _ spelled_nil).
    apply (spelled_string (Token (js "string") (js "x"))). reflexivity.
  - cbn. lia.
Defined.

(** ** Parser: the tokens that a returning run has read *)

Lemma closing_is_rp tok : not_closing tok = false -> tok = rp.
Proof.
  unfold not_closing. intros H. apply orb_false_iff in H as [H1 H2].
  apply bool_decide_eq_false_1 in H1.
  destruct (decide (type tok = js "paren")) as [Ety|]; [|tauto].
  rewrite (bool_decide_eq_true_2 _ Ety) in H2. cbn in H2.
  apply bool_decide_eq_false_1 in H2.
  destruct (decide (value tok = js ")")) as [Ev|]; [|tauto].
  destruct tok as [ty v]. cbn in *. subst. reflexivity.
Qed.

Lemma walk_reads fuel :
  (forall tokens current h v current' h',
      walk fuel tokens current h = Return ((v, current'), h') ->
      (current' = current
       /\ exists tok, tokens !! current = Some tok /\ no_branch tok)
      \/ exists toks t,
           drop current tokens = toks ++ drop current' tokens
           /\ current' = current + length toks /\ spelled toks t)
  /\ (forall tokens current node h current' h',
      params_loop fuel tokens current node h = Return (current', h') ->
      exists toks ts,
        drop current tokens = toks ++ drop current' tokens
        /\ current' = current + length toks /\ spelled_all toks ts
        /\ tokens !! current' = Some rp).
Proof.
  induction fuel as [|fuel [IHw IHp]]; [split; intros; discriminate|]. split.
  - intros tokens current h v current' h' H. cbn [walk] in H.
    destruct (tokens !! current) as [token|] eqn:Ht; [|discriminate].
    pose proof (drop_S _ _ _ Ht) as Hdrop.
    destruct (bool_decide (type token = js "number")) eqn:E1.
    { apply bind_inv in H as (node & h1 & Hn & H).
      apply ret_inv in H. inversion H; subst.
      apply bool_decide_eq_true_1 in E1.
      right. exists [token], (SNumberLiteral 0 (value token)).
      split; [exact Hdrop|]. split; [cbn; lia|]. constructor. exact E1. }
    destruct (bool_decide (type token = js "string")) eqn:E2.
    { apply bind_inv in H as (node & h1 & Hn & H).
      apply ret_inv in H. inversion H; subst.
      apply bool_decide_eq_true_1 in E2.
      right. exists [token], (SStringLiteral 0 (value token)).
      split; [exact Hdrop|]. split; [cbn; lia|]. constructor. exact E2. }
    apply bool_decide_eq_false_1 in E1, E2.
    destruct (bool_decide (type token = js "paren")
              && bool_decide (value token = js "(")) eqn:E3.
    2:{ apply ret_inv in H. inversion H; subst. left.
        split; [reflexivity|]. exists token. split; [reflexivity|].
        repeat split; try assumption. intros [Ea Eb].
        rewrite !bool_decide_eq_true_2 in E3 by assumption. discriminate. }
    apply andb_true_iff in E3 as [E3 E4].
    apply bool_decide_eq_true_1 in E3, E4.
    assert (token = lp) as -> by (destruct token; cbn in *; subst; reflexivity).
    destruct (tokens !! S current) as [nm|] eqn:Ht'; [|discriminate].
    apply bind_inv in H as (params & h1 & Hn & H).
    apply bind_inv in H as (node & h2 & Hn2 & H).
    apply bind_inv in H as (c2 & h3 & Hp & H).
    apply ret_inv in H. inversion H; subst v current' h'; clear H.
    destruct (IHp _ _ _ _ _ _ Hp) as (toks & ts & Hd & -> & Hts & Hclose).
    right. exists (lp :: nm :: toks ++ [rp]), (SCallExpression 0 (value nm) 0 ts).
    split; [|split; [|constructor; exact Hts]].
    + rewrite Hdrop, (drop_S _ _ _ Ht'), Hd, (drop_S _ _ _ Hclose).
      cbn [app]. rewrite <- app_assoc. reflexivity.
    + cbn [length]. rewrite length_app. cbn [length]. lia.
  - intros tokens current node h current' h' H.
    cbn [params_loop] in H.
    destruct (tokens !! current) as [token|] eqn:Ht; [|discriminate].
    fold (not_closing token) in H. destruct (not_closing token) eqn:Hnc.
    2:{ apply ret_inv in H. inversion H; subst. exists [], [].
        split; [reflexivity|]. split; [cbn; lia|]. split; [constructor|].
        rewrite <- (closing_is_rp _ Hnc). exact Ht. }
    apply bind_inv in H as (params & h0 & Hg & H).
    apply bind_inv in H as ([child c1] & h1 & Hw & H).
    apply bind_inv in H as ([] & h2 & Hpush & H).
    destruct (IHw _ _ _ _ _ _ Hw)
      as [(-> & tok & Ht2 & Hno)|(toks1 & t1 & Hd1 & -> & Ht1)].
    { exfalso. rewrite Ht in Ht2. inversion Ht2; subst tok.
      exact (params_loop_stuck _ _ _ Ht Hno Hnc _ _ _ _ H). }
    destruct (IHp _ _ _ _ _ _ H) as (toks2 & ts & Hd2 & -> & Hts & Hclose).
    exists (toks1 ++ toks2), (t1 :: ts).
    split; [rewrite Hd1, Hd2, app_assoc; reflexivity|].
    split; [rewrite length_app; lia|]. split; [constructor; assumption|exact Hclose].
Qed.

Lemma parser_loop_reads fuel :
  forall tokens current ast h r,
    parser_loop fuel tokens current ast h = Return r ->
    exists ts, spelled_all (drop current tokens) ts.
Proof.
  induction fuel as [|fuel IH]; intros tokens current ast h r H; [discriminate|].
  cbn [parser_loop] in H. case_bool_decide as Hcur.
  2:{ exists []. rewrite drop_ge by lia. constructor. }
  apply bind_inv in H as (body & h0 & Hg & H).
  apply bind_inv in H as ([child c1] & h1 & Hw & H).
  apply bind_inv in H as ([] & h2 & Hpush & H).
  destruct (proj1 (walk_reads fuel) _ _ _ _ _ _ Hw)
    as [(-> & tok & Ht2 & Hno)|(toks1 & t1 & Hd1 & -> & Ht1)].
  { exfalso. exact (parser_loop_never_returns _ _ _ Ht2 Hno _ _ _ _ H). }
  destruct (IH _ _ _ _ _ H) as (ts & Hts).
  exists (t1 :: ts). rewrite Hd1. constructor; assumption.
Qed.

Lemma parser_reads fuel tokens h0 r :
  parser fuel tokens h0 = Return r -> exists body, spelled_all tokens body.
Proof.
  unfold parser. intros H.
  apply bind_inv in H as (body & h1 & Hn & H).
  apply bind_inv in H as (ast & h2 & Hn2 & H).
  apply bind_inv in H as ([] & h3 & Hloop & H).
  apply parser_loop_reads in Hloop. exact Hloop.
Qed.

Lemma parser_sound fuel tokens h0 v h :
  parser fuel tokens h0 = Return (v, h) ->
  exists a body,
    v = VRef (S (length h0))
    /\ repr h (SProgram (S (length h0)) a body)
    /\ spelled_all tokens body
    /\ (forall l, l < length h0 -> h !! l = h0 !! l).
Proof.
  intros H. destruct (parser_reads _ _ _ _ H) as (body & Hsp).
  destruct (parser_complete tokens body h0 (S (length tokens) + fuel) Hsp ltac:(lia))
    as (a & body' & h' & Hrun & Hrepr & _ & Hsp' & Hframe).
  apply (monotone_le _ _ (S (length tokens) + fuel) _ _ (parser_monotone _)) in H;
    [|discriminate|lia].
  rewrite Hrun in H. inversion H; subst v h'. eauto 6.
Qed.

(** X9.  What the parser returns: whenever it returns, the result is a new
    Program object, the objects that were in the heap are as they were, and
    the token list is made of expressions that spell, in order, the trees of
    the body.  The parser returns on no other token list. *)
Theorem parser_returns_what_the_tokens_spell
    (fuel : nat) (tokens : list token) (h0 : heap) (v : val) (h : heap) :
  parser fuel tokens h0 = Return (v, h) ->
  exists a body,
    v = VRef (S (length h0))
    /\ repr h (SProgram (S (length h0)) a body)
    /\ spelled_all tokens body
    /\ (forall l, l < length h0 -> h !! l = h0 !! l).
Proof. apply parser_sound. Qed.

Lemma parser_returns_what_the_tokens_spell_witness :
  exists a body,
    VRef 1 = VRef (S (length (@nil object)))
    /\ repr example_call_heap (SProgram (S (length (@nil object))) a body)
    /\ spelled_all [Token (js "paren") (js "("); Token (js "name") (js "add");
                    Token (js "number") (js "2"); Token (js "paren") (js ")")] body
    /\ (forall l, l < length (@nil object) -> example_call_heap !! l = (@nil object) !! l).
Proof.
  apply (parser_returns_what_the_tokens_spell 4 _ [] (VRef 1) example_call_heap).
  exact example_call_parsed.
Defined.

(** ** Parser: its errors *)

Lemma bind_throw_inv {A B} (m : M A) (k : A -> M B) h e :
  bind m k h = Throw e ->
  m h = Throw e \/ exists a h1, m h = Return (a, h1) /\ k a h1 = Throw e.
Proof.
  unfold bind. destruct (m h) as [[a h1]| |]; [eauto|intros [= ->]; auto|discriminate].
Qed.

Lemma walk_throws fuel :
  (forall tokens current h e,
      walk fuel tokens current h = Throw e -> past_the_end e)
  /\ (forall tokens current node a pa es h e,
      params_loop fuel tokens current (VRef node) h = Throw e ->
      field h node "params" = Some (VRef a) ->
      h !! a = Some (Obj pa (Some es)) ->
      past_the_end e).
Proof.
  induction fuel as [|fuel [IHw IHp]]; [split; intros; discriminate|]. split.
  - intros tokens current h e H. cbn [walk] in H.
    destruct (tokens !! current) as [token|] eqn:Ht;
      [|inversion H; left; reflexivity].
    destruct (bool_decide (type token = js "number")); [discriminate|].
    destruct (bool_decide (type token = js "string")); [discriminate|].
    destruct (_ && _); [|discriminate].
    destruct (tokens !! S current) as [nm|] eqn:Ht';
      [|inversion H; right; reflexivity].
    unfold new_array, new_object in H. unfold bind at 1 2 in H.
    apply bind_throw_inv in H as [H|(c2 & h3 & _ & H)]; [|discriminate].
    eapply (IHp _ _ _ (length h) ∅ [] _ _ H).
    + apply field_last.
    + apply lookup_app_l_Some, list_lookup_middle. reflexivity.
  - intros tokens current node a pa es h e H Hk Ea.
    cbn [params_loop] in H.
    destruct (tokens !! current) as [token|] eqn:Ht;
      [|inversion H; left; reflexivity].
    destruct (_ || _); [|discriminate].
    rewrite (bind_Return _ _ _ _ _ (get_field _ _ _ _ Hk)) in H.
    apply bind_throw_inv in H as [H|([child c1] & h1 & Hw & H)];
      [exact (IHw _ _ _ _ H)|].
    pose proof (lookup_lt_Some _ _ _ Ea) as Halt.
    assert (Hframe : forall l, l < length h -> h1 !! l = h !! l).
    { destruct (proj1 (parse_spec fuel) _ _ _ _ _ _ Hw)
        as [(_ & _ & -> & _)|(t & _ & P)]; [reflexivity|].
      apply P. }
    assert (Ea1 : h1 !! a = Some (Obj pa (Some es)))
      by (rewrite Hframe by exact Halt; exact Ea).
    rewrite (bind_Return _ _ _ _ _ (push_ref _ _ _ _ _ Ea1)) in H.
    eapply (IHp _ _ _ a pa _ _ _ H).
    + pose proof (field_lt _ _ _ _ Hk) as Hnlt.
      unfold field. destruct (decide (node = a)) as [->|Hne].
      * rewrite list_lookup_insert_eq by (rewrite <- (Hframe a) in Ea by lia; eapply lookup_lt_Some; eauto).
        cbn. unfold field in Hk. rewrite Ea in Hk. exact Hk.
      * rewrite list_lookup_insert_ne by congruence.
        rewrite Hframe by exact Hnlt. exact Hk.
    + apply list_lookup_insert_eq. eapply lookup_lt_Some; eauto.
Qed.

Lemma parser_loop_throws fuel :
  forall tokens current ast a pa es h e,
    parser_loop fuel tokens current (VRef ast) h = Throw e ->
    field h ast "body" = Some (VRef a) ->
    h !! a = Some (Obj pa (Some es)) ->
    past_the_end e.
Proof.
  induction fuel as [|fuel IH]; intros tokens current ast a pa es h e H Hk Ea;
    [discriminate|].
  cbn [parser_loop] in H. case_bool_decide as Hcur; [|discriminate].
  rewrite (bind_Return _ _ _ _ _ (get_field _ _ _ _ Hk)) in H.
  apply bind_throw_inv in H as [H|([child c1] & h1 & Hw & H)];
    [exact (proj1 (walk_throws fuel) _ _ _ _ H)|].
  pose proof (lookup_lt_Some _ _ _ Ea) as Halt.
  assert (Hframe : forall l, l < length h -> h1 !! l = h !! l).
  { destruct (proj1 (parse_spec fuel) _ _ _ _ _ _ Hw)
      as [(_ & _ & -> & _)|(t & _ & P)]; [reflexivity|].
    apply P. }
  assert (Ea1 : h1 !! a = Some (Obj pa (Some es)))
    by (rewrite Hframe by exact Halt; exact Ea).
  rewrite (bind_Return _ _ _ _ _ (push_ref _ _ _ _ _ Ea1)) in H.
  eapply (IH _ _ _ a pa _ _ _ H).
  + pose proof (field_lt _ _ _ _ Hk) as Hnlt.
    unfold field. destruct (decide (ast = a)) as [->|Hne].
    * rewrite list_lookup_insert_eq by (eapply lookup_lt_Some; eauto).
      cbn. unfold field in Hk. rewrite Ea in Hk. exact Hk.
    * rewrite list_lookup_insert_ne by congruence.
      rewrite Hframe by exact Hnlt. exact Hk.
  + apply list_lookup_insert_eq. eapply lookup_lt_Some; eauto.
Qed.

Lemma parser_throws fuel tokens h0 e :
  parser fuel tokens h0 = Throw e -> past_the_end e.
Proof.
  unfold parser, new_array, new_object. unfold bind at 1 2. intros H.
  apply bind_throw_inv in H as [H|(c2 & h3 & _ & H)]; [|discriminate].
  eapply (parser_loop_throws _ _ _ _ (length h0) ∅ [] _ _ H).
  - apply field_last.
  - apply lookup_app_l_Some, list_lookup_middle. reflexivity.
Qed.

(** X10.  The only errors of the parser are the TypeErrors that the engine
    raises when [token.type] or [token.value] is read past the end of the
    token list (the parser has no [throw] of its own), and it fails only on
    token lists that are not made of expressions. *)
Theorem parser_errors (fuel : nat) (tokens : list token) (h0 : heap) (e : error) :
  parser fuel tokens h0 = Throw e ->
  (e = EngineTypeError "type" \/ e = EngineTypeError "value")
  /\ forall body, ~ spelled_all tokens body.
Proof.
  intros H. split; [exact (parser_throws _ _ _ _ H)|].
  intros body Hsp.
  destruct (parser_complete tokens body h0 (S (length tokens) + fuel) Hsp ltac:(lia))
    as (a & body' & h' & Hrun & _).
  apply (monotone_le _ _ (S (length tokens) + fuel) _ _ (parser_monotone _)) in H;
    [|discriminate|lia].
  rewrite Hrun in H. discriminate.
Qed.

Lemma parser_errors_witness :
  (EngineTypeError "type" = EngineTypeError "type"
   \/ EngineTypeError "type" = EngineTypeError "value")
  /\ forall body,
       ~ spelled_all [Token (js "paren") (js "("); Token (js "name") (js "add");
                      Token (js "number") (js "2")] body.
Proof.
  apply (parser_errors 4 _ [] (EngineTypeError "type")).
  vm_compute. reflexivity.
Defined.

(** ** Parser: the token lists it does not accept *)

Lemma bind_failure {A B} (m : M A) (k : A -> M B) h r :
  m h = failure r -> bind m k h = failure r.
Proof. unfold bind. intros ->. destruct r; reflexivity. Qed.

Lemma field_push h node k a pa es x v :
  field h node k = Some v -> h !! a = Some (Obj pa (Some es)) ->
  field (<[a := Obj pa (Some (es ++ [x]))]> h) node k = Some v.
Proof.
  intros Hk Ea. pose proof (lookup_lt_Some _ _ _ Ea) as Halt.
  unfold field in *. destruct (decide (node = a)) as [->|Hne].
  - rewrite list_lookup_insert_eq by exact Halt. rewrite Ea in Hk. exact Hk.
  - rewrite list_lookup_insert_ne by congruence. exact Hk.
Qed.

(** In a call, a token that [walk] has no branch for and that is not the
    closing paren: the loop pushes [undefined] for ever. *)
Lemma params_loop_stalls fuel tokens current tok node a pa es h :
  tokens !! current = Some tok -> no_branch tok -> not_closing tok = true ->
  field h node "params" = Some (VRef a) -> h !! a = Some (Obj pa (Some es)) ->
  params_loop fuel tokens current (VRef node) h = OutOfFuel.
Proof.
  intros Ht Hno Hnc. revert es h.
  induction fuel as [|fuel IH]; intros es h Hk Ea; [reflexivity|].
  cbn [params_loop]. rewrite Ht. fold (not_closing tok). rewrite Hnc.
  rewrite (bind_Return _ _ _ _ _ (get_field _ _ _ _ Hk)).
  destruct fuel as [|fuel]; [reflexivity|].
  rewrite (bind_Return _ _ _ _ _ (walk_no_branch _ _ _ _ _ Ht Hno)).
  rewrite (bind_Return _ _ _ _ _ (push_ref _ _ _ _ _ Ea)).
  apply (IH (es ++ [VUndefined])).
  - eapply field_push; eauto.
  - apply list_lookup_insert_eq. eapply lookup_lt_Some; eauto.
Qed.

(** Either loop of the parser over complete expressions: one turn and one
    unit of fuel for each. *)
Lemma loop_skip {B} (loop : nat -> nat -> M B) (k : string) tokens node :
  (forall f c tok h, tokens !! c = Some tok -> not_closing tok = true ->
     loop (S f) c h
     = (let* body := get (VRef node) k in
        let* (child, current) := walk f tokens c in
        let* _ := push body child in
        loop f current) h) ->
  forall ps ptoks, spelled_all ptoks ps ->
  forall pre post a pa es h fuel,
    tokens = pre ++ ptoks ++ post -> length ptoks < fuel ->
    field h node k = Some (VRef a) -> h !! a = Some (Obj pa (Some es)) ->
    exists es' h2,
      loop fuel (length pre) h
      = loop (fuel - length ps) (length pre + length ptoks) h2
      /\ field h2 node k = Some (VRef a)
      /\ h2 !! a = Some (Obj pa (Some es')).
Proof.
  intros Hstep. induction ps as [|p ps IHl]; intros ptoks Hsp pre post a pa es
    h fuel Htok Hfuel Hk Ea; inversion Hsp; subst.
  - exists es, h. cbn [length]. rewrite Nat.add_0_r, Nat.sub_0_r. auto.
  - match goal with H : spelled _ p |- _ => rename H into Hp end.
    match goal with H : spelled_all _ ps |- _ => rename H into Hps end.
    destruct (spelled_head _ _ Hp) as (tok & trest & -> & Hnc).
    destruct fuel as [|fuel]; [lia|].
    rewrite length_app in Hfuel. cbn [length] in Hfuel.
    rewrite (Hstep fuel (length pre) tok);
      [|rewrite <- !app_assoc; apply lookup_middle_head|exact Hnc].
    destruct (parser_turn (loop fuel) k p (tok :: trest)
                (pre ++ ((tok :: trest) ++ rest) ++ post)
                pre (rest ++ post) node a pa es h fuel (every_tree_parses p) Hp)
      as (t' & h2 & Hrun & _ & _ & _ & _ & _ & _ & Ea2 & Hk2);
      [rewrite <- !app_assoc; reflexivity|cbn [length]; lia|exact Hk|exact Ea|].
    rewrite Hrun.
    destruct (IHl rest Hps (pre ++ tok :: trest) post a pa
                (es ++ [VRef (root t')]) h2 fuel)
      as (es' & h3 & Hrun' & Hk3 & Ea3);
      [rewrite <- !app_assoc; reflexivity|lia|exact Hk2|exact Ea2|].
    rewrite length_app in Hrun'. rewrite Hrun'.
    exists es', h3. split; [|auto].
    cbn [length]. rewrite length_app. cbn [length Nat.sub]. f_equal. lia.
Qed.

Lemma params_loop_turn tokens node f c tok h :
  tokens !! c = Some tok -> not_closing tok = true ->
  params_loop (S f) tokens c (VRef node) h
  = (let* body := get (VRef node) "params" in
     let* (child, current) := walk f tokens c in
     let* _ := push body child in
     params_loop f tokens current (VRef node)) h.
Proof.
  intros Ht Hnc. cbn [params_loop]. rewrite Ht.
  fold (not_closing tok). rewrite Hnc. reflexivity.
Qed.

Lemma parser_loop_turn tokens ast f c tok h :
  tokens !! c = Some tok -> not_closing tok = true ->
  parser_loop (S f) tokens c (VRef ast) h
  = (let* body := get (VRef ast) "body" in
     let* (child, current) := walk f tokens c in
     let* _ := push body child in
     parser_loop f tokens current (VRef ast)) h.
Proof.
  intros Ht _. cbn [parser_loop].
  rewrite bool_decide_eq_true_2 by (eapply lookup_lt_Some; eauto). reflexivity.
Qed.

(** A call whose parameters are followed by [rest], where the loop of the
    call branch fails on [rest]. *)
Lemma walk_call_fails nm ptoks ps rest r :
  spelled_all ptoks ps ->
  (forall tokens pre node a pa es h fuel,
     tokens = pre ++ rest -> length rest < fuel ->
     field h node "params" = Some (VRef a) -> h !! a = Some (Obj pa (Some es)) ->
     params_loop fuel tokens (length pre) (VRef node) h = failure r) ->
  forall tokens pre h fuel,
    tokens = pre ++ lp :: nm :: ptoks ++ rest ->
    length (lp :: nm :: ptoks ++ rest) <= fuel ->
    walk fuel tokens (length pre) h = failure r.
Proof.
  intros Hps Hrest tokens pre h fuel -> Hfuel.
  cbn [length] in Hfuel. rewrite length_app in Hfuel.
  destruct fuel as [|fuel]; [lia|].
  cbn [walk]. rewrite lookup_middle_head.
  change (bool_decide (type lp = js "number")) with false.
  change (bool_decide (type lp = js "string")) with false.
  change (bool_decide (type lp = js "paren") && bool_decide (value lp = js "("))
    with true. cbv iota.
  replace (S (length pre)) with (length (pre ++ [lp]))
    by (rewrite length_app; cbn; lia).
  replace (pre ++ lp :: nm :: ptoks ++ rest)
    with ((pre ++ [lp]) ++ nm :: ptoks ++ rest)
    by (rewrite <- app_assoc; reflexivity).
  rewrite lookup_middle_head.
  set (tokens := (pre ++ [lp]) ++ nm :: ptoks ++ rest).
  unfold new_array, new_object. unfold bind at 1 2.
  apply bind_failure.
  set (h2 := (h ++ _) ++ _).
  assert (Ha2 : h2 !! length h = Some (Obj ∅ (Some [])))
    by (apply lookup_app_l_Some, list_lookup_middle; reflexivity).
  assert (Hk2 : field h2 (length (h ++ [Obj ∅ (Some [])])) "params"
                = Some (VRef (length h))) by apply field_last.
  destruct (loop_skip (fun f c => params_loop f tokens c
                                    (VRef (length (h ++ [Obj ∅ (Some [])]))))
              "params" tokens _
              (fun f c tok h => params_loop_turn tokens _ f c tok h)
              ps ptoks Hps ((pre ++ [lp]) ++ [nm]) rest (length h) ∅ [] h2 fuel)
    as (es' & h3 & Hrun & Hk3 & Ea3);
    [unfold tokens; rewrite <- !app_assoc; reflexivity|lia|exact Hk2|exact Ha2|].
  replace (S (length (pre ++ [lp]))) with (length ((pre ++ [lp]) ++ [nm]))
    by (rewrite !length_app; cbn; lia).
  rewrite Hrun.
  pose proof (spelled_all_length _ _ Hps) as Hlen.
  rewrite <- length_app.
  apply (Hrest tokens (((pre ++ [lp]) ++ [nm]) ++ ptoks) _ (length h) ∅ es' h3);
    [unfold tokens; rewrite <- !app_assoc; reflexivity|lia|exact Hk3|exact Ea3].
Qed.

Lemma params_loop_broken top rest r :
  broken top rest r -> top = false ->
  forall tokens pre node a pa es h fuel,
    tokens = pre ++ rest -> length rest < fuel ->
    field h node "params" = Some (VRef a) -> h !! a = Some (Obj pa (Some es)) ->
    params_loop fuel tokens (length pre) (VRef node) h = failure r.
Proof.
  induction 1 as [top tok rest Hno Hnc| |top|top nm ptoks ps rest r Hps Hb IH];
    intros Htop tokens pre node a pa es h fuel -> Hfuel Hk Ea.
  - eapply params_loop_stalls; eauto. apply lookup_middle_head.
  - destruct fuel as [|fuel]; [lia|]. cbn [params_loop].
    rewrite app_nil_r, (proj2 (lookup_ge_None _ _)) by lia. reflexivity.
  - destruct fuel as [|[|fuel]]; [cbn in Hfuel; lia..|].
    rewrite (params_loop_turn _ _ _ _ lp); [|apply lookup_middle_head|reflexivity].
    rewrite (bind_Return _ _ _ _ _ (get_field _ _ _ _ Hk)).
    apply bind_failure. cbn [walk]. rewrite lookup_middle_head.
    change (bool_decide (type lp = js "number")) with false.
    change (bool_decide (type lp = js "string")) with false.
    change (bool_decide (type lp = js "paren") && bool_decide (value lp = js "("))
      with true. cbv iota.
    rewrite (proj2 (lookup_ge_None _ _)) by (rewrite length_app; cbn; lia).
    reflexivity.
  - destruct fuel as [|fuel]; [lia|].
    rewrite (params_loop_turn _ _ _ _ lp); [|apply lookup_middle_head|reflexivity].
    rewrite (bind_Return _ _ _ _ _ (get_field _ _ _ _ Hk)).
    apply bind_failure.
    apply (walk_call_fails nm ptoks ps rest r Hps (IH eq_refl)); [reflexivity|lia].
Qed.

Lemma parser_loop_broken rest r :
  broken true rest r ->
  forall tokens pre ast a pa es h fuel,
    tokens = pre ++ rest -> length rest < fuel ->
    field h ast "body" = Some (VRef a) -> h !! a = Some (Obj pa (Some es)) ->
    parser_loop fuel tokens (length pre) (VRef ast) h = failure r.
Proof.
  intros Hb tokens pre ast a pa es h fuel -> Hfuel Hk Ea.
  inversion Hb as [top tok rest' Hno Hnc| |top|top nm ptoks ps rest' r' Hps Hb'];
    subst.
  - unfold field in Hk. destruct (h !! ast) as [o|] eqn:Eo; [|discriminate].
    eapply parser_loop_stuck; eauto. apply lookup_middle_head.
  - destruct fuel as [|[|fuel]]; [cbn in Hfuel; lia..|].
    rewrite (parser_loop_turn _ _ _ _ lp); [|apply lookup_middle_head|reflexivity].
    rewrite (bind_Return _ _ _ _ _ (get_field _ _ _ _ Hk)).
    apply bind_failure. cbn [walk]. rewrite lookup_middle_head.
    change (bool_decide (type lp = js "number")) with false.
    change (bool_decide (type lp = js "string")) with false.
    change (bool_decide (type lp = js "paren") && bool_decide (value lp = js "("))
      with true. cbv iota.
    rewrite (proj2 (lookup_ge_None _ _)) by (rewrite length_app; cbn; lia).
    reflexivity.
  - destruct fuel as [|fuel]; [lia|].
    rewrite (parser_loop_turn _ _ _ _ lp); [|apply lookup_middle_head|reflexivity].
    rewrite (bind_Return _ _ _ _ _ (get_field _ _ _ _ Hk)).
    apply bind_failure.
    apply (walk_call_fails nm ptoks ps rest' r Hps
             (params_loop_broken false rest' r Hb' eq_refl)); [reflexivity|lia].
Qed.

Lemma parser_broken toks body rest r h0 fuel :
  spelled_all toks body -> broken true rest r ->
  length (toks ++ rest) < fuel ->
  parser fuel (toks ++ rest) h0 = failure r.
Proof.
  intros Hsp Hb Hfuel. unfold parser, new_array, new_object. unfold bind at 1 2.
  apply bind_failure.
  set (h2 := (h0 ++ _) ++ _).
  assert (Ha2 : h2 !! length h0 = Some (Obj ∅ (Some [])))
    by (apply lookup_app_l_Some, list_lookup_middle; reflexivity).
  assert (Hk2 : field h2 (length (h0 ++ [Obj ∅ (Some [])])) "body"
                = Some (VRef (length h0))) by apply field_last.
  rewrite length_app in Hfuel.
  destruct (loop_skip (fun f c => parser_loop f (toks ++ rest) c
                                    (VRef (length (h0 ++ [Obj ∅ (Some [])]))))
              "body" (toks ++ rest) _
              (fun f c tok h => parser_loop_turn (toks ++ rest) _ f c tok h)
              body toks Hsp [] rest (length h0) ∅ [] h2 fuel)
    as (es' & h3 & Hrun & Hk3 & Ea3);
    [reflexivity|lia|exact Hk2|exact Ha2|].
  cbn [length Nat.add] in Hrun. rewrite Hrun.
  pose proof (spelled_all_length _ _ Hsp) as Hlen.
  apply (parser_loop_broken rest r Hb (toks ++ rest) toks _ (length h0) ∅ es' h3);
    [reflexivity|lia|exact Hk3|exact Ea3].
Qed.

(** X11.  Tokens that are cut off: when complete expressions are followed
    by calls that are open, one in the other, and the list ends behind the
    parameters of the innermost, the parser fails with the engine's
    TypeError for reading [type] of [undefined]; when the list ends just
    behind an opening paren, with the one for reading [value]. *)
Theorem parser_on_cut_off_tokens
    (toks rest : list token) (body : list stree) (e : error) (h0 : heap)
    (fuel : nat) :
  spelled_all toks body -> broken true rest (Some e) ->
  length (toks ++ rest) < fuel ->
  parser fuel (toks ++ rest) h0 = Throw e.
Proof.
  intros Hsp Hb Hfuel.
  exact (parser_broken toks body rest (Some e) h0 fuel Hsp Hb Hfuel).
Qed.

Lemma parser_on_cut_off_tokens_witness :
  parser 7 ([Token (js "number") (js "1")]
            ++ [lp; Token (js "name") (js "add"); Token (js "number") (js "2");
                lp; Token (js "name") (js "sub")]) []
  = Throw (EngineTypeError "type").
Proof.
  apply (parser_on_cut_off_tokens [Token (js "number") (js "1")] _
           [SNumberLiteral 0 (js "1")]).
  - apply (tokens_of_spelled_all [SNumberLiteral 0 (js "1")]). repeat constructor.
  - apply (broken_call true (Token (js "name") (js "add"))
             [Token (js "number") (js "2")] [SNumberLiteral 0 (js "2")]
             [lp; Token (js "name") (js "sub")]).
    + apply (tokens_of_spelled_all [SNumberLiteral 0 (js "2")]). repeat constructor.
    + apply (broken_call false (Token (js "name") (js "sub")) [] [] []);
        constructor.
  - cbn. lia.
Defined.

(** X12.  Tokens on which the parser never finishes: behind complete
    expressions, a token that [walk] has no branch for, that is a name
    token or a closing paren at the top level, or a name token in the place
    of a parameter of a call (at any depth).  [walk] returns [undefined]
    without moving, and the loop around it goes on for ever. *)
Theorem parser_never_finishes
    (toks rest : list token) (body : list stree) (h0 : heap) (fuel : nat) :
  spelled_all toks body -> broken true rest None ->
  parser fuel (toks ++ rest) h0 = OutOfFuel.
Proof.
  intros Hsp Hb.
  pose proof (parser_broken toks body rest None h0
                (S (length (toks ++ rest)) + fuel) Hsp Hb ltac:(lia)) as Hbig.
  destruct (parser fuel (toks ++ rest) h0) as [r|e|] eqn:E; [| |reflexivity];
    exfalso;
    apply (monotone_le _ _ (S (length (toks ++ rest)) + fuel) _ _
             (parser_monotone _)) in E; try discriminate; try lia;
    rewrite Hbig in E; discriminate.
Qed.

Lemma parser_never_finishes_witness :
  parser 1000 ([Token (js "number") (js "1")]
               ++ [lp; Token (js "name") (js "add"); Token (js "name") (js "x");
                   Token (js "number") (js "2"); rp]) []
  = OutOfFuel.
Proof.
  apply (parser_never_finishes [Token (js "number") (js "1")] _
           [SNumberLiteral 0 (js "1")]).
  - apply (tokens_of_spelled_all [SNumberLiteral 0 (js "1")]). repeat constructor.
  - apply (broken_call true (Token (js "name") (js "add")) [] []
             [Token (js "name") (js "x"); Token (js "number") (js "2"); rp]);
      [constructor|].
    apply broken_stall; [|reflexivity].
    repeat split; try discriminate. intros [E _]. discriminate E.
Defined.

(** ** Parser: every token list is accepted, cut off or stalling *)

Lemma token_cases tok :
  type tok = js "number" \/ type tok = js "string" \/ tok = lp \/ tok = rp
  \/ (no_branch tok /\ not_closing tok = true).
Proof.
  destruct (decide (type tok = js "number")) as [|Hn]; [auto|].
  destruct (decide (type tok = js "string")) as [|Hs]; [auto|].
  destruct (decide (type tok = js "paren")) as [Hp|Hp].
  - destruct (decide (value tok = js "(")) as [Hv|Hv].
    { right; right; left. destruct tok; cbn in *; subst; reflexivity. }
    destruct (decide (value tok = js ")")) as [Hc|Hc].
    { right; right; right; left. destruct tok; cbn in *; subst; reflexivity. }
    right; right; right; right. split; [repeat split; tauto|].
    unfold not_closing. rewrite (bool_decide_eq_true_2 _ Hp).
    rewrite (bool_decide_eq_true_2 (value tok ≠ js ")") Hc). apply orb_true_r.
  - right; right; right; right. split; [repeat split; tauto|].
    unfold not_closing. rewrite (bool_decide_eq_true_2 _ Hp). reflexivity.
Qed.

Lemma spelled_all_one tok t rest ts :
  spelled [tok] t -> spelled_all rest ts -> spelled_all (tok :: rest) (t :: ts).
Proof. intros H1 H2. exact (spelled_cons [tok] t rest ts H1 H2). Qed.

Lemma params_split n :
  forall tokens, length tokens <= n ->
    (exists ptoks ps post, tokens = ptoks ++ rp :: post /\ spelled_all ptoks ps)
    \/ (exists ptoks ps rest r,
          tokens = ptoks ++ rest /\ spelled_all ptoks ps /\ broken false rest r).
Proof.
  induction n as [|n IH]; intros [|tok rest] Hlen; cbn [length] in Hlen; try lia;
    try (right; exists [], [], [], (Some (EngineTypeError "type"));
         split; [reflexivity|split; constructor]).
  assert (Hlit : forall t, spelled [tok] t ->
    (exists ptoks ps post, tok :: rest = ptoks ++ rp :: post /\ spelled_all ptoks ps)
    \/ (exists ptoks ps rest' r,
          tok :: rest = ptoks ++ rest' /\ spelled_all ptoks ps
          /\ broken false rest' r)).
  { intros t Ht.
    destruct (IH rest ltac:(lia)) as [(ptoks & ps & post & -> & Hps)
                                     |(ptoks & ps & rest' & r & -> & Hps & Hb)].
    - left. exists (tok :: ptoks), (t :: ps), post.
      split; [reflexivity|apply spelled_all_one; assumption].
    - right. exists (tok :: ptoks), (t :: ps), rest', r.
      split; [reflexivity|]. split; [apply spelled_all_one; assumption|exact Hb]. }
  destruct (token_cases tok) as [Hty|[Hty|[->|[->|[Hno Hnc]]]]].
  - apply (Hlit (SNumberLiteral 0 (value tok))). constructor. exact Hty.
  - apply (Hlit (SStringLiteral 0 (value tok))). constructor. exact Hty.
  - destruct rest as [|nm rest2].
    { right. exists [], [], [lp], (Some (EngineTypeError "value")).
      split; [reflexivity|split; constructor]. }
    cbn [length] in Hlen.
    destruct (IH rest2 ltac:(lia)) as [(ptoks & ps & post & -> & Hps)
                                      |(ptoks & ps & rest' & r & -> & Hps & Hb)].
    + rewrite length_app in Hlen. cbn [length] in Hlen.
      pose proof (spelled_call nm ptoks 0 0 ps Hps) as Hcall.
      destruct (IH post ltac:(lia)) as [(ptoks' & ps' & post' & -> & Hps')
                                       |(ptoks' & ps' & rest' & r & -> & Hps' & Hb)].
      * left. exists ((lp :: nm :: ptoks ++ [rp]) ++ ptoks'),
          (SCallExpression 0 (value nm) 0 ps :: ps'), post'.
        split; [cbn [app]; rewrite <- !app_assoc; reflexivity|].
        constructor; assumption.
      * right. exists ((lp :: nm :: ptoks ++ [rp]) ++ ptoks'),
          (SCallExpression 0 (value nm) 0 ps :: ps'), rest', r.
        split; [cbn [app]; rewrite <- !app_assoc; reflexivity|].
        split; [constructor; assumption|exact Hb].
    + right. exists [], [], (lp :: nm :: ptoks ++ rest'), r.
      split; [reflexivity|]. split; [constructor|].
      econstructor; eauto.
  - left. exists [], [], rest. split; [reflexivity|constructor].
  - right. exists [], [], (tok :: rest), None.
    split; [reflexivity|]. split; [constructor|]. constructor; auto.
Qed.

Lemma tokens_split n :
  forall tokens, length tokens <= n ->
    (exists body, spelled_all tokens body)
    \/ (exists toks body rest r,
          tokens = toks ++ rest /\ spelled_all toks body /\ broken true rest r).
Proof.
  induction n as [|n IH]; intros [|tok rest] Hlen; cbn [length] in Hlen; try lia;
    try (left; exists []; constructor).
  assert (Hlit : forall toks t rest', length rest' <= n -> spelled toks t ->
    (exists body, spelled_all (toks ++ rest') body)
    \/ (exists toks' body rest'' r,
          toks ++ rest' = toks' ++ rest'' /\ spelled_all toks' body
          /\ broken true rest'' r)).
  { intros toks t rest' Hl Ht.
    destruct (IH rest' Hl) as [(body & Hb)|(toks' & body & rest'' & r & -> & Hps & Hb)].
    - left. exists (t :: body). constructor; assumption.
    - right. exists (toks ++ toks'), (t :: body), rest'', r.
      split; [rewrite app_assoc; reflexivity|].
      split; [constructor; assumption|exact Hb]. }
  destruct (token_cases tok) as [Hty|[Hty|[->|[->|[Hno Hnc]]]]].
  - apply (Hlit [tok] (SNumberLiteral 0 (value tok)) rest); [lia|].
    constructor. exact Hty.
  - apply (Hlit [tok] (SStringLiteral 0 (value tok)) rest); [lia|].
    constructor. exact Hty.
  - destruct rest as [|nm rest2].
    { right. exists [], [], [lp], (Some (EngineTypeError "value")).
      split; [reflexivity|split; constructor]. }
    cbn [length] in Hlen.
    destruct (params_split n rest2 ltac:(lia))
      as [(ptoks & ps & post & -> & Hps)|(ptoks & ps & rest' & r & -> & Hps & Hb)].
    + rewrite length_app in Hlen. cbn [length] in Hlen.
      pose proof (spelled_call nm ptoks 0 0 ps Hps) as Hcall.
      replace (lp :: nm :: ptoks ++ rp :: post)
        with ((lp :: nm :: ptoks ++ [rp]) ++ post)
        by (cbn [app]; rewrite <- app_assoc; reflexivity).
      apply (Hlit _ _ post ltac:(lia) Hcall).
    + right. exists [], [], (lp :: nm :: ptoks ++ rest'), r.
      split; [reflexivity|]. split; [constructor|].
      econstructor; eauto.
  - right. exists [], [], (rp :: rest), None.
    split; [reflexivity|]. split; [constructor|].
    constructor; [|discriminate].
    repeat split; try discriminate. intros [_ E]. discriminate E.
  - right. exists [], [], (tok :: rest), None.
    split; [reflexivity|]. split; [constructor|]. constructor; auto.
Qed.

(** X13.  The three outcomes of the parser.  On every token list, either
    the parser returns, with any fuel above the number of tokens; or it
    fails with one of the two TypeErrors of the engine, with any such fuel;
    or it never finishes, whatever the fuel. *)
Theorem parser_outcomes (tokens : list token) (h0 : heap) :
  (exists v h, forall fuel, length tokens < fuel ->
                            parser fuel tokens h0 = Return (v, h))
  \/ (exists e, (e = EngineTypeError "type" \/ e = EngineTypeError "value")
                /\ forall fuel, length tokens < fuel ->
                                parser fuel tokens h0 = Throw e)
  \/ (forall fuel, parser fuel tokens h0 = OutOfFuel).
Proof.
  destruct (tokens_split (length tokens) tokens ltac:(lia))
    as [(body & Hsp)|(toks & body & rest & [e|] & -> & Hsp & Hb)].
  - left.
    destruct (parser_complete tokens body h0 (S (length tokens)) Hsp ltac:(lia))
      as (a & body' & h & Hrun & _).
    exists (VRef (S (length h0))), h. intros fuel Hfuel.
    apply (monotone_le _ _ fuel _ _ (parser_monotone _)) in Hrun;
      [exact Hrun|discriminate|lia].
  - right; left. exists e.
    pose proof (parser_broken toks body rest (Some e) h0 _ Hsp Hb (Nat.lt_succ_diag_r _))
      as Hrun.
    split; [exact (parser_throws _ _ _ _ Hrun)|].
    intros fuel Hfuel. exact (parser_broken toks body rest (Some e) h0 fuel Hsp Hb Hfuel).
  - right; right. intros fuel.
    pose proof (parser_broken toks body rest None h0
                  (S (length (toks ++ rest)) + fuel) Hsp Hb ltac:(lia)) as Hbig.
    destruct (parser fuel (toks ++ rest) h0) as [r|e|] eqn:E; [| |reflexivity];
      exfalso;
      apply (monotone_le _ _ (S (length (toks ++ rest)) + fuel) _ _
               (parser_monotone _)) in E; try discriminate; try lia;
      rewrite Hbig in E; discriminate.
Qed.

(** ** Traverser: a visitor with no method *)

Lemma run_events_no_methods es h :
  run_events (fun _ => None) es h = Return (tt, h).
Proof.
  induction es as [|e es IH]; [reflexivity|].
  cbn [run_events]. unfold bind. destruct e; cbn; exact IH.
Qed.

(** X14.  The traverser by itself only reads: with a visitor that has no
    method, on any AST of the four node types held in the heap, it returns
    and the heap is as it was. *)
Theorem traverser_without_methods (t : stree) (fuel : nat) (h : heap) :
  repr h t -> height t < fuel ->
  traverser fuel (VRef (root t)) (fun _ => None) h = Return (tt, h).
Proof.
  intros R Hfuel. unfold traverser.
  rewrite (traverseNode_events (fun _ => None) (fun h' => h' = h) t VNull);
    [apply run_events_no_methods| | |exact Hfuel|reflexivity].
  - intros h' ->. exact R.
  - apply Forall_forall. intros e _ h1 h2 -> H.
    destruct e; cbn in H; inversion H; reflexivity.
Qed.

Lemma traverser_without_methods_witness :
  traverser 4 (VRef 1) (fun _ => None) example_call_heap
  = Return (tt, example_call_heap).
Proof.
  apply (traverser_without_methods example_call_tree 4 example_call_heap).
  - exact example_call_repr.
  - cbn. lia.
Defined.

(** ** Transformer: what it does to the tree it is given *)

(** X15.  The transformer writes into the tree it is given: when it
    returns, the property [_context] of the source Program is the very
    array that is the [body] of the returned Program.  Every object of the
    heap that is not a node of the source tree (the arrays of the source
    tree among them) is exactly as it was. *)
Theorem transformer_marks_the_source
    (fuel : nat) (h0 : heap) (l a : loc) (body : list stree) :
  repr h0 (SProgram l a body) -> Forall expression body ->
  height (SProgram l a body) < fuel ->
  exists newAst h',
    transformer fuel (VRef l) h0 = Return (VRef newAst, h')
    /\ (exists c, field h' l "_context" = Some (VRef c)
                  /\ field h' newAst "body" = Some (VRef c))
    /\ (forall l', l' < length h0 -> l' ∉ nodes (SProgram l a body) ->
                   h' !! l' = h0 !! l').
Proof.
  intros R Hbody Hfuel.
  destruct (transformer_program_heap fuel h0 l a body R Hbody Hfuel)
    as (h' & Hrun & _ & _ & Hctx & Hnew & Hframe).
  exists (S (length h0)), h'. split; [exact Hrun|]. split; [|exact Hframe].
  exists (length h0). split; [exact Hctx|exact Hnew].
Qed.

Lemma transformer_marks_the_source_witness :
  exists newAst h',
    transformer 4 (VRef 1) example_call_heap = Return (VRef newAst, h')
    /\ (exists c, field h' 1 "_context" = Some (VRef c)
                  /\ field h' newAst "body" = Some (VRef c))
    /\ (forall l', l' < length example_call_heap -> l' ∉ nodes example_call_tree ->
                   h' !! l' = example_call_heap !! l').
Proof.
  apply (transformer_marks_the_source 4 example_call_heap 1 0
           [SCallExpression 3 (js "add") 2 [SNumberLiteral 4 (js "2")]]).
  - exact example_call_repr.
  - repeat constructor.
  - cbn. lia.
Defined.

(** X16.  Transforming the same tree a second time: the [_context]
    properties left by the first run do no harm.  The second run returns a
    second target tree of the same shape, made of new objects, and changes
    no object that the first run has built, so the first target tree is
    still there. *)
Theorem transformer_twice
    (fuel : nat) (h0 : heap) (l a : loc) (body : list stree) :
  repr h0 (SProgram l a body) -> Forall expression body ->
  height (SProgram l a body) < fuel ->
  exists new1 h1 new2 h2,
    transformer fuel (VRef l) h0 = Return (VRef new1, h1)
    /\ transformer fuel (VRef l) h1 = Return (VRef new2, h2)
    /\ trepr (length h0) h2 (VRef new1) (lower false (SProgram l a body))
    /\ trepr (length h1) h2 (VRef new2) (lower false (SProgram l a body))
    /\ (forall l', length h0 <= l' -> l' < length h1 -> h2 !! l' = h1 !! l').
Proof.
  intros R Hbody Hfuel.
  destruct (transformer_program_heap fuel h0 l a body R Hbody Hfuel)
    as (h1 & Hrun1 & T1 & He1 & _ & Hnew1 & _).
  pose proof (repr_evolved _ _ _ He1 R) as R1.
  destruct (transformer_program_heap fuel h1 l a body R1 Hbody Hfuel)
    as (h2 & Hrun2 & T2 & _ & _ & _ & Hframe2).
  exists (S (length h0)), h1, (S (length h1)), h2.
  assert (Hkeep : forall l', length h0 <= l' -> l' < length h1 ->
                             h2 !! l' = h1 !! l').
  { intros l' H1 H2. apply Hframe2; [exact H2|].
    intros Hin. pose proof (repr_nodes_lt _ _ R) as Hlt.
    rewrite Forall_forall in Hlt. specialize (Hlt l' Hin). lia. }
  split; [exact Hrun1|]. split; [exact Hrun2|].
  split; [|split; [exact T2|exact Hkeep]].
  apply (trepr_frame (length h0) (length h0) h1 h2); [lia|exact Hkeep|exact T1].
Qed.

Lemma transformer_twice_witness :
  exists new1 h1 new2 h2,
    transformer 4 (VRef 1) example_call_heap = Return (VRef new1, h1)
    /\ transformer 4 (VRef 1) h1 = Return (VRef new2, h2)
    /\ trepr (length example_call_heap) h2 (VRef new1)
         (lower false example_call_tree)
    /\ trepr (length h1) h2 (VRef new2) (lower false example_call_tree)
    /\ (forall l', length example_call_heap <= l' -> l' < length h1 ->
                   h2 !! l' = h1 !! l').
Proof.
  apply (transformer_twice 4 example_call_heap 1 0
           [SCallExpression 3 (js "add") 2 [SNumberLiteral 4 (js "2")]]).
  - exact example_call_repr.
  - repeat constructor.
  - cbn. lia.
Defined.

Lemma traverseNode_enter_throws fuel (f : callback) l ty h e :
  field h l "type" = Some (VString ty) ->
  transformer_visitor ty = Some (Methods (Some f) None) ->
  f (VRef l) VNull h = Throw e ->
  traverseNode (S fuel) transformer_visitor (VRef l) VNull h = Throw e.
Proof.
  intros Hty Hv Hf. cbn [traverseNode].
  rewrite (bind_Return _ _ _ _ _ (get_field _ _ _ _ Hty)). cbn [ToStringV].
  rewrite Hv. cbn [call_method enter]. unfold bind at 1. rewrite Hf. reflexivity.
Qed.

(** X17.  The transformer needs a Program at the root: on a NumberLiteral or
    StringLiteral node it fails with the engine's TypeError for reading
    [_context] of [null] (the parent of the root), on a CallExpression node
    with the one for reading [type] of [null]. *)
Theorem transformer_needs_a_Program
    (fuel : nat) (h : heap) (l : loc) (o : object) (ty : jsstring) :
  h !! l = Some o -> props o !! "type" = Some (VString ty) ->
  (ty = js "NumberLiteral" \/ ty = js "StringLiteral" ->
   transformer (S fuel) (VRef l) h = Throw (EngineTypeError "_context"))
  /\ (ty = js "CallExpression" ->
      transformer (S fuel) (VRef l) h = Throw (EngineTypeError "type")).
Proof.
  intros El Hty.
  pose proof (lookup_lt_Some _ _ _ El) as Hl.
  set (prog := Obj (list_to_map [("type", VString (js "Program"));
                                 ("body", VRef (length h))]) None).
  set (o' := Obj (<["_context" := VRef (length h)]> (props o)) (elems o)).
  set (base := h ++ [Obj ∅ (Some []); prog]).
  assert (Hb1 : base !! S (length h) = Some prog).
  { unfold base. rewrite lookup_app_r by lia.
    replace (S (length h) - length h) with 1 by lia. reflexivity. }
  assert (Hbl : base !! l = Some o) by (apply lookup_app_l_Some; exact El).
  assert (Hrun : forall r,
    traverseNode (S fuel) transformer_visitor (VRef l) VNull (<[l := o']> base)
    = Throw r ->
    transformer (S fuel) (VRef l) h = Throw r).
  { intros r Hr. unfold transformer.
    erewrite bind_Return by reflexivity.
    erewrite bind_Return by reflexivity.
    rewrite !length_app. cbn [length]. rewrite Nat.add_1_r.
    rewrite <- !app_assoc. cbn [app]. fold prog base.
    erewrite bind_Return
      by (apply get_field; rewrite (lookup_field _ _ _ _ Hb1); reflexivity).
    rewrite (bind_Return _ _ _ _ _ (set_ref _ _ _ _ _ Hbl)). fold o'.
    unfold traverser. apply bind_Throw. exact Hr. }
  assert (Hl' : l < length base) by (unfold base; rewrite length_app; lia).
  assert (Hty' : field (<[l := o']> base) l "type" = Some (VString ty)).
  { unfold field. rewrite list_lookup_insert_eq by exact Hl'. cbn.
    rewrite lookup_insert_ne by discriminate. exact Hty. }
  split.
  - intros Hlit. apply Hrun.
    destruct Hlit as [-> | ->].
    + apply (traverseNode_enter_throws _ NumberLiteral_enter _ _ _ _ Hty');
        reflexivity.
    + apply (traverseNode_enter_throws _ StringLiteral_enter _ _ _ _ Hty');
        reflexivity.
  - intros ->. apply Hrun.
    apply (traverseNode_enter_throws _ CallExpression_enter _ _ _ _ Hty');
      [reflexivity|].
    unfold CallExpression_enter.
    assert (Hget : forall k h1, exists x, get (VRef l) k h1 = Return (x, h1)).
    { intros k h1. unfold get. destruct (h1 !! l); eauto. }
    destruct (Hget "name" (<[l := o']> base)) as (x & ->%(bind_Return _ _ _ _ _)).
    unfold new_object at 1. unfold bind at 1.
    unfold new_array. unfold bind at 1.
    unfold new_object at 1. unfold bind at 1.
    erewrite bind_Return
      by (apply get_field; rewrite field_last; reflexivity).
    match goal with |- bind (set _ ?k ?x) _ ?hh = _ =>
      assert (Hset : exists h', set (VRef l) k x hh = Return (tt, h')) end.
    { unfold set. match goal with |- context [?hh !! l] =>
        destruct (lookup_lt_is_Some_2 hh l) as (o4 & ->); [|eauto] end.
      rewrite !length_app, length_insert. lia. }
    destruct Hset as (h' & ->%(bind_Return _ _ _ _ _)).
    reflexivity.
Qed.

Lemma transformer_needs_a_Program_witness :
  transformer 1 (VRef 4) example_call_heap = Throw (EngineTypeError "_context")
  /\ transformer 1 (VRef 3) example_call_heap = Throw (EngineTypeError "type").
Proof.
  split.
  - refine (proj1 (transformer_needs_a_Program 0 example_call_heap 4 _
                     (js "NumberLiteral") eq_refl eq_refl) _).
    left. reflexivity.
  - refine (proj2 (transformer_needs_a_Program 0 example_call_heap 3 _
                     (js "CallExpression") eq_refl eq_refl) _).
    reflexivity.
Defined.

(** ** Code generator: the text of every target tree *)

(** X18.  On every target tree held in the heap (nodes of the six target
    types with exactly the properties of their type), the code generator
    returns the text [gen] of the tree and leaves the heap as it is: the
    statements of a Program on lines of their own, a semicolon behind an
    ExpressionStatement, the arguments of a call between parens and
    separated by a comma and a space, a string between double quotes. *)
Theorem codeGenerator_text (lo : nat) (h : heap) (v : val) (n : tnode) (fuel : nat) :
  trepr lo h v n -> theight n < fuel ->
  codeGenerator fuel v h = Return (VString (gen n), h).
Proof. intros T Hfuel. exact (codeGenerator_trepr lo h n v fuel T Hfuel). Qed.

Lemma codeGenerator_text_witness :
  codeGenerator 3 (VRef 1) example_target_heap
  = Return (VString (gen (TProgram [TNumberLiteral (js "7")])), example_target_heap).
Proof.
  apply (codeGenerator_text 0 example_target_heap (VRef 1)
           (TProgram [TNumberLiteral (js "7")]) 3).
  - apply (trepr_Program 0 _ 1 0 [VRef 2]); [lia|lia|reflexivity|reflexivity|].
    constructor; [|constructor]. apply trepr_NumberLiteral; [lia|reflexivity].
  - cbn. lia.
Defined.

(** ** Traverser and code generator: a node of an unknown type *)

Lemma is_str_other ty (s : string) : ty <> js s -> is_str (VString ty) s = false.
Proof.
  intros H. unfold is_str. apply bool_decide_eq_false_2. intros [= E]. exact (H E).
Qed.

(** X19.  A node whose type is a string that the function does not know:
    the traverser, when the visitor has no entry for that type, and the
    code generator throw a TypeError whose message is the type.  The
    traverser knows Program, CallExpression, NumberLiteral and
    StringLiteral; the code generator knows these and ExpressionStatement
    and Identifier. *)
Theorem unknown_node_type
    (fuel : nat) (h : heap) (l : loc) (ty : jsstring) (v : visitor) :
  field h l "type" = Some (VString ty) ->
  (ty <> js "Program" -> ty <> js "CallExpression" ->
   ty <> js "NumberLiteral" -> ty <> js "StringLiteral" ->
   v ty = None ->
   traverser (S fuel) (VRef l) v h = Throw (TypeError ty))
  /\ (ty <> js "Program" -> ty <> js "ExpressionStatement" ->
      ty <> js "CallExpression" -> ty <> js "Identifier" ->
      ty <> js "NumberLiteral" -> ty <> js "StringLiteral" ->
      codeGenerator (S fuel) (VRef l) h = Throw (TypeError ty)).
Proof.
  intros Hty. split.
  - intros H1 H2 H3 H4 Hv. unfold traverser. cbn [traverseNode].
    rewrite (bind_Return _ _ _ _ _ (get_field _ _ _ _ Hty)). cbn [ToStringV].
    rewrite Hv. cbn [call_method]. erewrite bind_Return by reflexivity.
    rewrite (bind_Return _ _ _ _ _ (get_field _ _ _ _ Hty)).
    rewrite !is_str_other by assumption. reflexivity.
  - intros H1 H2 H3 H4 H5 H6. cbn [codeGenerator].
    rewrite (bind_Return _ _ _ _ _ (get_field _ _ _ _ Hty)).
    rewrite !is_str_other by assumption. reflexivity.
Qed.

Lemma unknown_node_type_witness :
  traverser 1 (VRef 0) (fun _ => None) example_unknown_heap
  = Throw (TypeError (js "Identifier"))
  /\ codeGenerator 1 (VRef 1) example_unknown_heap = Throw (TypeError (js "Comment")).
Proof.
  split.
  - apply (proj1 (unknown_node_type 0 example_unknown_heap 0 (js "Identifier")
                    (fun _ => None) eq_refl)); try discriminate. reflexivity.
  - apply (proj2 (unknown_node_type 0 example_unknown_heap 1 (js "Comment")
                    (fun _ => None) eq_refl)); discriminate.
Defined.

(** ** The pipeline on every program *)

Lemma spelled_expression t : forall toks, spelled toks t -> expression t.
Proof.
  induction t as [l a body IH|l name a params IH|l value|l value]
    using stree_ind'; intros toks H; inversion H; subst; constructor.
  match goal with H : spelled_all _ params |- _ => rename H into Hps end.
  clear H. revert toks0 Hps.
  induction IH as [|p params Hp _ IHl]; intros ptoks Hps; inversion Hps; subst;
    constructor; eauto.
Qed.

Lemma spelled_all_expression ts : forall toks, spelled_all toks ts -> Forall expression ts.
Proof.
  induction ts as [|t ts IH]; intros toks H; inversion H; subst; constructor.
  - eapply spelled_expression; eauto.
  - eauto.
Qed.

Lemma spelled_height t : forall toks, spelled toks t -> height t <= length toks.
Proof.
  induction t as [l a body IH|l name a params IH|l value|l value]
    using stree_ind'; intros toks H; inversion H; subst; cbn [height length];
    try lia.
  match goal with H : spelled_all _ params |- _ => rename H into Hps end.
  rewrite length_app. cbn [length].
  enough (foldr (fun c n => Nat.max (height c) n) 0 params <= length toks0) by lia.
  clear H. revert toks0 Hps.
  induction IH as [|p params Hp _ IHl]; intros ptoks Hps; inversion Hps; subst;
    cbn [foldr]; [lia|].
  rewrite length_app.
  match goal with H : spelled _ p |- _ => apply Hp in H end.
  match goal with H : spelled_all _ params |- _ => apply IHl in H end.
  lia.
Qed.

Lemma spelled_all_height ts :
  forall toks, spelled_all toks ts ->
    foldr (fun c n => Nat.max (height c) n) 0 ts <= length toks.
Proof.
  induction ts as [|t ts IH]; intros toks H; inversion H; subst; cbn [foldr]; [lia|].
  rewrite length_app.
  match goal with H : spelled _ t |- _ => apply spelled_height in H end.
  match goal with H : spelled_all _ ts |- _ => apply IH in H end.
  lia.
Qed.

(** The target tree does not depend on the locations of the source tree. *)
Lemma lower_shape t : forall b, lower b (shape t) = lower b t.
Proof.
  induction t as [l a body IH|l name a params IH|l value|l value]
    using stree_ind'; intros b; cbn [shape lower]; try reflexivity.
  - f_equal. rewrite map_map. apply map_ext_Forall.
    eapply Forall_impl; [exact IH|]. intros c Hc. apply Hc.
  - assert (E : map (lower true) (map shape params) = map (lower true) params).
    { rewrite map_map. apply map_ext_Forall.
      eapply Forall_impl; [exact IH|]. intros c Hc. apply Hc. }
    rewrite E. reflexivity.
Qed.

Lemma lower_same_shape b ts ts' :
  map shape ts' = map shape ts -> map (lower b) ts' = map (lower b) ts.
Proof.
  revert ts. induction ts' as [|t' ts' IH]; intros [|t ts] E; try discriminate;
    [reflexivity|].
  cbn [map] in *. inversion E as [[Et Ets]]. f_equal; [|apply IH; exact Ets].
  rewrite <- (lower_shape t'), Et. apply lower_shape.
Qed.

Lemma theight_lower t :
  expression t ->
  theight (lower true t) <= height t + 1 /\ theight (lower false t) <= height t + 2.
Proof.
  induction t as [l a body IH|l name a params IH|l value|l value]
    using stree_ind'; intros He; inversion He; subst; cbn [lower height theight];
    try lia.
  enough (foldr (fun c n => Nat.max (theight c) n) 0 (map (lower true) params)
          <= foldr (fun c n => Nat.max (height c) n) 0 params + 1) by lia.
  match goal with H : Forall expression params |- _ => rename H into Hex end.
  clear He. induction IH as [|c params Hc _ IHl]; cbn [map foldr]; [lia|].
  inversion Hex; subst. destruct (Hc ltac:(assumption)) as [Hc1 _].
  specialize (IHl ltac:(assumption)). lia.
Qed.

Lemma theight_lower_program body :
  Forall expression body ->
  theight (TProgram (map (lower false) body))
  <= S (foldr (fun c n => Nat.max (height c) n) 0 body) + 2.
Proof.
  intros Hex. cbn [theight].
  enough (foldr (fun c n => Nat.max (theight c) n) 0 (map (lower false) body)
          <= foldr (fun c n => Nat.max (height c) n) 0 body + 2) by lia.
  induction Hex as [|c body Hc _ IHl]; cbn [map foldr]; [lia|].
  destruct (theight_lower c Hc) as [_ H2]. lia.
Qed.

Lemma compile_complete
    (fuel0 : nat) (input : jsstring) (tokens : list token) (body : list stree)
    (fuel : nat) :
  tokenizer fuel0 input = Return tokens ->
  spelled_all tokens body ->
  fuel0 <= fuel -> length tokens + 4 <= fuel ->
  compile fuel input = Return (VString (gen (TProgram (map (lower false) body)))).
Proof.
  intros Htok Hsp Hf0 Hf. unfold compile.
  assert (Htok' : tokenizer fuel input = Return tokens)
    by exact (tokenizer_loop_mono _ _ _ _ _ _ Htok ltac:(discriminate) Hf0).
  rewrite Htok'.
  destruct (parser_complete tokens body [] fuel Hsp ltac:(lia))
    as (a & body' & h1 & Hp & R & Hshape & Hsp' & _).
  rewrite (bind_Return _ _ _ _ _ Hp).
  pose proof (spelled_all_expression _ _ Hsp') as Hex.
  pose proof (spelled_all_height _ _ Hsp') as Hh.
  destruct (transformer_program fuel h1 _ a body' R Hex ltac:(cbn [height]; lia))
    as (h2 & Ht & T & _).
  rewrite (bind_Return _ _ _ _ _ Ht).
  pose proof (theight_lower_program body' Hex) as Hth.
  cbn [lower] in T.
  rewrite (codeGenerator_trepr _ _ _ _ fuel T ltac:(lia)).
  rewrite (lower_same_shape false body body' Hshape). reflexivity.
Qed.

(** X20.  The pipeline is right on every program: when the input tokenizes
    to tokens that spell the expressions [body], then, with fuel for the
    tokenizer and four units more than there are tokens, the pipeline
    returns the text of the target Program whose body is, for each
    expression in order, its target tree: the literal itself for a literal,
    an ExpressionStatement around the call for a call, the calls inside a
    call bare. *)
Theorem compile_correct
    (fuel0 : nat) (input : jsstring) (tokens : list token) (body : list stree)
    (fuel : nat) :
  tokenizer fuel0 input = Return tokens ->
  spelled_all tokens body ->
  fuel0 <= fuel -> length tokens + 4 <= fuel ->
  compile fuel input = Return (VString (gen (TProgram (map (lower false) body)))).
Proof. apply compile_complete. Qed.

Lemma compile_correct_witness :
  compile 30 (js "(add 2 (subtract 4 2))")
  = Return (VString (gen (TProgram (map (lower false)
      [SCallExpression 0 (js "add") 0
         [SNumberLiteral 0 (js "2");
          SCallExpression 0 (js "subtract") 0
            [SNumberLiteral 0 (js "4"); SNumberLiteral 0 (js "2")]]])))).
Proof.
  refine (compile_correct 30 (js "(add 2 (subtract 4 2))") _ _ 30 _ _ _ _).
  - vm_compute. reflexivity.
  - apply (tokens_of_spelled_all
             [SCallExpression 0 (js "add") 0
                [SNumberLiteral 0 (js "2");
                 SCallExpression 0 (js "subtract") 0
                   [SNumberLiteral 0 (js "4"); SNumberLiteral 0 (js "2")]]]).
    repeat constructor.
  - lia.
  - vm_compute. lia.
Defined.

Lemma compile_sound_run fuel input out :
  compile fuel input = Return out ->
  exists tokens body,
    tokenizer fuel input = Return tokens
    /\ spelled_all tokens body
    /\ out = VString (gen (TProgram (map (lower false) body))).
Proof.
  intros H.
  destruct (compile_stages _ _ _ H) as (tokens & ast & h1 & newAST & h2 & h3
                                        & Htok & Hp & Ht & Hc).
  destruct (parser_sound _ _ _ _ _ Hp) as (a & body & -> & R & Hsp & _).
  exists tokens, body. split; [exact Htok|]. split; [exact Hsp|].
  pose proof (spelled_all_expression _ _ Hsp) as Hbody.
  cbn [length] in R.
  destruct (transformer_program (S (height (SProgram 1 a body)) + fuel) h1 1 a body
              R Hbody ltac:(lia)) as (h2' & Ht' & T & _).
  apply (monotone_le _ _ (S (height (SProgram 1 a body)) + fuel) _ _
           (transformer_monotone _)) in Ht; [|discriminate|lia].
  cbn [length] in Ht. rewrite Ht' in Ht. inversion Ht; subst newAST h2'; clear Ht.
  pose proof (codeGenerator_trepr _ _ _ _
                (S (theight (lower false (SProgram 1 a body))) + fuel) T
                ltac:(lia)) as Hc'.
  apply (monotone_le _ _ (S (theight (lower false (SProgram 1 a body))) + fuel)
           _ _ (codeGenerator_monotone _)) in Hc; [|discriminate|lia].
  rewrite Hc' in Hc. inversion Hc. reflexivity.
Qed.

(** X21.  The pipeline returns nothing else: whenever it returns, the input
    tokenizes to tokens that spell a list of expressions, and the output is
    the text of the target Program of these expressions. *)
Theorem compile_sound (fuel : nat) (input : jsstring) (out : val) :
  compile fuel input = Return out ->
  exists tokens body,
    tokenizer fuel input = Return tokens
    /\ spelled_all tokens body
    /\ out = VString (gen (TProgram (map (lower false) body))).
Proof. apply compile_sound_run. Qed.

Lemma compile_sound_witness :
  exists tokens body,
    tokenizer 30 (js "(add 2 (subtract 4 2))") = Return tokens
    /\ spelled_all tokens body
    /\ VString (js "add(2, subtract(4, 2));")
       = VString (gen (TProgram (map (lower false) body))).
Proof.
  apply (compile_sound 30 (js "(add 2 (subtract 4 2))")).
  vm_compute. reflexivity.
Defined.

(** X22.  Empty and blank input: on an input made of whitespace only, the
    empty input among them, the pipeline returns the empty text. *)
Theorem blank_input_compiles_to_nothing (ws : jsstring) (fuel : nat) :
  Forall (fun c => is_space c = true) ws ->
  compile (length ws + 4 + fuel) ws = Return (VString []).
Proof.
  intros Hws.
  apply (compile_complete (S (length ws) + 0) ws [] []);
    [apply tokenizer_blank; exact Hws|constructor|lia|cbn [length]; lia].
Qed.

Lemma blank_input_compiles_to_nothing_witness :
  compile (3 + 4 + 0) [32%N; 10%N; 9%N] = Return (VString []).
Proof.
  apply (blank_input_compiles_to_nothing [32%N; 10%N; 9%N] 0).
  repeat constructor.
Defined.

(** X23.  The errors of the pipeline: it fails only with the SyntaxError of
    the tokenizer, for an unrecognized character of the input, or with one
    of the two TypeErrors that the engine raises in the parser.  The
    [throw new TypeError(node.type)] of the traverser and of the code
    generator are never reached, and the transformer never fails on what the
    parser returns. *)
Theorem compile_errors (fuel : nat) (input : jsstring) (e : error) :
  compile fuel input = Throw e ->
  (exists c, c ∈ input /\ unrecognized c = true
             /\ e = SyntaxError (js "I dont know what this character is: " ++ [c]))
  \/ e = EngineTypeError "type" \/ e = EngineTypeError "value".
Proof.
  unfold compile. intros H.
  destruct (tokenizer fuel input) as [tokens|e'|] eqn:Htok; [| |discriminate].
  2:{ inversion H; subst e'. left.
      apply tokenizer_loop_throws in Htok as (i & c & Hi & Hc & ->).
      exists c. split; [eapply list_elem_of_lookup_2; exact Hi|]. split; [exact Hc|].
      reflexivity. }
  right.
  match type of H with match ?m with _ => _ end = _ =>
    destruct m as [[out h3]|e'|] eqn:E end; [discriminate| |discriminate].
  inversion H; subst e'; clear H.
  apply bind_throw_inv in E as [E|(ast & h1 & Hp & E)];
    [exact (parser_throws _ _ _ _ E)|].
  exfalso.
  destruct (parser_spec _ _ _ _ _ Hp) as (l & a & body & -> & R & Hbody & _).
  destruct (transformer_program (S (height (SProgram l a body)) + fuel) h1 l a body
              R Hbody ltac:(lia)) as (h2 & Ht & T & _).
  apply bind_throw_inv in E as [E|(newAST & h2' & Ht' & E)].
  - apply (monotone_le _ _ (S (height (SProgram l a body)) + fuel) _ _
             (transformer_monotone _)) in E; [|discriminate|lia].
    rewrite Ht in E. discriminate.
  - apply (monotone_le _ _ (S (height (SProgram l a body)) + fuel) _ _
             (transformer_monotone _)) in Ht'; [|discriminate|lia].
    rewrite Ht in Ht'. inversion Ht'; subst newAST h2'; clear Ht'.
    pose proof (codeGenerator_trepr _ _ _ _
                  (S (theight (lower false (SProgram l a body))) + fuel) T
                  ltac:(lia)) as Hc'.
    apply (monotone_le _ _ (S (theight (lower false (SProgram l a body))) + fuel)
             _ _ (codeGenerator_monotone _)) in E; [|discriminate|lia].
    rewrite Hc' in E. discriminate.
Qed.

Lemma compile_errors_witness :
  (exists c, c ∈ js "(add 2 #)" /\ unrecognized c = true
             /\ SyntaxError (js "I dont know what this character is: #")
                = SyntaxError (js "I dont know what this character is: " ++ [c]))
  \/ SyntaxError (js "I dont know what this character is: #") = EngineTypeError "type"
  \/ SyntaxError (js "I dont know what this character is: #") = EngineTypeError "value".
Proof.
  apply (compile_errors 10 (js "(add 2 #)")). vm_compute. reflexivity.
Defined.

(** ** The pipeline on two inputs in a row *)

Lemma join_app xs ys sep :
  xs <> [] -> ys <> [] ->
  join (xs ++ ys) sep = join xs sep ++ sep ++ join ys sep.
Proof.
  intros Hxs Hys. induction xs as [|x xs IH]; [congruence|].
  destruct xs as [|x' xs].
  - destruct ys as [|y ys]; [congruence|]. reflexivity.
  - change (join ((x :: x' :: xs) ++ ys) sep)
      with (join_text x ++ sep ++ join ((x' :: xs) ++ ys) sep).
    rewrite IH by discriminate.
    change (join (x :: x' :: xs) sep) with (join_text x ++ sep ++ join (x' :: xs) sep).
    rewrite <- !app_assoc. reflexivity.
Qed.

Lemma spelled_all_app toks1 ts1 toks2 ts2 :
  spelled_all toks1 ts1 -> spelled_all toks2 ts2 ->
  spelled_all (toks1 ++ toks2) (ts1 ++ ts2).
Proof.
  intros H1 H2. revert toks1 H1.
  induction ts1 as [|t ts1 IH]; intros toks1 H1; inversion H1; subst; [exact H2|].
  rewrite <- app_assoc. cbn [app]. constructor; auto.
Qed.

(** X24.  Two inputs in a row: when the pipeline returns a non-empty text
    for [a] and a non-empty text for [b], then for [a ++ b] it returns the
    first text, a line feed and the second text. *)
Theorem compile_app (f1 f2 : nat) (a b o1 o2 : jsstring) (fuel : nat) :
  compile f1 a = Return (VString o1) ->
  compile f2 b = Return (VString o2) ->
  o1 <> [] -> o2 <> [] ->
  f1 + f2 + length a + length b + 4 <= fuel ->
  compile fuel (a ++ b) = Return (VString (o1 ++ [10%N] ++ o2)).
Proof.
  intros H1 H2 Hn1 Hn2 Hfuel.
  destruct (compile_sound_run _ _ _ H1) as (ta & body1 & Ht1 & Hs1 & [= ->]).
  destruct (compile_sound_run _ _ _ H2) as (tb & body2 & Ht2 & Hs2 & [= ->]).
  pose proof (tokenizer_app_run f1 f2 a b ta (Return tb) Ht1 Ht2 ltac:(discriminate))
    as Htok.
  pose proof (tokenizer_loop_count _ _ 0 [] _ ltac:(lia) ltac:(cbn; lia) Ht1) as Hc1.
  pose proof (tokenizer_loop_count _ _ 0 [] _ ltac:(lia) ltac:(cbn; lia) Ht2) as Hc2.
  rewrite (compile_complete (f1 + f2) (a ++ b) (ta ++ tb) (body1 ++ body2) fuel Htok);
    [|apply spelled_all_app; assumption|lia|rewrite length_app; lia].
  f_equal. f_equal. cbn [gen]. rewrite !map_app.
  apply join_app; intros E; apply map_eq_nil in E; apply map_eq_nil in E;
    subst; [apply Hn1|apply Hn2]; reflexivity.
Qed.

Lemma compile_app_witness :
  compile 50 (js "(add 1 2)" ++ js "(f)")
  = Return (VString (js "add(1, 2);" ++ [10%N] ++ js "f();")).
Proof.
  apply (compile_app 12 8 (js "(add 1 2)") (js "(f)")).
  - vm_compute. reflexivity.
  - vm_compute. reflexivity.
  - discriminate.
  - discriminate.
  - vm_compute. lia.
Defined.

(** ** The literals of the input in the output *)

(** The literal tokens among the tokens of an expression are strings of
    the expression. *)
Lemma spelled_texts t :
  forall toks, spelled toks t ->
    forall tok, tok ∈ toks -> literal_token tok -> value tok ∈ texts t.
Proof.
  induction t as [l a body IH|l name a params IH|l value|l value]
    using stree_ind'; intros toks H tok Hin Hlit; inversion H; subst;
    cbn [texts].
  - apply elem_of_cons in Hin as [->|Hin];
      [destruct Hlit as [Hlit|Hlit]; discriminate Hlit|].
    apply elem_of_cons in Hin as [->|Hin]; [left|].
    apply elem_of_app in Hin as [Hin|Hin].
    2:{ apply list_elem_of_singleton in Hin as ->.
        destruct Hlit as [Hlit|Hlit]; discriminate Hlit. }
    right.
    match goal with H : spelled_all _ params |- _ => rename H into Hps end.
    clear H. revert toks0 Hps Hin.
    induction IH as [|p params Hp _ IHl]; intros ptoks Hps Hin; inversion Hps; subst;
      [inversion Hin|].
    cbn [flat_map]. apply elem_of_app.
    apply elem_of_app in Hin as [Hin|Hin]; [left; eauto|right; eauto].
  - apply list_elem_of_singleton in Hin as ->. left.
  - apply list_elem_of_singleton in Hin as ->. left.
Qed.

Lemma spelled_all_texts ts :
  forall toks, spelled_all toks ts ->
    forall tok, tok ∈ toks -> literal_token tok -> value tok ∈ flat_map texts ts.
Proof.
  induction ts as [|t ts IH]; intros toks H tok Hin Hlit; inversion H; subst;
    [inversion Hin|].
  cbn [flat_map]. apply elem_of_app.
  apply elem_of_app in Hin as [Hin|Hin];
    [left; eapply spelled_texts; eauto|right; eauto].
Qed.

(** Every token is written in the input as it is: a paren, a digit, the
    letters of a name, and the content of a string between two double
    quotes. *)
Lemma tokenizer_loop_spelling fuel input current tokens out :
  Forall (fun t => infix (spell t) input) tokens ->
  tokenizer_loop fuel input current tokens = Return out ->
  Forall (fun t => infix (spell t) input) out.
Proof.
  revert current tokens.
  induction fuel as [|fuel IH]; intros current tokens Htok H; [discriminate|].
  cbn [tokenizer_loop] in H.
  case_bool_decide as Hlt; [|inversion H; subst out; exact Htok].
  destruct (lookup_lt_is_Some_2 _ _ Hlt) as [c Hc]. rewrite Hc in H.
  assert (Hone : forall ty, ty <> js "string" ->
            Forall (fun t => infix (spell t) input) (tokens ++ [Token ty [c]])).
  { intros ty Hty. apply Forall_app. split; [exact Htok|].
    constructor; [|constructor]. unfold spell. cbn [type value].
    rewrite bool_decide_eq_false_2 by exact Hty.
    exists (take current input), (drop (S current) input).
    symmetry. exact (take_drop_middle input current c Hc). }
  destruct (_ || _); [eapply IH; [|exact H]; apply Hone; discriminate|].
  destruct (WS_test _); [eapply IH; [|exact H]; exact Htok|].
  destruct (NUMBER_test _); [eapply IH; [|exact H]; apply Hone; discriminate|].
  destruct (bool_decide (_ = Some dquote)) eqn:Hq.
  { apply bool_decide_eq_true_1 in Hq. inversion Hq; subst c.
    destruct (string_loop fuel _ _ _ _) as [[[c' v] ch]|] eqn:E; [|discriminate].
    apply string_loop_chars in E as (s & [= -> -> ->] & Hs & Hseg & Hend).
    eapply IH; [|exact H]. apply Forall_app. split; [exact Htok|].
    constructor; [|constructor]. unfold spell. cbn [type value app].
    rewrite bool_decide_eq_true_2 by reflexivity.
    exists (take current input), (drop (S (S current + length s)) input).
    rewrite <- (take_drop_middle input _ dquote Hend) at 1.
    rewrite (take_segment s input (S current) Hseg).
    rewrite (take_S_r input current dquote Hc).
    cbn [app]. rewrite <- !app_assoc. reflexivity. }
  destruct (LETTER_test _); [|discriminate].
  destruct (name_loop fuel _ _ _ _) as [[[c' v] ch]|] eqn:E; [|discriminate].
  rewrite <- Hc in E.
  apply name_loop_chars in E as (s & x & [= -> -> ->] & Hs & Hseg & Hend & Hx).
  eapply IH; [|exact H]. apply Forall_app. split; [exact Htok|].
  constructor; [|constructor]. unfold spell. cbn [type value app].
  rewrite bool_decide_eq_false_2 by discriminate.
  exists (take current input), (drop (current + length s) input).
  rewrite <- (take_drop (current + length s) input) at 1.
  rewrite (take_segment s input current Hseg).
  rewrite <- !app_assoc. reflexivity.
Qed.

(** C9.  On every well-formed input, one that tokenizes to tokens that
    spell a list of expressions [body], the pipeline returns, and what it
    returns is exactly the text of the target Program of [body]: the text,
    written by [gen], in which a NumberLiteral is its value as it is and a
    StringLiteral is its value as it is between two double quotes.  No
    literal is changed on the way.  Every Number token is a digit of the
    input and every String token is what the input has between two double
    quotes; the text of every Number token and the content of every String
    token occur in the output as they are; and so do the value of every
    NumberLiteral node and, between double quotes, the value of every
    StringLiteral node. *)
Theorem C9_literals_verbatim
    (fuel0 : nat) (input : jsstring) (tokens : list token) (body : list stree)
    (fuel : nat) :
  tokenizer fuel0 input = Return tokens ->
  spelled_all tokens body ->
  fuel0 <= fuel -> length tokens + 4 <= fuel ->
  compile fuel input = Return (VString (gen (TProgram (map (lower false) body))))
  /\ (forall tok, tok ∈ tokens ->
        type tok = js "number" \/ type tok = js "string" ->
        infix (spell tok) input)
  /\ (forall tok, tok ∈ tokens ->
        type tok = js "number" \/ type tok = js "string" ->
        infix (value tok) (gen (TProgram (map (lower false) body))))
  /\ (forall s, s ∈ flat_map renderings body ->
        infix s (gen (TProgram (map (lower false) body)))).
Proof.
  intros Htok Hsp Hf0 Hf. split; [|split; [|split]].
  - exact (compile_complete fuel0 input tokens body fuel Htok Hsp Hf0 Hf).
  - intros tok Hin _.
    apply (tokenizer_loop_spelling _ _ _ _ _ (Forall_nil_2 _)) in Htok.
    exact (proj1 (Forall_forall _ _) Htok tok Hin).
  - intros tok Hin Hlit.
    apply (gen_texts (SProgram 0 0 body) false). cbn [texts].
    eapply spelled_all_texts; eauto.
  - intros s Hs. apply (gen_renderings (SProgram 0 0 body) false). exact Hs.
Qed.

Lemma C9_witness :
  compile 30 (js "(concat " ++ (dquote :: js "foo" ++ (dquote :: js " 7)")))
  = Return (VString (js "concat(" ++ (dquote :: js "foo" ++ (dquote :: js ", 7);"))))
  /\ (forall tok,
        tok ∈ [lp; Token (js "name") (js "concat"); Token (js "string") (js "foo");
               Token (js "number") (js "7"); rp] ->
        type tok = js "number" \/ type tok = js "string" ->
        infix (spell tok)
              (js "(concat " ++ (dquote :: js "foo" ++ (dquote :: js " 7)"))))
  /\ (forall tok,
        tok ∈ [lp; Token (js "name") (js "concat"); Token (js "string") (js "foo");
               Token (js "number") (js "7"); rp] ->
        type tok = js "number" \/ type tok = js "string" ->
        infix (value tok)
              (js "concat(" ++ (dquote :: js "foo" ++ (dquote :: js ", 7);"))))
  /\ (forall s,
        s ∈ [dquote :: js "foo" ++ [dquote]; js "7"] ->
        infix s (js "concat(" ++ (dquote :: js "foo" ++ (dquote :: js ", 7);")))).
Proof.
  refine (C9_literals_verbatim 30
            (js "(concat " ++ (dquote :: js "foo" ++ (dquote :: js " 7)")))
            [lp; Token (js "name") (js "concat"); Token (js "string") (js "foo");
             Token (js "number") (js "7"); rp]
            [SCallExpression 0 (js "concat") 0
               [SStringLiteral 0 (js "foo"); SNumberLiteral 0 (js "7")]]
            30 _ _ _ _).
  - vm_compute. reflexivity.
  - apply (tokens_of_spelled_all
             [SCallExpression 0 (js "concat") 0
                [SStringLiteral 0 (js "foo"); SNumberLiteral 0 (js "7")]]).
    repeat constructor.
  - lia.
  - vm_compute. lia.
Defined.
